(** * Exact distinct count of IPv6 addresses: a model of [ipv6_counter.py]

    The development follows the script class by class: [IPv6Parser],
    [FastHasher], [PartitionWriter], [PartitionProcessor],
    [IPv6UniqueCounter] and [main].

    Conventions of the model.
    - Text is ASCII: a [text] is a list of [ascii] with codes below 128, the
      repertoire on which [bytes.decode('utf-8')] is the identity.
    - Binary data is a list of byte values in [Z].
    - Python library calls ([str.split], [int], [struct.pack], [list.sort],
      [heapq], [tempfile], [mmap]) are modelled by their documented
      behaviour. *)

From Stdlib Require Import ZArith Ascii String.
From stdpp Require Import base list gmap strings sorting pretty.

Local Open Scope Z_scope.

(** ** Exceptions and results *)

Inductive exn : Type :=
  | ValueError      (* raised by the parser itself and by [int], [mmap] *)
  | StructError     (* [struct.error]: value out of range for ['>H'] *)
  | OSError         (* failure of an operation on the file system *)
  | IndexError      (* list index out of range *)
  | OutOfFuel.      (* artefact of the model: loop bound exhausted *)

Inductive result (A : Type) : Type :=
  | Ok (a : A)
  | Raise (e : exn).
Arguments Ok {A} a.
Arguments Raise {A} e.

Definition rbind {A B} (r : result A) (k : A → result B) : result B :=
  match r with
  | Ok a => k a
  | Raise e => Raise e
  end.

Definition is_ok {A} (r : result A) : bool :=
  match r with Ok _ => true | Raise _ => false end.

(** ** Python string primitives on ASCII text *)

Abbreviation text := (list ascii).

Definition str (s : string) : text := list_ascii_of_string s.

Definition code (c : ascii) : Z := Z.of_N (N_of_ascii c).

Definition chr (z : Z) : ascii := ascii_of_N (Z.to_N z).

Definition is_char (c d : ascii) : bool := bool_decide (c = d).

(** [str.isspace] on ASCII: TAB..CR, FS..US and the space. *)
Definition is_space (c : ascii) : bool :=
  let n := code c in
  ((9 <=? n) && (n <=? 13)) || ((28 <=? n) && (n <=? 32)).

Definition lower_char (c : ascii) : ascii :=
  let n := code c in
  if (65 <=? n) && (n <=? 90) then chr (n + 32) else c.

(** [str.lower] *)
Definition lower (s : text) : text := lower_char <$> s.

Fixpoint lstrip_space (s : text) : text :=
  match s with
  | c :: s' => if is_space c then lstrip_space s' else s
  | [] => []
  end.

(** [str.strip] without argument *)
Definition strip (s : text) : text :=
  reverse (lstrip_space (reverse (lstrip_space s))).

(** [str.lstrip(chars)] for a single character *)
Fixpoint lstrip_char (z : ascii) (s : text) : text :=
  match s with
  | c :: s' => if is_char c z then lstrip_char z s' else s
  | [] => []
  end.

Definition cons_head (c : ascii) (parts : list text) : list text :=
  match parts with
  | g :: gs => (c :: g) :: gs
  | [] => [[c]]
  end.

(** [str.split(sep)] for a one-character separator: always at least one
    piece, empty pieces are kept. *)
Fixpoint split_char (sep : ascii) (s : text) : list text :=
  match s with
  | [] => [[]]
  | c :: s' =>
      if is_char c sep then [] :: split_char sep s'
      else cons_head c (split_char sep s')
  end.

(** [str.split('::')]: the separator is matched left to right, without
    overlap. *)
Fixpoint split_dcolon (s : text) : list text :=
  match s with
  | [] => [[]]
  | c :: s' =>
      match s' with
      | d :: s'' =>
          if is_char c ":" && is_char d ":" then [] :: split_dcolon s''
          else cons_head c (split_dcolon s')
      | [] => [[c]]
      end
  end.

(** ['::' in addr] *)
Fixpoint has_dcolon (s : text) : bool :=
  match s with
  | c :: s' =>
      match s' with
      | d :: _ => (is_char c ":" && is_char d ":") || has_dcolon s'
      | [] => false
      end
  | [] => false
  end.

(** *** [int(s, 16)] *)

Definition hex_digit (c : ascii) : option Z :=
  let n := code c in
  if (48 <=? n) && (n <=? 57) then Some (n - 48)
  else if (97 <=? n) && (n <=? 102) then Some (n - 87)
  else if (65 <=? n) && (n <=? 70) then Some (n - 55)
  else None.

(** Digits after the first one; a single underscore may separate two
    digits. *)
Fixpoint int_digits (acc : Z) (s : text) : option Z :=
  match s with
  | [] => Some acc
  | c :: s' =>
      if is_char c "_" then
        match s' with
        | d :: s'' =>
            match hex_digit d with
            | Some v => int_digits (16 * acc + v) s''
            | None => None
            end
        | [] => None
        end
      else
        match hex_digit c with
        | Some v => int_digits (16 * acc + v) s'
        | None => None
        end
  end.

Definition int_sign (s : text) : Z * text :=
  match s with
  | c :: s' =>
      if is_char c "+" then (1, s')
      else if is_char c "-" then (-1, s')
      else (1, s)
  | [] => (1, s)
  end.

(** The optional [0x] prefix, after which one underscore is allowed. *)
Definition int_prefix (s : text) : text :=
  match s with
  | c :: d :: s' =>
      if is_char c "0" && (is_char d "x" || is_char d "X") then
        match s' with
        | u :: s'' => if is_char u "_" then s'' else s'
        | [] => s'
        end
      else s
  | _ => s
  end.

(** The white space that [int] skips around the digits of an ASCII string:
    TAB..CR and the space (not FS..US, which [str.strip] removes). *)
Definition is_int_space (c : ascii) : bool :=
  let n := code c in
  ((9 <=? n) && (n <=? 13)) || (n =? 32).

Fixpoint lstrip_int_space (s : text) : text :=
  match s with
  | c :: s' => if is_int_space c then lstrip_int_space s' else s
  | [] => []
  end.

Definition strip_int_space (s : text) : text :=
  reverse (lstrip_int_space (reverse (lstrip_int_space s))).

(** [int(s, 16)]: surrounding white space, a sign, the [0x] prefix, then
    at least one hexadecimal digit. *)
Definition int16 (s : text) : result Z :=
  let '(sign, s1) := int_sign (strip_int_space s) in
  match int_prefix s1 with
  | c :: s2 =>
      match hex_digit c with
      | Some v =>
          match int_digits v s2 with
          | Some n => Ok (sign * n)
          | None => Raise ValueError
          end
      | None => Raise ValueError
      end
  | [] => Raise ValueError
  end.

(** [struct.pack('>H', value)] *)
Definition pack_H (value : Z) : result (list Z) :=
  if (0 <=? value) && (value <=? 65535)
  then Ok [value / 256; value mod 256]
  else Raise StructError.

(** ** [IPv6Parser] *)

Module IPv6Parser.

Definition group_value (group : text) : result Z :=
  if bool_decide (group = []) || bool_decide (group = str "0") then Ok 0
  else
    match lstrip_char "0" group with
    | [] => int16 (str "0")
    | g => int16 g
    end.

Fixpoint _groups_to_bytes (groups : list text) : result (list Z) :=
  match groups with
  | [] => Ok []
  | group :: rest =>
      rbind (group_value group) (λ value,
      rbind (pack_H value) (λ packed,
      rbind (_groups_to_bytes rest) (λ tail,
      Ok (packed ++ tail))))
  end.

Definition groups_of (part : text) : list text :=
  match part with
  | [] => []
  | _ => split_char ":" part
  end.

Definition _expand_compressed (addr : text) : result (list Z) :=
  match split_dcolon addr with
  | [part0; part1] =>
      let left_groups := groups_of part0 in
      let right_groups := groups_of part1 in
      let missing_groups :=
        8 - Z.of_nat (length left_groups) - Z.of_nat (length right_groups) in
      if missing_groups <? 0 then Raise ValueError
      else
        let all_groups :=
          left_groups ++ replicate (Z.to_nat missing_groups) (str "0")
                      ++ right_groups in
        _groups_to_bytes all_groups
  | _ => Raise ValueError
  end.

Definition to_canonical_bytes (addr_str : text) : result (list Z) :=
  let addr := strip (lower addr_str) in
  if has_dcolon addr then _expand_compressed addr
  else
    let groups := split_char ":" addr in
    if bool_decide (length groups ≠ 8%nat) then Raise ValueError
    else _groups_to_bytes groups.

End IPv6Parser.

(** ** Byte strings and their order *)

Abbreviation bytes := (list Z).

(** Comparison of [bytes] objects: lexicographic on the byte values. *)
Fixpoint bytes_leb (a b : bytes) : bool :=
  match a, b with
  | [], _ => true
  | _ :: _, [] => false
  | x :: a', y :: b' =>
      if x <? y then true else if y <? x then false else bytes_leb a' b'
  end.

Definition bytes_le (a b : bytes) : Prop := bytes_leb a b = true.

Global Instance bytes_le_dec a b : Decision (bytes_le a b).
Proof. unfold bytes_le. apply _. Defined.

(** [list.sort] on a list of records. *)
Definition sort_records (records : list bytes) : list bytes :=
  merge_sort bytes_le records.

(** ** The priority queue of [heapq]

    Entries are the tuples [(record, file_idx)], compared as Python compares
    tuples.  The queue is kept in ascending order, so that [heappop] returns
    the least entry, which is the contract of [heapq]. *)

Definition entry : Type := bytes * nat.

Definition entry_leb (a b : entry) : bool :=
  if bool_decide (a.1 = b.1) then bool_decide (a.2 ≤ b.2)%nat
  else bytes_leb a.1 b.1.

Fixpoint heappush (heap : list entry) (item : entry) : list entry :=
  match heap with
  | [] => [item]
  | e :: heap' =>
      if entry_leb item e then item :: heap else e :: heappush heap' item
  end.

Definition heappop (heap : list entry) : option (entry * list entry) :=
  match heap with
  | [] => None
  | e :: heap' => Some (e, heap')
  end.

(** ** The world: files, diagnostics and failures of the environment *)

Inductive message : Type :=
  | MsgPartitions (n : nat)
  | MsgLineError (line : text) (e : exn)
  | MsgPartitionCount (path : nat) (unique_count : nat)
  | MsgPartitionError (path : nat) (e : exn)
  | MsgTotal (total_unique : nat)
  | MsgSaved (path : string)
  | MsgMissingInput (path : string)
  | MsgCritical (e : exn).

(** Files named by the caller ([files]) hold text; files named by
    [tempfile.mkstemp] ([temps]) hold bytes and are identified by a number.
    [tempdir] is the set of temporary files that live in the directory of
    [tempfile.TemporaryDirectory].  [faults] is the schedule of the
    environment: each operation on the file system consumes one entry, and
    fails with [OSError] when the entry is [true]. *)
Record world : Type := World {
  files : gmap string text;
  temps : gmap nat bytes;
  tempdir : gset nat;
  stderr : list message;
  faults : list bool
}.

Definition set_files (f : gmap string text → gmap string text) (w : world) : world :=
  World (f (files w)) (temps w) (tempdir w) (stderr w) (faults w).

Definition set_temps (f : gmap nat bytes → gmap nat bytes) (w : world) : world :=
  World (files w) (f (temps w)) (tempdir w) (stderr w) (faults w).

Definition set_tempdir (f : gset nat → gset nat) (w : world) : world :=
  World (files w) (temps w) (f (tempdir w)) (stderr w) (faults w).

Definition set_stderr (f : list message → list message) (w : world) : world :=
  World (files w) (temps w) (tempdir w) (f (stderr w)) (faults w).

Definition set_faults (f : list bool → list bool) (w : world) : world :=
  World (files w) (temps w) (tempdir w) (stderr w) (f (faults w)).

(** Computations that may raise and that act on the world.  The world
    survives an exception: what was written stays written. *)
Definition M (A : Type) : Type := world → result A * world.

Definition ret {A} (a : A) : M A := λ w, (Ok a, w).

Definition raise {A} (e : exn) : M A := λ w, (Raise e, w).

Definition bind {A B} (m : M A) (k : A → M B) : M B :=
  λ w, match m w with
       | (Ok a, w') => k a w'
       | (Raise e, w') => (Raise e, w')
       end.

Notation "'let*' p ':=' m 'in' k" := (bind m (λ p, k))
  (at level 10, p pattern, m at level 100, k at level 200).

Notation "m ';;;' k" := (bind m (λ _, k))
  (at level 100, k at level 200, right associativity).

(** [try: m except Exception as e: h e] *)
Definition try_except {A} (m : M A) (h : exn → M A) : M A :=
  λ w, match m w with
       | (Ok a, w') => (Ok a, w')
       | (Raise e, w') => h e w'
       end.

Definition lift {A} (r : result A) : M A := λ w, (r, w).

Definition tick : M unit :=
  λ w, match faults w with
       | [] => (Ok (), w)
       | b :: rest =>
           (if b then Raise OSError else Ok (), set_faults (λ _, rest) w)
       end.

Definition print (m : message) : M unit :=
  λ w, (Ok (), set_stderr (λ log, log ++ [m]) w).

(** *** Temporary files *)

(** [tempfile.mkstemp]: a new empty file under a name not in use. *)
Definition mkstemp (in_temp_dir : bool) : M nat :=
  tick ;;;
  λ w, let path := fresh (dom (temps w)) in
       (Ok path,
        set_tempdir (λ d, if in_temp_dir then {[path]} ∪ d else d)
          (set_temps (insert path []) w)).

(** [os.path.getsize] *)
Definition getsize (path : nat) : M Z :=
  tick ;;;
  λ w, match temps w !! path with
       | Some content => (Ok (Z.of_nat (length content)), w)
       | None => (Raise OSError, w)
       end.

(** [open(path, 'rb')]: the handle is the part of the file not yet read. *)
Definition open_rb (path : nat) : M bytes :=
  tick ;;;
  λ w, match temps w !! path with
       | Some content => (Ok content, w)
       | None => (Raise OSError, w)
       end.

(** [open(path, 'wb')]: the file is created, or emptied if it exists. *)
Definition open_wb (path : nat) : M unit :=
  tick ;;; λ w, (Ok (), set_temps (insert path []) w).

(** [f.read(n)]: the bytes read and the handle after the call. *)
Definition read (n : nat) (f : bytes) : M (bytes * bytes) :=
  tick ;;; ret (take n f, drop n f).

(** [f.write(data)] on a file opened for writing: appends. *)
Definition write (path : nat) (data : bytes) : M unit :=
  tick ;;;
  λ w, match temps w !! path with
       | Some content => (Ok (), set_temps (insert path (content ++ data)) w)
       | None => (Raise OSError, w)
       end.

(** [os.unlink] *)
Definition unlink (path : nat) : M unit :=
  tick ;;;
  λ w, match temps w !! path with
       | Some _ => (Ok (), set_temps (delete path) w)
       | None => (Raise OSError, w)
       end.

(** [with tempfile.TemporaryDirectory() as temp_dir: body]: the directory
    and the files in it are removed on every exit path. *)
Definition with_temporary_directory {A} (body : M A) : M A :=
  tick ;;;
  λ w, let '(r, w') := body w in
       (r, set_tempdir (λ _, ∅)
             (set_temps (filter (λ kv, kv.1 ∉ tempdir w')) w')).

(** *** Files named by the caller *)

(** [os.path.exists] *)
Definition path_exists (path : string) : M bool :=
  λ w, (Ok (bool_decide (is_Some (files w !! path))), w).

Definition getsize_text (path : string) : M Z :=
  tick ;;;
  λ w, match files w !! path with
       | Some content => (Ok (Z.of_nat (length content)), w)
       | None => (Raise OSError, w)
       end.

(** [open(path, 'rb')] followed by [mmap.mmap(f.fileno(), 0, ...)]: an empty
    file cannot be mapped. *)
Definition open_mmap (path : string) : M text :=
  tick ;;;
  λ w, match files w !! path with
       | Some [] => (Raise ValueError, w)
       | Some content => (Ok content, w)
       | None => (Raise OSError, w)
       end.

(** [with open(path, 'w') as f: f.write(s)] *)
Definition write_text (path : string) (s : text) : M unit :=
  tick ;;; λ w, (Ok (), set_files (insert path s) w).

(** ** Constants *)

Definition IPV6_BYTES_LEN : nat := 16.
Definition TARGET_PARTITION_SIZE : Z := 64 * 1024 * 1024.

(** ** [FastHasher] *)

Module FastHasher.

Definition hash_bytes (data : bytes) : Z :=
  let fnv_prime := 0x01000193 in
  foldl (λ hash_val byte,
           Z.land (Z.lxor hash_val byte * fnv_prime) 0xffffffff)
        0x811c9dc5 data.

Definition get_partition (data : bytes) (num_partitions : nat) : nat :=
  Z.to_nat (hash_bytes data mod Z.of_nat num_partitions).

End FastHasher.

(** ** [PartitionWriter] *)

Module PartitionWriter.

(** The writer is the list of its files, in partition order. *)
Abbreviation t := (list nat).

Fixpoint init (num_partitions : nat) : M t :=
  match num_partitions with
  | O => ret []
  | S n =>
      let* path := mkstemp true in
      open_wb path ;;;
      let* rest := init n in
      ret (path :: rest)
  end.

Definition write (self : t) (partition : nat) (data : bytes) : M unit :=
  match self !! partition with
  | Some path => write path data
  | None => raise IndexError
  end.

(** [close]: the files are closed one after the other; closing flushes what
    is still buffered, and may fail as any operation on a file. *)
Fixpoint close (self : t) : M unit :=
  match self with
  | [] => ret ()
  | _ :: rest => tick ;;; close rest
  end.

Definition get_paths (self : t) : list nat := self.

End PartitionWriter.

(** ** [PartitionProcessor] *)

Module PartitionProcessor.

Definition is_empty (chunk : bytes) : bool :=
  match chunk with [] => true | _ => false end.

(** The reading loop of [_count_unique_in_memory]; [fuel] bounds the
    number of iterations. *)
Fixpoint read_records (fuel : nat) (f : bytes) : M (list bytes) :=
  match fuel with
  | O => raise OutOfFuel
  | S fuel' =>
      let* (chunk, f') := read IPV6_BYTES_LEN f in
      if is_empty chunk then ret []
      else
        let* records := read_records fuel' f' in
        ret (chunk :: records)
  end.

(** The counting loop: one more for each record that differs from [prev]. *)
Fixpoint count_changes (prev : option bytes) (unique_count : nat)
    (records : list bytes) : nat :=
  match records with
  | [] => unique_count
  | record :: rest =>
      if bool_decide (Some record ≠ prev)
      then count_changes (Some record) (S unique_count) rest
      else count_changes prev unique_count rest
  end.

Definition _count_unique_in_memory (partition_path : nat) : M nat :=
  let* f := open_rb partition_path in
  let* records := read_records (S (length f)) f in
  let records := sort_records records in
  ret (count_changes None 0 records).

(** The inner loop of phase 1: at most [n] records of one block. *)
Fixpoint read_block (n : nat) (f : bytes) : M (list bytes * bytes) :=
  match n with
  | O => ret ([], f)
  | S n' =>
      let* (record, f') := read IPV6_BYTES_LEN f in
      if is_empty record then ret ([], f')
      else
        let* (block, f'') := read_block n' f' in
        ret (record :: block, f'')
  end.

Fixpoint write_records (path : nat) (block : list bytes) : M unit :=
  match block with
  | [] => ret ()
  | record :: rest => write path record ;;; write_records path rest
  end.

(** Phase 1: sorted blocks, each in a temporary file of its own. *)
Fixpoint split_blocks (fuel : nat) (records_per_block : nat) (f : bytes)
    : M (list nat) :=
  match fuel with
  | O => raise OutOfFuel
  | S fuel' =>
      let* (block, f') := read_block records_per_block f in
      if bool_decide (block = []) then ret []
      else
        let block := sort_records block in
        let* temp_path := mkstemp false in
        write_records temp_path block ;;;
        let* temp_files := split_blocks fuel' records_per_block f' in
        ret (temp_path :: temp_files)
  end.

(** Phase 2, opening: the first record of each block enters the heap. *)
Fixpoint open_blocks (temp_files : list nat) (heap : list entry)
    (file_handles : list bytes) : M (list entry * list bytes) :=
  match temp_files with
  | [] => ret (heap, file_handles)
  | temp_path :: rest =>
      let* f := open_rb temp_path in
      let file_idx := length file_handles in
      let* (first_record, f') := read IPV6_BYTES_LEN f in
      let file_handles := file_handles ++ [f'] in
      let heap :=
        if is_empty first_record then heap
        else heappush heap (first_record, file_idx) in
      open_blocks rest heap file_handles
  end.

(** Phase 2, merging into the result file. *)
Fixpoint merge_blocks (fuel : nat) (result_path : nat) (heap : list entry)
    (file_handles : list bytes) : M unit :=
  match fuel with
  | O => raise OutOfFuel
  | S fuel' =>
      match heappop heap with
      | None => ret ()
      | Some ((record, file_idx), heap) =>
          write result_path record ;;;
          match file_handles !! file_idx with
          | None => raise IndexError
          | Some f =>
              let* (next_record, f') := read IPV6_BYTES_LEN f in
              let file_handles := <[file_idx := f']> file_handles in
              let heap :=
                if is_empty next_record then heap
                else heappush heap (next_record, file_idx) in
              merge_blocks fuel' result_path heap file_handles
          end
      end
  end.

Fixpoint unlink_all (paths : list nat) : M unit :=
  match paths with
  | [] => ret ()
  | path :: rest => unlink path ;;; unlink_all rest
  end.

Definition pending (heap : list entry) (file_handles : list bytes) : nat :=
  length heap + sum_list (length <$> file_handles).

Definition _external_sort_blocks (records_per_block : nat) (input_path : nat)
    : M nat :=
  let* f := open_rb input_path in
  let* temp_files := split_blocks (S (length f)) records_per_block f in
  let* result_path := mkstemp false in
  let* (heap, file_handles) := open_blocks temp_files [] [] in
  merge_blocks (S (pending heap file_handles)) result_path heap file_handles ;;;
  unlink_all temp_files ;;;
  ret result_path.

Definition block_size : Z := 64 * 1024 * 1024.

Definition records_per_block : nat :=
  Z.to_nat (block_size / Z.of_nat IPV6_BYTES_LEN).

Definition _external_sort (input_path : nat) : M nat :=
  _external_sort_blocks records_per_block input_path.

(** The scan of the sorted file in [_count_unique_external]. *)
Fixpoint scan_sorted (fuel : nat) (f : bytes) (prev : option bytes)
    (unique_count : nat) : M nat :=
  match fuel with
  | O => raise OutOfFuel
  | S fuel' =>
      let* (chunk, f') := read IPV6_BYTES_LEN f in
      if is_empty chunk then ret unique_count
      else if bool_decide (Some chunk ≠ prev)
      then scan_sorted fuel' f' (Some chunk) (S unique_count)
      else scan_sorted fuel' f' prev unique_count
  end.

Definition count_sorted_file (sorted_path : nat) : M nat :=
  let* f := open_rb sorted_path in
  let* unique_count := scan_sorted (S (length f)) f None 0 in
  unlink sorted_path ;;;
  ret unique_count.

Definition _count_unique_external_blocks (records_per_block : nat)
    (partition_path : nat) : M nat :=
  let* sorted_path := _external_sort_blocks records_per_block partition_path in
  count_sorted_file sorted_path.

Definition _count_unique_external (partition_path : nat) : M nat :=
  _count_unique_external_blocks records_per_block partition_path.

Definition count_unique (partition_path : nat) : M nat :=
  let* file_size := getsize partition_path in
  if file_size <=? TARGET_PARTITION_SIZE
  then _count_unique_in_memory partition_path
  else _count_unique_external partition_path.

End PartitionProcessor.

(** ** [IPv6UniqueCounter] *)

Record IPv6UniqueCounter : Type := { memory_limit_mb : Z }.

Module Counter.

Definition _calculate_num_partitions (self : IPv6UniqueCounter)
    (input_path : string) : M nat :=
  let* file_size := getsize_text input_path in
  let avg_line_length := 40 in
  let estimated_records := file_size / avg_line_length in
  let target_records_per_partition :=
    TARGET_PARTITION_SIZE / Z.of_nat IPV6_BYTES_LEN in
  let num_partitions :=
    Z.max 1 (estimated_records / target_records_per_partition) in
  let num_partitions := Z.min num_partitions 256 in
  ret (Z.to_nat num_partitions).

Definition _process_line (self : IPv6UniqueCounter) (line : text)
    (writer : PartitionWriter.t) (num_partitions : nat) : M unit :=
  try_except
    (let* ip_bytes := lift (IPv6Parser.to_canonical_bytes line) in
     let partition := FastHasher.get_partition ip_bytes num_partitions in
     PartitionWriter.write writer partition ip_bytes)
    (λ e, print (MsgLineError line e)).

(** The lines of the mapped file, one after the other. *)
Fixpoint process_lines (self : IPv6UniqueCounter) (lines : list text)
    (writer : PartitionWriter.t) (num_partitions : nat) : M unit :=
  match lines with
  | [] => ret ()
  | raw :: rest =>
      let line := strip raw in
      (if bool_decide (line = []) then ret ()
       else _process_line self line writer num_partitions) ;;;
      process_lines self rest writer num_partitions
  end.

Definition newline : ascii := "010"%char.

(** The mapped file is cut at the line feeds; each piece is decoded as UTF-8
    and stripped.  The texts of the model are within ASCII ([ascii_text]
    below), on which the decoding is the identity and never fails; the
    statements on the lines of an input carry that hypothesis. *)
Definition _distribute_addresses (self : IPv6UniqueCounter)
    (input_path : string) (num_partitions : nat) : M PartitionWriter.t :=
  let* writer := PartitionWriter.init num_partitions in
  let* mm := open_mmap input_path in
  process_lines self (split_char newline mm) writer num_partitions ;;;
  PartitionWriter.close writer ;;;
  ret writer.

Fixpoint collect_counts (task : nat → M nat) (partition_paths : list nat)
    (total_unique : nat) : M nat :=
  match partition_paths with
  | [] => ret total_unique
  | path :: rest =>
      let* total_unique :=
        try_except
          (let* unique_count := task path in
           print (MsgPartitionCount path unique_count) ;;;
           ret (total_unique + unique_count)%nat)
          (λ e, print (MsgPartitionError path e) ;;; ret total_unique) in
      collect_counts task rest total_unique
  end.

(** The tasks are taken in the order of the partitions. *)
Definition _process_partitions (self : IPv6UniqueCounter)
    (partition_paths : list nat) : M nat :=
  collect_counts PartitionProcessor.count_unique partition_paths 0.

Definition count_unique (self : IPv6UniqueCounter)
    (input_path output_path : string) : M unit :=
  with_temporary_directory
    (let* num_partitions := _calculate_num_partitions self input_path in
     print (MsgPartitions num_partitions) ;;;
     let* partition_writer :=
       _distribute_addresses self input_path num_partitions in
     let* total_unique :=
       _process_partitions self (PartitionWriter.get_paths partition_writer) in
     write_text output_path (str (pretty total_unique)) ;;;
     print (MsgTotal total_unique)).

End Counter.

(** [main]: the exit status and the world after the run. *)
Definition main (input_file output_file : string) (memory_limit : Z)
    (w : world) : Z * world :=
  match path_exists input_file w with
  | (Ok true, w1) =>
      let counter := {| memory_limit_mb := memory_limit |} in
      match (Counter.count_unique counter input_file output_file ;;;
             print (MsgSaved output_file)) w1 with
      | (Ok _, w2) => (0, w2)
      | (Raise e, w2) => (1, set_stderr (λ log, log ++ [MsgCritical e]) w2)
      end
  | (_, w1) => (1, set_stderr (λ log, log ++ [MsgMissingInput input_file]) w1)
  end.

(** ** The reference count (from the specification)

    All records held in one exact in-memory set. *)
Definition distinct (records : list bytes) : nat :=
  size (list_to_set records : gset bytes).

(** ** Vocabulary of the statements *)

(** A world in which the environment causes no failure. *)
Definition calm (w : world) : Prop := faults w = [].

(** Records of the fixed length, and the stream that holds them. *)
Definition aligned (records : list bytes) : Prop :=
  Forall (λ r, length r = IPV6_BYTES_LEN) records.

(** The world [w] with [T] as its temporary files. *)
Definition with_temps (T : gmap nat bytes) (w : world) : world :=
  set_temps (λ _, T) w.

(** The blocks that phase 1 of the external sort forms out of the records
    of a stream, and the temporary files that hold them once sorted. *)
Fixpoint blocks_of (fuel n : nat) (records : list bytes) : list (list bytes) :=
  match fuel with
  | O => []
  | S fuel' =>
      if bool_decide (take n records = []) then []
      else take n records :: blocks_of fuel' n (drop n records)
  end.

Fixpoint store_blocks (blocks : list (list bytes)) (T : gmap nat bytes)
    : list nat * gmap nat bytes :=
  match blocks with
  | [] => ([], T)
  | block :: rest =>
      let path := fresh (dom T) in
      let stored :=
        store_blocks rest (<[path := concat (sort_records block)]> T) in
      (path :: stored.1, stored.2)
  end.

Definition entry_le (a b : entry) : Prop := entry_leb a b = true.

(** Phase 2 of the external sort on lists of records: the heap and the
    unread part of each block after the opening, and the sequence of
    records that the merge writes. *)
Fixpoint open_records (blocks : list (list bytes)) (heap : list entry)
    (runs : list (list bytes)) : list entry * list (list bytes) :=
  match blocks with
  | [] => (heap, runs)
  | [] :: rest => open_records rest heap (runs ++ [[]])
  | (first_record :: run) :: rest =>
      open_records rest (heappush heap (first_record, length runs))
        (runs ++ [run])
  end.

Fixpoint merge_records (fuel : nat) (heap : list entry)
    (runs : list (list bytes)) : option (list bytes) :=
  match fuel with
  | O => None
  | S fuel' =>
      match heap with
      | [] => Some []
      | (record, file_idx) :: heap =>
          match runs !! file_idx with
          | None => None
          | Some [] =>
              cons record <$> merge_records fuel' heap (<[file_idx := []]> runs)
          | Some (next_record :: run) =>
              cons record <$>
                merge_records fuel' (heappush heap (next_record, file_idx))
                  (<[file_idx := run]> runs)
          end
      end
  end.

(** What holds of the heap and the blocks between two steps of the merge:
    the heap is ordered, holds at most one record of each block, the record
    it holds of a block precedes the unread records of that block, and a
    block absent from the heap has been read to its end. *)
Record merge_inv (heap : list entry) (runs : list (list bytes)) : Prop := {
  inv_sorted : StronglySorted entry_le heap;
  inv_nodup : NoDup heap.*2;
  inv_head : ∀ r i, (r, i) ∈ heap →
    ∃ run, runs !! i = Some run ∧ StronglySorted bytes_le (r :: run);
  inv_done : ∀ i run, runs !! i = Some run → i ∉ heap.*2 → run = []
}.

(** The keys of the lines that the canonicalizer accepts, in the order of
    the lines. *)
Definition line_key (line : text) : option bytes :=
  match IPv6Parser.to_canonical_bytes line with
  | Ok key => Some key
  | Raise _ => None
  end.

Definition parsed_keys (lines : list text) : list bytes := omap line_key lines.

Definition input_lines (content : text) : list text :=
  split_char Counter.newline content.

(** The keys that land in partition [i] out of [num_partitions]. *)
Definition bucket (num_partitions i : nat) (keys : list bytes) : list bytes :=
  filter (λ key, FastHasher.get_partition key num_partitions = i) keys.

(** The files of the writer hold the buckets of [keys]. *)
Definition holds (writer : PartitionWriter.t) (num_partitions : nat)
    (keys : list bytes) (w : world) : Prop :=
  ∀ i p, writer !! i = Some p →
    temps w !! p = Some (concat (bucket num_partitions i keys)).

(** The inputs that the model covers: text within ASCII. *)
Definition ascii_text (content : text) : Prop :=
  forallb (λ c, code c <? 128) content = true.

(** A file made of the given lines, each ended by a line feed. *)
Definition unlines (lines : list text) : text :=
  concat ((λ line, line ++ [Counter.newline]) <$> lines).

(** ** Textual forms of an address (from the specification)

    An address is a list of eight 16-bit group values.  Its textual forms
    are the expanded form, eight groups of one to four hexadecimal digits of
    either case, and the compressed forms, where one [::] stands for one or
    more consecutive zero groups. *)

Fixpoint hex_val (acc : Z) (s : text) : Z :=
  match s with
  | [] => acc
  | c :: s' => hex_val (16 * acc + default 0 (hex_digit c)) s'
  end.

Definition is_hex (c : ascii) : Prop := is_Some (hex_digit c).

Record group_text (v : Z) (g : text) : Prop := GroupText {
  group_nonempty : g ≠ [];
  group_short : (length g ≤ 4)%nat;
  group_hex : Forall is_hex g;
  group_val : hex_val 0 g = v
}.

Definition sep_tail (ts : list text) : text := concat ((λ g, ":"%char :: g) <$> ts).

(** [':'.join(ts)] *)
Definition join_colon (ts : list text) : text :=
  match ts with
  | [] => []
  | t :: ts' => t ++ sep_tail ts'
  end.

Inductive address_text (gs : list Z) : text → Prop :=
  | expanded_text ts :
      length gs = 8%nat →
      Forall2 group_text gs ts →
      address_text gs (join_colon ts)
  | compressed_text ls rs k tl tr :
      gs = ls ++ replicate k 0 ++ rs →
      length gs = 8%nat →
      (1 ≤ k)%nat →
      Forall2 group_text ls tl →
      Forall2 group_text rs tr →
      address_text gs (join_colon tl ++ str "::" ++ join_colon tr).

(** The canonical key of an address: two bytes per group, big endian. *)
Definition key_of (gs : list Z) : list Z :=
  concat ((λ v, [v / 256; v mod 256]) <$> gs).

(** The well-formed texts are the textual forms of some address. *)
Definition well_formed (t : text) : Prop := ∃ gs, address_text gs t.

(** A test that every well-formed text passes: its groups, as the
    separators delimit them, are one to four hexadecimal digits each. *)
Definition is_group (g : text) : bool :=
  negb (bool_decide (g = [])) && bool_decide (length g ≤ 4)%nat
  && forallb (λ c, bool_decide (is_Some (hex_digit c))) g.

Definition looks_well_formed (t : text) : bool :=
  if has_dcolon t then
    match split_dcolon t with
    | [part0; part1] =>
        forallb is_group (IPv6Parser.groups_of part0)
        && forallb is_group (IPv6Parser.groups_of part1)
    | _ => false
    end
  else
    forallb is_group (split_char ":" t)
    && bool_decide (length (split_char ":" t) = 8%nat).

(** ** Predicates of the proofs *)

(** Groups as [split_char] returns them from a well-formed text. *)
Definition no_colon (g : text) : Prop := Forall (λ c, c ≠ ":"%char) g.

Definition plain_group (g : text) : Prop := g ≠ [] ∧ no_colon g.

Definition no_space (s : text) : Prop := Forall (λ c, is_space c = false) s.

(** Computations that leave the files of the caller as they are ([F]), and
    computations that moreover raise whatever the schedule of failures. *)
Definition keeps (F : gmap string text) {A} (m : M A) : Prop :=
  ∀ w, files w = F → ∃ r w', m w = (r, w') ∧ files w' = F.

Definition doomed (F : gmap string text) {A} (m : M A) : Prop :=
  ∀ w, files w = F → ∃ e w', m w = (Raise e, w') ∧ files w' = F.

(** The world without its schedule of failures, and the computations whose
    successful runs are runs of the calm world as well. *)
Definition quiet (w : world) : world := set_faults (λ _, []) w.

Definition steady {A} (m : M A) : Prop :=
  ∀ w a w', m w = (Ok a, w') → m (quiet w) = (Ok a, quiet w').

(** ** Vocabulary of the further properties *)

(** A group made of hexadecimal digits, of whatever length. *)
Definition hex_group (g : text) : Prop := g ≠ [] ∧ Forall is_hex g.

(** The diagnostic that the ingestion emits for a line, if any. *)
Definition line_report (raw : text) : option message :=
  let line := strip raw in
  if bool_decide (line = []) then None
  else
    match IPv6Parser.to_canonical_bytes line with
    | Ok _ => None
    | Raise e => Some (MsgLineError line e)
    end.

(** What a computation leaves alone: the files [F] of the caller, the
    temporary files [T] that were there before, the temporary directory
    [D] and the diagnostics [L]; [preserves] is the triple of a computation
    that keeps them, whatever its outcome, and establishes [Q] on its
    result. *)
Record kept (F : gmap string text) (T : gmap nat bytes) (D : gset nat)
    (L : list message) (w : world) : Prop := Kept {
  kept_files : files w = F;
  kept_temps : T ⊆ temps w;
  kept_tempdir : tempdir w = D;
  kept_stderr : stderr w = L
}.

Definition preserves (F : gmap string text) (T : gmap nat bytes) (D : gset nat)
    (L : list message) {A} (m : M A) (Q : A → Prop) : Prop :=
  ∀ w r w', kept F T D L w → m w = (r, w') →
    kept F T D L w' ∧ match r with Ok a => Q a | Raise _ => True end.

(** Computations that change nothing but the schedule of failures. *)
Definition reads_only {A} (m : M A) : Prop :=
  ∀ w r w', m w = (r, w') → w' = set_faults (λ _, faults w') w.

(** The files of the writer hold some of the keys of their buckets, in the
    order of the buckets. *)
Definition holds_part (writer : PartitionWriter.t) (num_partitions : nat)
    (keys : list bytes) (w : world) : Prop :=
  ∀ i p, writer !! i = Some p →
    ∃ ks, temps w !! p = Some (concat ks)
          ∧ ks `sublist_of` bucket num_partitions i keys.

(** Partition files that hold complete records, and two orders of the
    partitions on which the counting pass gives one total. *)
Definition countable (T : gmap nat bytes) (ps : list nat) : Prop :=
  Forall (λ p, ∃ rs, T !! p = Some (concat rs) ∧ aligned rs) ps.

Definition same_total (ps ps' : list nat) : Prop :=
  ∀ total w w',
    calm w → calm w' → temps w = temps w' → countable (temps w) ps →
    ∃ n w1 w1',
      Counter.collect_counts PartitionProcessor.count_unique ps total w = (Ok n, w1)
      ∧ Counter.collect_counts PartitionProcessor.count_unique ps' total w'
        = (Ok n, w1')
      ∧ temps w1 = temps w ∧ temps w1' = temps w'.

(** The ASCII characters to which neither the splitting nor [int] gives a
    meaning: all but the hexadecimal digits, the colon, white space, the
    signs, the underscore and the [x] of the prefix. *)
Definition foreign (c : ascii) : bool :=
  (code c <? 128)
  && match hex_digit c with Some _ => false | None => true end
  && negb (is_space c)
  && negb (is_char c ":") && negb (is_char c "+") && negb (is_char c "-")
  && negb (is_char c "_") && negb (is_char c "x") && negb (is_char c "X").

(** ** Vocabulary of the claims on failures *)

(** Phase 2 of the external sort up to the end of the merge: the merged
    file is created, the blocks are opened and merged into it. *)
Definition merge_phase (temp_files : list nat) : M nat :=
  let* result_path := mkstemp false in
  let* (heap, file_handles) := PartitionProcessor.open_blocks temp_files [] [] in
  PartitionProcessor.merge_blocks (S (PartitionProcessor.pending heap file_handles))
    result_path heap file_handles ;;;
  ret result_path.




(** ** Sample data for the evaluations *)

Definition sample_world (content : string) (schedule : list bool) : world :=
  World {[ "in"%string := str content ]} ∅ ∅ [] schedule.

Definition sample_key (n : Z) : bytes := replicate 15 0 ++ [n].

Definition sample_partition (records : list bytes) (schedule : list bool)
    : world :=
  World ∅ {[ 0%nat := concat records ]} ∅ [] schedule.

Definition line_feed : string := String Counter.newline EmptyString.

(** The scenario of the specification: five lines, three addresses. *)
Definition scenario : string :=
  ("2001:db8::1" ++ line_feed
   ++ "2001:0db8:0000:0000:0000:0000:0000:0001" ++ line_feed
   ++ "::1" ++ line_feed ++ "::1" ++ line_feed ++ "fe80::")%string.
(** * Properties *)

(** ** Sample evaluations of the canonicalizer *)

Example canonical_compressed :
  IPv6Parser.to_canonical_bytes (str "2001:db8::1")
  = Ok [32; 1; 13; 184; 0; 0; 0; 0; 0; 0; 0; 0; 0; 0; 0; 1].
Proof. vm_compute. reflexivity. Qed.

Example canonical_expanded :
  IPv6Parser.to_canonical_bytes (str "2001:0db8:0000:0000:0000:0000:0000:0001")
  = Ok [32; 1; 13; 184; 0; 0; 0; 0; 0; 0; 0; 0; 0; 0; 0; 1].
Proof. vm_compute. reflexivity. Qed.

Example canonical_triple_colon :
  IPv6Parser.to_canonical_bytes (str ":::") = Ok (replicate 16 0).
Proof. vm_compute. reflexivity. Qed.

Example canonical_trailing_colon :
  IPv6Parser.to_canonical_bytes (str "1:2:3:4:5:6:7:")
  = Ok [0; 1; 0; 2; 0; 3; 0; 4; 0; 5; 0; 6; 0; 7; 0; 0].
Proof. vm_compute. reflexivity. Qed.

Example canonical_wide_group :
  IPv6Parser.to_canonical_bytes (str "12345:2:3:4:5:6:7:8") = Raise StructError.
Proof. vm_compute. reflexivity. Qed.

Example canonical_two_runs :
  IPv6Parser.to_canonical_bytes (str "1::2::3") = Raise ValueError.
Proof. vm_compute. reflexivity. Qed.


(** ** Characters *)

Ltac all_chars c := destruct c as [[] [] [] [] [] [] [] []].

Lemma hex_not_space c : is_hex c → is_space c = false.
Proof. all_chars c; intros [v Hv]; vm_compute in Hv |- *; congruence. Qed.

Lemma hex_lower c : is_hex c → hex_digit (lower_char c) = hex_digit c.
Proof. all_chars c; intros [v Hv]; vm_compute in Hv |- *; congruence. Qed.

Lemma hex_not_special c :
  is_hex c → c ≠ ":"%char ∧ c ≠ "+"%char ∧ c ≠ "-"%char ∧ c ≠ "_"%char.
Proof.
  intros [v Hv]; repeat split; intros ->; vm_compute in Hv; discriminate.
Qed.

Lemma hex_digit_range c v : hex_digit c = Some v → 0 ≤ v < 16.
Proof.
  unfold hex_digit. repeat case_match; intros; simplify_eq; lia.
Qed.

Lemma is_char_true c d : is_char c d = true ↔ c = d.
Proof. unfold is_char. by rewrite bool_decide_eq_true. Qed.

Lemma is_char_false c d : is_char c d = false ↔ c ≠ d.
Proof. unfold is_char. by rewrite bool_decide_eq_false. Qed.

(** ** Splitting and joining *)

Lemma sep_tail_cons t ts : sep_tail (t :: ts) = ":"%char :: t ++ sep_tail ts.
Proof. done. Qed.

Lemma split_char_join ts g :
  no_colon g → Forall no_colon ts →
  split_char ":" (g ++ sep_tail ts) = g :: ts.
Proof.
  intros Hg Hts. revert g Hg.
  induction Hts as [|t ts Ht Hts IH]; intros g Hg.
  - unfold sep_tail; simpl. rewrite app_nil_r.
    induction Hg as [|c g Hc Hg IHg]; simpl; [done|].
    apply is_char_false in Hc. by rewrite Hc, IHg.
  - unfold sep_tail; simpl. fold (sep_tail ts).
    induction Hg as [|c g Hc Hg IHg]; simpl.
    + by rewrite IH.
    + apply is_char_false in Hc. by rewrite Hc, IHg.
Qed.

Lemma groups_of_join ts :
  Forall plain_group ts → IPv6Parser.groups_of (join_colon ts) = ts.
Proof.
  destruct 1 as [|t ts [Hne Hc] Hts]; [done|].
  simpl. unfold IPv6Parser.groups_of.
  destruct (t ++ sep_tail ts) eqn:E.
  { by destruct t. }
  rewrite <-E. apply split_char_join; [done|].
  eapply Forall_impl; [done|]. by intros ? [].
Qed.

Lemma has_dcolon_cons c s : c ≠ ":"%char → has_dcolon (c :: s) = has_dcolon s.
Proof.
  intros Hc%is_char_false. destruct s as [|d s]; [done|].
  simpl. by rewrite Hc.
Qed.

Lemma has_dcolon_skip g s : no_colon g → has_dcolon (g ++ s) = has_dcolon s.
Proof.
  induction 1 as [|c g Hc Hg IH]; [done|].
  simpl app. by rewrite has_dcolon_cons.
Qed.

Lemma has_dcolon_before c d s :
  d ≠ ":"%char → has_dcolon (c :: d :: s) = has_dcolon (d :: s).
Proof.
  intros Hd%is_char_false.
  change (has_dcolon (c :: d :: s))
    with ((is_char c ":" && is_char d ":") || has_dcolon (d :: s)).
  by rewrite Hd, andb_false_r.
Qed.

Lemma has_dcolon_sep_tail ts s :
  Forall plain_group ts → has_dcolon (sep_tail ts ++ s) = has_dcolon s.
Proof.
  induction 1 as [|t ts [Hne Hc] Hts IH]; [done|].
  rewrite sep_tail_cons.
  destruct t as [|c t]; [done|].
  apply Forall_cons in Hc as [Hc Ht].
  change ((":"%char :: (c :: t) ++ sep_tail ts) ++ s)
    with (":"%char :: c :: (t ++ sep_tail ts) ++ s).
  rewrite has_dcolon_before, has_dcolon_cons by done.
  by rewrite <-app_assoc, has_dcolon_skip.
Qed.

Lemma has_dcolon_join ts s :
  Forall plain_group ts → has_dcolon (join_colon ts ++ s) = has_dcolon s.
Proof.
  destruct 1 as [|t ts [Hne Hc] Hts]; [done|].
  simpl. rewrite <-app_assoc, has_dcolon_skip by done.
  by apply has_dcolon_sep_tail.
Qed.

Lemma has_dcolon_later c s : has_dcolon s = true → has_dcolon (c :: s) = true.
Proof.
  destruct s as [|d s]; [done|]. intros H.
  change (has_dcolon (c :: d :: s))
    with ((is_char c ":" && is_char d ":") || has_dcolon (d :: s)).
  rewrite H. apply orb_true_r.
Qed.

Lemma has_dcolon_found a b : has_dcolon (a ++ str "::" ++ b) = true.
Proof.
  induction a as [|c a IH]; [done|]. by apply has_dcolon_later.
Qed.

Lemma split_dcolon_none s : has_dcolon s = false → split_dcolon s = [s].
Proof.
  induction s as [|c s IH]; [done|].
  destruct s as [|d s]; [done|].
  intros H. change (has_dcolon (c :: d :: s))
    with ((is_char c ":" && is_char d ":") || has_dcolon (d :: s)) in H.
  apply orb_false_elim in H as [H1 H2].
  change (split_dcolon (c :: d :: s)) with
    (if is_char c ":" && is_char d ":" then [] :: split_dcolon s
     else cons_head c (split_dcolon (d :: s))).
  by rewrite H1, IH.
Qed.

Lemma split_dcolon_first a b :
  has_dcolon (a ++ [":"%char]) = false →
  split_dcolon (a ++ str "::" ++ b) = a :: split_dcolon b.
Proof.
  induction a as [|c a IH]; intros H; [done|].
  rewrite <-app_comm_cons in H |- *.
  destruct (a ++ [":"%char]) as [|d r] eqn:E; [by destruct a|].
  change (has_dcolon (c :: d :: r))
    with ((is_char c ":" && is_char d ":") || has_dcolon (d :: r)) in H.
  apply orb_false_elim in H as [H1 H2].
  assert (∃ r', a ++ str "::" ++ b = d :: r') as [r' E'].
  { destruct a as [|d' a]; simplify_eq/=; eauto. }
  rewrite E'.
  change (split_dcolon (c :: d :: r')) with
    (if is_char c ":" && is_char d ":" then [] :: split_dcolon r'
     else cons_head c (split_dcolon (d :: r'))).
  by rewrite H1, <-E', IH.
Qed.

(** ** Group values *)

Lemma int_digits_hex acc s :
  Forall is_hex s → int_digits acc s = Some (hex_val acc s).
Proof.
  intros Hs. revert acc.
  induction Hs as [|c s Hc Hs IH]; intros acc; [done|].
  destruct (hex_not_special c Hc) as (_ & _ & _ & Hu).
  apply is_char_false in Hu. destruct Hc as [v Hv].
  simpl. by rewrite Hu, Hv, IH.
Qed.

Lemma hex_val_bound acc s :
  Forall is_hex s → 0 ≤ acc →
  0 ≤ hex_val acc s < (acc + 1) * 16 ^ Z.of_nat (length s).
Proof.
  intros Hs. revert acc.
  induction Hs as [|c s [v Hv] Hs IH]; intros acc Hacc.
  - simpl. lia.
  - pose proof (hex_digit_range _ _ Hv) as Hr.
    cbn [hex_val length]. rewrite Hv. simpl default.
    specialize (IH (16 * acc + v) ltac:(lia)).
    rewrite Nat2Z.inj_succ, Z.pow_succ_r by lia. nia.
Qed.

Lemma hex_val_lstrip g : hex_val 0 (lstrip_char "0" g) = hex_val 0 g.
Proof.
  induction g as [|c g IH]; [done|].
  simpl. destruct (is_char c "0") eqn:E; [|done].
  apply is_char_true in E as ->. by rewrite IH.
Qed.

Lemma lstrip_char_hex g : Forall is_hex g → Forall is_hex (lstrip_char "0" g).
Proof.
  induction 1 as [|c g Hc Hg IH]; [done|].
  simpl. destruct (is_char c "0"); [done|by constructor].
Qed.

Lemma lstrip_char_head g c r : lstrip_char "0" g = c :: r → c ≠ "0"%char.
Proof.
  induction g as [|d g IH]; [done|].
  simpl. destruct (is_char d "0") eqn:E; [done|].
  intros [= -> ->]. by apply is_char_false.
Qed.

Lemma strip_id s : Forall (λ c, is_space c = false) s → strip s = s.
Proof.
  intros Hs. unfold strip.
  assert (∀ r, Forall (λ c, is_space c = false) r → lstrip_space r = r) as Hl.
  { intros r [|c r' Hc _]; [done|]. simpl. by rewrite Hc. }
  rewrite (Hl s Hs), Hl by by apply Forall_reverse.
  apply reverse_involutive.
Qed.

Lemma int_space_is_space c : is_space c = false → is_int_space c = false.
Proof. all_chars c; vm_compute; congruence. Qed.

Lemma strip_int_space_id s :
  Forall (λ c, is_int_space c = false) s → strip_int_space s = s.
Proof.
  intros Hs. unfold strip_int_space.
  assert (∀ r, Forall (λ c, is_int_space c = false) r → lstrip_int_space r = r)
    as Hl.
  { intros r [|c r' Hc _]; [done|]. simpl. by rewrite Hc. }
  rewrite (Hl s Hs), Hl by by apply Forall_reverse.
  apply reverse_involutive.
Qed.

Lemma int16_hex c s :
  is_hex c → c ≠ "0"%char → Forall is_hex s →
  int16 (c :: s) = Ok (hex_val 0 (c :: s)).
Proof.
  intros Hc H0 Hs. unfold int16.
  rewrite strip_int_space_id.
  2:{ constructor; [by apply int_space_is_space, hex_not_space|].
      eapply Forall_impl; [done|]. intros d Hd.
      by apply int_space_is_space, hex_not_space. }
  destruct (hex_not_special c Hc) as (_ & Hp & Hm & _).
  apply is_char_false in Hp, Hm, H0.
  unfold int_sign. rewrite Hp, Hm.
  assert (int_prefix (c :: s) = c :: s) as ->.
  { unfold int_prefix. destruct s; [done|]. by rewrite H0. }
  destruct Hc as [v Hv]. rewrite Hv, int_digits_hex by done.
  simpl hex_val. rewrite Hv. cbn [default from_option id].
  by rewrite Z.mul_1_l.
Qed.

Lemma group_value_text v g : group_text v g → IPv6Parser.group_value g = Ok v.
Proof.
  intros [Hne _ Hhex <-]. unfold IPv6Parser.group_value.
  rewrite (bool_decide_eq_false_2 _ Hne). simpl.
  case_bool_decide as E; [by subst|].
  destruct (lstrip_char "0" g) as [|c r] eqn:El.
  - rewrite <-hex_val_lstrip, El. reflexivity.
  - rewrite <-hex_val_lstrip, El.
    pose proof (lstrip_char_hex g Hhex) as Hh. rewrite El in Hh.
    apply Forall_cons in Hh as [Hc Hr].
    apply int16_hex; eauto using lstrip_char_head.
Qed.

Lemma group_text_range v g : group_text v g → 0 ≤ v < 65536.
Proof.
  intros [_ Hlen Hhex <-].
  pose proof (hex_val_bound 0 g Hhex ltac:(lia)) as Hb.
  assert (16 ^ Z.of_nat (length g) ≤ 16 ^ 4) by (apply Z.pow_le_mono_r; lia).
  lia.
Qed.

Lemma pack_H_range v : 0 ≤ v < 65536 → pack_H v = Ok [v / 256; v mod 256].
Proof.
  intros Hv. unfold pack_H.
  destruct (Z.leb_spec 0 v), (Z.leb_spec v 65535); try lia. done.
Qed.

Lemma groups_to_bytes_text vs ts :
  Forall2 group_text vs ts → IPv6Parser._groups_to_bytes ts = Ok (key_of vs).
Proof.
  induction 1 as [|v t vs ts Hvt Hrest IH]; [done|].
  cbn [IPv6Parser._groups_to_bytes].
  rewrite (group_value_text v t Hvt). cbn [rbind].
  rewrite pack_H_range by eauto using group_text_range.
  cbn [rbind]. rewrite IH. done.
Qed.

Lemma zero_group_text : group_text 0 (str "0").
Proof. split; [done|simpl; lia| |done]. repeat constructor; by eexists. Qed.

Lemma key_of_length gs : length (key_of gs) = (2 * length gs)%nat.
Proof.
  unfold key_of. induction gs as [|v gs IH]; [done|].
  rewrite fmap_cons. cbn [concat]. rewrite length_app, IH. simpl. lia.
Qed.

(** ** Letter case and white space *)

Lemma hex_val_lower acc g : Forall is_hex g → hex_val acc (lower g) = hex_val acc g.
Proof.
  intros Hg. revert acc. induction Hg as [|c g Hc Hg IH]; intros acc; [done|].
  unfold lower in *. rewrite fmap_cons. cbn [hex_val].
  by rewrite hex_lower, IH.
Qed.

Lemma group_text_lower v g : group_text v g → group_text v (lower g).
Proof.
  intros [Hne Hlen Hhex Hval]. split.
  - by destruct g.
  - unfold lower. by rewrite length_fmap.
  - unfold lower. apply Forall_fmap. eapply Forall_impl; [done|].
    intros c Hc. unfold is_hex, compose. by rewrite hex_lower.
  - by rewrite hex_val_lower.
Qed.

Lemma lower_sep_tail ts : lower (sep_tail ts) = sep_tail (lower <$> ts).
Proof.
  induction ts as [|t ts IH]; [done|].
  rewrite fmap_cons, !sep_tail_cons. unfold lower in *.
  by rewrite fmap_cons, fmap_app, IH.
Qed.

Lemma lower_join ts : lower (join_colon ts) = join_colon (lower <$> ts).
Proof.
  destruct ts as [|t ts]; [done|].
  rewrite fmap_cons. cbn [join_colon]. rewrite <-lower_sep_tail.
  unfold lower. by rewrite fmap_app.
Qed.

Lemma group_texts_lower vs ts :
  Forall2 group_text vs ts → Forall2 group_text vs (lower <$> ts).
Proof.
  intros H. apply Forall2_fmap_r.
  eapply Forall2_impl; [done|]. apply group_text_lower.
Qed.

Lemma address_text_lower gs t : address_text gs t → address_text gs (lower t).
Proof.
  destruct 1 as [ts Hlen Hts|ls rs k tl tr Hgs Hlen Hk Hl Hr].
  - rewrite lower_join. constructor; auto using group_texts_lower.
  - unfold lower. rewrite !fmap_app. fold (lower (join_colon tl)).
    fold (lower (join_colon tr)). rewrite !lower_join.
    change (lower_char <$> str "::") with (str "::").
    econstructor; eauto using group_texts_lower.
Qed.

Lemma group_text_plain v g : group_text v g → plain_group g.
Proof.
  intros [Hne _ Hhex _]. split; [done|].
  eapply Forall_impl; [done|]. intros c Hc. by apply hex_not_special.
Qed.

Lemma group_texts_plain vs ts : Forall2 group_text vs ts → Forall plain_group ts.
Proof. induction 1; constructor; eauto using group_text_plain. Qed.

Lemma join_no_space vs ts : Forall2 group_text vs ts → no_space (join_colon ts).
Proof.
  assert (∀ v g, group_text v g → no_space g) as Hg.
  { intros v g [_ _ Hhex _]. eapply Forall_impl; [done|]. apply hex_not_space. }
  assert (∀ vs ts, Forall2 group_text vs ts → no_space (sep_tail ts)) as Ht.
  { induction 1 as [|v g vs' ts' Hvg _ IH]; [constructor|].
    rewrite sep_tail_cons.
    constructor; [done|]. apply Forall_app; split; [by eapply Hg|done]. }
  destruct 1 as [|v g vs' ts' Hvg Hrest]; [constructor|].
  apply Forall_app; split; [by eapply Hg|by eapply Ht].
Qed.

Lemma address_text_no_space gs t : address_text gs t → no_space t.
Proof.
  destruct 1 as [ts Hlen Hts|ls rs k tl tr Hgs Hlen Hk Hl Hr].
  - by eapply join_no_space.
  - apply Forall_app; split; [by eapply join_no_space|].
    apply Forall_app; split; [by repeat constructor|by eapply join_no_space].
Qed.

(** ** Every textual form of an address yields its key *)

Lemma expanded_canonical gs ts :
  length gs = 8%nat → Forall2 group_text gs ts →
  (if has_dcolon (join_colon ts)
   then IPv6Parser._expand_compressed (join_colon ts)
   else
     let groups := split_char ":" (join_colon ts) in
     if bool_decide (length groups ≠ 8%nat) then Raise ValueError
     else IPv6Parser._groups_to_bytes groups) = Ok (key_of gs).
Proof.
  intros Hlen Hts.
  pose proof (group_texts_plain _ _ Hts) as Hp.
  pose proof (has_dcolon_join ts [] Hp) as Hd. rewrite app_nil_r in Hd.
  rewrite Hd. cbn zeta.
  assert (split_char ":" (join_colon ts) = ts) as ->.
  { pose proof (Forall2_length _ _ _ Hts) as Hn. rewrite Hlen in Hn.
    destruct Hp as [|t ts' [_ Ht] Hp]; [done|].
    apply split_char_join; [done|]. eapply Forall_impl; [done|]. by intros ? []. }
  rewrite <-(Forall2_length _ _ _ Hts), Hlen.
  rewrite bool_decide_eq_false_2 by (intros ?; done).
  by apply groups_to_bytes_text.
Qed.

Lemma compressed_canonical ls rs k tl tr :
  length (ls ++ replicate k 0 ++ rs) = 8%nat →
  Forall2 group_text ls tl → Forall2 group_text rs tr →
  IPv6Parser._expand_compressed (join_colon tl ++ str "::" ++ join_colon tr)
  = Ok (key_of (ls ++ replicate k 0 ++ rs)).
Proof.
  intros Hlen Hl Hr.
  pose proof (group_texts_plain _ _ Hl) as Hpl.
  pose proof (group_texts_plain _ _ Hr) as Hpr.
  unfold IPv6Parser._expand_compressed.
  rewrite split_dcolon_first by by rewrite has_dcolon_join.
  rewrite split_dcolon_none.
  2:{ rewrite <-(app_nil_r (join_colon tr)). by rewrite has_dcolon_join. }
  rewrite !groups_of_join by done. cbn zeta.
  rewrite !length_app, length_replicate in Hlen.
  rewrite <-(Forall2_length _ _ _ Hl), <-(Forall2_length _ _ _ Hr).
  destruct (Z.ltb_spec (8 - Z.of_nat (length ls) - Z.of_nat (length rs)) 0);
    [lia|].
  replace (Z.to_nat (8 - Z.of_nat (length ls) - Z.of_nat (length rs)))
    with k by lia.
  apply groups_to_bytes_text.
  apply Forall2_app; [done|]. apply Forall2_app; [|done].
  apply Forall2_replicate. apply zero_group_text.
Qed.

Lemma canonical_of_text gs t :
  address_text gs t → IPv6Parser.to_canonical_bytes t = Ok (key_of gs).
Proof.
  intros Ht. unfold IPv6Parser.to_canonical_bytes. cbn zeta.
  apply address_text_lower in Ht.
  rewrite strip_id by by eapply address_text_no_space.
  destruct Ht as [ts Hlen Hts|ls rs k tl tr -> Hlen Hk Hl Hr].
  - by apply expanded_canonical.
  - rewrite has_dcolon_found. by apply compressed_canonical.
Qed.

(** ** The order on records *)

Lemma bytes_leb_refl a : bytes_leb a a = true.
Proof.
  induction a as [|x a IH]; [done|]. simpl.
  destruct (Z.ltb_spec x x); [lia|done].
Qed.

Lemma bytes_leb_total a b : bytes_leb a b = true ∨ bytes_leb b a = true.
Proof.
  revert b. induction a as [|x a IH]; intros [|y b]; simpl; auto.
  destruct (Z.ltb_spec x y), (Z.ltb_spec y x); auto; lia.
Qed.

Lemma bytes_leb_trans a b c :
  bytes_leb a b = true → bytes_leb b c = true → bytes_leb a c = true.
Proof.
  revert b c. induction a as [|x a IH]; intros [|y b] [|z c]; simpl; try done.
  destruct (Z.ltb_spec x y), (Z.ltb_spec y x), (Z.ltb_spec y z),
    (Z.ltb_spec z y), (Z.ltb_spec x z), (Z.ltb_spec z x);
    try done; try lia; eauto.
Qed.

Lemma bytes_leb_antisym a b :
  bytes_leb a b = true → bytes_leb b a = true → a = b.
Proof.
  revert b. induction a as [|x a IH]; intros [|y b]; simpl; try done.
  destruct (Z.ltb_spec x y), (Z.ltb_spec y x); try done; try lia.
  intros. f_equal; [lia|eauto].
Qed.

Global Instance bytes_le_refl : Reflexive bytes_le.
Proof. intros a. apply bytes_leb_refl. Qed.

Global Instance bytes_le_total : Total bytes_le.
Proof. intros a b. apply bytes_leb_total. Qed.

Global Instance bytes_le_trans : Transitive bytes_le.
Proof. intros a b c. apply bytes_leb_trans. Qed.

Global Instance bytes_le_antisym : AntiSymm (=) bytes_le.
Proof. intros a b. apply bytes_leb_antisym. Qed.

(** ** Counting the changes of a sorted list *)

Lemma distinct_perm l1 l2 : l1 ≡ₚ l2 → distinct l1 = distinct l2.
Proof. intros H. unfold distinct. by rewrite H. Qed.

Lemma count_changes_shift prev n l :
  PartitionProcessor.count_changes prev n l
  = (n + PartitionProcessor.count_changes prev 0 l)%nat.
Proof.
  revert prev n. induction l as [|x l IH]; intros prev n; simpl; [lia|].
  case_bool_decide.
  - rewrite (IH _ (S n)), (IH _ 1%nat). lia.
  - apply IH.
Qed.

Lemma count_changes_after p l :
  StronglySorted bytes_le (p :: l) →
  S (PartitionProcessor.count_changes (Some p) 0 l) = distinct (p :: l).
Proof.
  revert p. induction l as [|x l IH]; intros p Hs.
  - unfold distinct.
    by rewrite list_to_set_cons, list_to_set_nil, union_empty_r_L, size_singleton.
  - apply StronglySorted_cons in Hs as [Hp Hs].
    apply Forall_cons in Hp as [Hpx Hpl].
    cbn [PartitionProcessor.count_changes]. case_bool_decide as E.
    + rewrite count_changes_shift, IH by done.
      unfold distinct. rewrite (list_to_set_cons p).
      rewrite size_union, size_singleton; [done|].
      apply disjoint_singleton_l. rewrite elem_of_list_to_set.
      apply StronglySorted_cons in Hs as [Hx _].
      intros [->|Hin]%elem_of_cons; [done|].
      rewrite Forall_forall in Hx. specialize (Hx _ Hin).
      assert (x = p) by by apply (anti_symm bytes_le). by subst.
    + assert (x = p) as -> by congruence.
      rewrite IH.
      2:{ apply StronglySorted_cons. split; [done|].
          by apply StronglySorted_cons in Hs as [_ ?]. }
      unfold distinct. rewrite (list_to_set_cons p (p :: l)).
      rewrite list_to_set_cons. by rewrite (assoc_L (∪)), (idemp_L (∪)).
Qed.

Lemma count_changes_sorted l :
  StronglySorted bytes_le l →
  PartitionProcessor.count_changes None 0 l = distinct l.
Proof.
  destruct l as [|x l]; [done|]. intros Hs.
  cbn [PartitionProcessor.count_changes].
  rewrite bool_decide_eq_true_2 by done.
  rewrite count_changes_shift. by apply count_changes_after.
Qed.

Lemma sort_records_sorted l : StronglySorted bytes_le (sort_records l).
Proof. apply StronglySorted_merge_sort; apply _. Qed.

Lemma sort_records_perm l : sort_records l ≡ₚ l.
Proof. apply merge_sort_Permutation. Qed.

Lemma count_changes_sort l :
  PartitionProcessor.count_changes None 0 (sort_records l) = distinct l.
Proof.
  rewrite count_changes_sorted by apply sort_records_sorted.
  apply distinct_perm, sort_records_perm.
Qed.

(** ** Running computations in a calm world *)

Lemma bind_ok {A B} (m : M A) (k : A → M B) w a w' :
  m w = (Ok a, w') → bind m k w = k a w'.
Proof. unfold bind. by intros ->. Qed.

Lemma bind_raise {A B} (m : M A) (k : A → M B) w e w' :
  m w = (Raise e, w') → bind m k w = (Raise e, w').
Proof. unfold bind. by intros ->. Qed.

Lemma try_except_ok {A} (m : M A) h w a w' :
  m w = (Ok a, w') → try_except m h w = (Ok a, w').
Proof. unfold try_except. by intros ->. Qed.

Lemma try_except_raise {A} (m : M A) h w e w' :
  m w = (Raise e, w') → try_except m h w = h e w'.
Proof. unfold try_except. by intros ->. Qed.

Lemma tick_calm w : calm w → tick w = (Ok (), w).
Proof. unfold calm, tick. by intros ->. Qed.

Lemma read_calm n f w : calm w → read n f w = (Ok (take n f, drop n f), w).
Proof. intros Hw. unfold read. by rewrite (bind_ok _ _ _ _ _ (tick_calm w Hw)). Qed.

Lemma open_rb_calm path content w :
  calm w → temps w !! path = Some content → open_rb path w = (Ok content, w).
Proof.
  intros Hw Hp. unfold open_rb.
  rewrite (bind_ok _ _ _ _ _ (tick_calm w Hw)). by rewrite Hp.
Qed.

Lemma getsize_calm path content w :
  calm w → temps w !! path = Some content →
  getsize path w = (Ok (Z.of_nat (length content)), w).
Proof.
  intros Hw Hp. unfold getsize.
  rewrite (bind_ok _ _ _ _ _ (tick_calm w Hw)). by rewrite Hp.
Qed.

Lemma write_calm path content data w :
  calm w → temps w !! path = Some content →
  write path data w
  = (Ok (), with_temps (<[path := content ++ data]> (temps w)) w).
Proof.
  intros Hw Hp. unfold write.
  rewrite (bind_ok _ _ _ _ _ (tick_calm w Hw)). by rewrite Hp.
Qed.

Lemma unlink_calm path content w :
  calm w → temps w !! path = Some content →
  unlink path w = (Ok (), with_temps (delete path (temps w)) w).
Proof.
  intros Hw Hp. unfold unlink.
  rewrite (bind_ok _ _ _ _ _ (tick_calm w Hw)). by rewrite Hp.
Qed.

Lemma mkstemp_calm in_dir w :
  calm w →
  mkstemp in_dir w =
    (Ok (fresh (dom (temps w))),
     set_tempdir (λ d, if in_dir then {[fresh (dom (temps w))]} ∪ d else d)
       (with_temps (<[fresh (dom (temps w)) := []]> (temps w)) w)).
Proof.
  intros Hw. unfold mkstemp.
  by rewrite (bind_ok _ _ _ _ _ (tick_calm w Hw)).
Qed.

Lemma open_wb_calm path w :
  calm w →
  open_wb path w = (Ok (), with_temps (<[path := []]> (temps w)) w).
Proof.
  intros Hw. unfold open_wb. by rewrite (bind_ok _ _ _ _ _ (tick_calm w Hw)).
Qed.

Lemma fresh_temp_None w : temps w !! fresh (dom (temps w)) = None.
Proof. apply not_elem_of_dom, is_fresh. Qed.

Lemma world_eq w1 w2 :
  files w1 = files w2 → temps w1 = temps w2 → tempdir w1 = tempdir w2 →
  stderr w1 = stderr w2 → faults w1 = faults w2 → w1 = w2.
Proof. destruct w1, w2; simpl; by intros -> -> -> -> ->. Qed.

Lemma with_temps_id w T : temps w = T → with_temps T w = w.
Proof. intros <-. by destruct w. Qed.

Lemma with_temps_twice T1 T2 w : with_temps T2 (with_temps T1 w) = with_temps T2 w.
Proof. done. Qed.

Lemma temps_with_temps T w : temps (with_temps T w) = T.
Proof. done. Qed.

Lemma with_temps_calm T w : calm w → calm (with_temps T w).
Proof. done. Qed.

Lemma mkstemp_plain_calm w :
  calm w →
  mkstemp false w =
    (Ok (fresh (dom (temps w))),
     with_temps (<[fresh (dom (temps w)) := []]> (temps w)) w).
Proof. intros Hw. by rewrite mkstemp_calm. Qed.

(** ** Records in a stream *)

Lemma aligned_cons (r : bytes) (rs : list bytes) :
  aligned (r :: rs) ↔ length r = IPV6_BYTES_LEN ∧ aligned rs.
Proof. unfold aligned. by rewrite Forall_cons. Qed.

Lemma concat_take (r : bytes) (rs : list bytes) :
  length r = IPV6_BYTES_LEN → take IPV6_BYTES_LEN (concat (r :: rs)) = r.
Proof. intros <-. simpl. by rewrite take_app_length. Qed.

Lemma concat_drop (r : bytes) (rs : list bytes) :
  length r = IPV6_BYTES_LEN → drop IPV6_BYTES_LEN (concat (r :: rs)) = concat rs.
Proof. intros <-. simpl. by rewrite drop_app_length. Qed.

Lemma record_not_empty (r : bytes) :
  length r = IPV6_BYTES_LEN → PartitionProcessor.is_empty r = false.
Proof. by destruct r. Qed.

Lemma aligned_concat_length rs :
  aligned rs → length (concat rs) = (IPV6_BYTES_LEN * length rs)%nat.
Proof.
  induction 1 as [|r rs Hr Hrs IH]; [done|].
  simpl concat. rewrite length_app, IH, Hr. simpl. lia.
Qed.

Lemma read_records_calm rs fuel w :
  calm w → aligned rs → (length rs < fuel)%nat →
  PartitionProcessor.read_records fuel (concat rs) w = (Ok rs, w).
Proof.
  intros Hw Hrs. revert fuel.
  induction Hrs as [|r rs Hr Hrs IH]; intros [|fuel] Hf; simpl in Hf; try lia.
  - cbn [PartitionProcessor.read_records].
    by rewrite (bind_ok _ _ _ _ _ (read_calm _ _ w Hw)).
  - cbn [PartitionProcessor.read_records].
    rewrite (bind_ok _ _ _ _ _ (read_calm _ _ w Hw)).
    rewrite concat_take, concat_drop, record_not_empty by done.
    by rewrite (bind_ok _ _ _ _ _ (IH fuel ltac:(lia))).
Qed.

Lemma count_unique_in_memory_calm path rs w :
  calm w → aligned rs → temps w !! path = Some (concat rs) →
  PartitionProcessor._count_unique_in_memory path w = (Ok (distinct rs), w).
Proof.
  intros Hw Hrs Hp. unfold PartitionProcessor._count_unique_in_memory.
  rewrite (bind_ok _ _ _ _ _ (open_rb_calm _ _ w Hw Hp)).
  assert (length rs < S (length (concat rs)))%nat as Hf.
  { rewrite aligned_concat_length by done. unfold IPV6_BYTES_LEN. lia. }
  rewrite (bind_ok _ _ _ _ _ (read_records_calm rs _ w Hw Hrs Hf)).
  by rewrite count_changes_sort.
Qed.

(** ** The external sort, phase 1 *)

Lemma read_block_calm n rs w :
  calm w → aligned rs →
  PartitionProcessor.read_block n (concat rs) w
  = (Ok (take n rs, concat (drop n rs)), w).
Proof.
  intros Hw. revert rs.
  induction n as [|n IH]; intros rs Hrs; [done|].
  cbn [PartitionProcessor.read_block].
  rewrite (bind_ok _ _ _ _ _ (read_calm _ _ w Hw)).
  destruct Hrs as [|r rs Hr Hrs]; [done|].
  rewrite concat_take, concat_drop, record_not_empty by done.
  by rewrite (bind_ok _ _ _ _ _ (IH rs Hrs)).
Qed.

Lemma write_records_calm path content block w :
  calm w → temps w !! path = Some content →
  PartitionProcessor.write_records path block w
  = (Ok (), with_temps (<[path := content ++ concat block]> (temps w)) w).
Proof.
  revert content w. induction block as [|r block IH]; intros content w Hw Hp.
  - simpl. rewrite app_nil_r, insert_id by done. by rewrite with_temps_id.
  - cbn [PartitionProcessor.write_records].
    rewrite (bind_ok _ _ _ _ _ (write_calm _ _ r w Hw Hp)).
    rewrite (IH (content ++ r)); [|done|apply lookup_insert_eq].
    cbn [temps with_temps set_temps concat].
    by rewrite with_temps_twice, insert_insert_eq, <-app_assoc.
Qed.

Lemma split_blocks_calm fuel n rs w :
  calm w → aligned rs → (length rs < fuel)%nat →
  PartitionProcessor.split_blocks fuel n (concat rs) w
  = (Ok (store_blocks (blocks_of fuel n rs) (temps w)).1,
     with_temps (store_blocks (blocks_of fuel n rs) (temps w)).2 w).
Proof.
  revert rs w. induction fuel as [|fuel IH]; intros rs w Hw Hrs Hf; [lia|].
  cbn [PartitionProcessor.split_blocks blocks_of].
  rewrite (bind_ok _ _ _ _ _ (read_block_calm n rs w Hw Hrs)).
  case_bool_decide as E.
  { simpl. by rewrite with_temps_id. }
  rewrite (bind_ok _ _ _ _ _ (mkstemp_plain_calm w Hw)).
  set (p := fresh (dom (temps w))).
  rewrite (bind_ok _ _ _ _ _
    (write_records_calm p [] (sort_records (take n rs)) _ (with_temps_calm _ w Hw)
       (lookup_insert_eq _ _ _))).
  cbn [temps with_temps set_temps]. rewrite insert_insert_eq, app_nil_l.
  assert (length (drop n rs) < fuel)%nat as Hf'.
  { rewrite length_drop. destruct n; [done|]. destruct rs; [done|]. simpl in *. lia. }
  rewrite with_temps_twice.
  rewrite (bind_ok _ _ _ _ _
    (IH (drop n rs) _ (with_temps_calm _ w Hw) (Forall_drop _ _ _ Hrs) Hf')).
  done.
Qed.

Lemma blocks_concat fuel n rs :
  (0 < n)%nat → (length rs < fuel)%nat → concat (blocks_of fuel n rs) = rs.
Proof.
  intros Hn. revert rs. induction fuel as [|fuel IH]; intros rs Hf; [lia|].
  cbn [blocks_of]. case_bool_decide as E.
  - destruct n; [lia|]. by destruct rs.
  - cbn [concat]. rewrite IH, take_drop; [done|].
    rewrite length_drop. destruct rs; [by rewrite take_nil in E|].
    simpl in *. lia.
Qed.

Lemma blocks_aligned fuel n rs :
  aligned rs → Forall aligned (blocks_of fuel n rs).
Proof.
  revert rs. induction fuel as [|fuel IH]; intros rs Hrs; [constructor|].
  cbn [blocks_of]. case_bool_decide; constructor.
  - by apply Forall_take.
  - by apply IH, Forall_drop.
Qed.

Lemma blocks_nonempty fuel n rs : Forall (λ b, b ≠ []) (blocks_of fuel n rs).
Proof.
  revert rs. induction fuel as [|fuel IH]; intros rs; [constructor|].
  cbn [blocks_of]. case_bool_decide; by constructor.
Qed.

Lemma store_blocks_spec blocks T :
  let ps := (store_blocks blocks T).1 in
  let T' := (store_blocks blocks T).2 in
  Forall2 (λ p b, T' !! p = Some (concat (sort_records b))) ps blocks
  ∧ NoDup ps
  ∧ (∀ p, p ∈ ps → T !! p = None)
  ∧ (∀ q, q ∉ ps → T' !! q = T !! q)
  ∧ foldr delete T' ps = T.
Proof.
  revert T. induction blocks as [|b blocks IH]; intros T.
  { simpl. repeat split; [constructor|constructor|by intros ? ?%elem_of_nil]. }
  cbn [store_blocks fst snd]. cbn zeta.
  set (p := fresh (dom T)).
  set (T1 := <[p := concat (sort_records b)]> T).
  destruct (IH T1) as (Hall & Hnd & Hnew & Hold & Hdel).
  assert (T !! p = None) as Hp by apply not_elem_of_dom, is_fresh.
  assert (p ∉ (store_blocks blocks T1).1) as Hnin.
  { intros Hin. apply Hnew in Hin. unfold T1 in Hin.
    by rewrite lookup_insert_eq in Hin. }
  repeat split.
  - constructor; [|done]. rewrite Hold by done. apply lookup_insert_eq.
  - by constructor.
  - intros q [->|Hq]%elem_of_cons; [done|].
    apply Hnew in Hq. unfold T1 in Hq.
    by apply lookup_insert_None in Hq as [? _].
  - intros q [Hqp Hq]%not_elem_of_cons. rewrite Hold by done.
    unfold T1. by rewrite lookup_insert_ne.
  - cbn [foldr]. rewrite Hdel. by apply delete_insert_id.
Qed.

Lemma unlink_all_calm ps w :
  calm w → NoDup ps → Forall (λ p, is_Some (temps w !! p)) ps →
  PartitionProcessor.unlink_all ps w
  = (Ok (), with_temps (foldr delete (temps w) ps) w).
Proof.
  revert w. induction ps as [|p ps IH]; intros w Hw Hnd Hps.
  { simpl. by rewrite with_temps_id. }
  apply NoDup_cons in Hnd as [Hp Hnd].
  apply Forall_cons in Hps as [[c Hc] Hps].
  cbn [PartitionProcessor.unlink_all].
  rewrite (bind_ok _ _ _ _ _ (unlink_calm _ _ w Hw Hc)).
  rewrite IH; [|done|done|].
  - cbn [temps with_temps set_temps foldr].
    by rewrite with_temps_twice, delete_foldr_delete.
  - rewrite Forall_forall in Hps |- *. intros q Hq.
    cbn [temps with_temps set_temps].
    rewrite lookup_delete_ne; [by apply Hps|]. by intros ->.
Qed.

(** ** The heap *)

Lemma entry_leb_total a b : entry_leb a b = true ∨ entry_leb b a = true.
Proof.
  unfold entry_leb. destruct a as [r i], b as [s j]. simpl.
  repeat case_bool_decide; simplify_eq; auto using bytes_leb_total; lia.
Qed.

Lemma entry_le_fst a b : entry_le a b → bytes_le a.1 b.1.
Proof.
  unfold entry_le, entry_leb. case_bool_decide as E; [|done].
  intros _. rewrite E. apply bytes_leb_refl.
Qed.

Lemma entry_leb_trans a b c :
  entry_leb a b = true → entry_leb b c = true → entry_leb a c = true.
Proof.
  unfold entry_leb. destruct a as [r i], b as [s j], c as [t k]. simpl.
  repeat case_bool_decide; simplify_eq; try done; try lia;
    intros Hab Hbc;
    try (pose proof (bytes_leb_antisym _ _ Hab Hbc); by subst);
    eauto using bytes_leb_trans.
Qed.

Global Instance entry_le_total : Total entry_le.
Proof. intros a b. apply entry_leb_total. Qed.

Global Instance entry_le_trans : Transitive entry_le.
Proof. intros a b c. apply entry_leb_trans. Qed.

Lemma heappush_perm heap item : heappush heap item ≡ₚ item :: heap.
Proof.
  induction heap as [|e heap IH]; [done|]. simpl.
  destruct (entry_leb item e); [done|]. by rewrite IH, Permutation_swap.
Qed.

Lemma heappush_sorted heap item :
  StronglySorted entry_le heap → StronglySorted entry_le (heappush heap item).
Proof.
  induction 1 as [|e heap Hs IH He]; simpl.
  { repeat constructor. }
  destruct (entry_leb item e) eqn:E.
  - constructor; [by constructor|]. constructor; [done|].
    eapply Forall_impl; [done|]. intros x Hx. by trans e.
  - constructor; [done|]. rewrite heappush_perm. constructor; [|done].
    destruct (entry_leb_total item e); [congruence|done].
Qed.

(** ** The merge on lists of records *)

Lemma elem_of_concat (x : bytes) (ls : list (list bytes)) :
  x ∈ concat ls ↔ ∃ i l, ls !! i = Some l ∧ x ∈ l.
Proof.
  induction ls as [|l ls IH]; simpl.
  { split; [by intros ?%elem_of_nil|by intros (i & l & ? & _)]. }
  rewrite elem_of_app, IH. split.
  - intros [Hx|(i & l' & Hi & Hx)]; [by exists 0%nat, l|by exists (S i), l'].
  - intros ([|i] & l' & Hi & Hx); simplify_eq/=; eauto.
Qed.

Lemma concat_insert_perm (runs : list (list bytes)) i x run :
  runs !! i = Some (x :: run) → concat runs ≡ₚ x :: concat (<[i := run]> runs).
Proof.
  revert i. induction runs as [|l runs IH]; intros [|i] Hi; simplify_eq/=.
  - done.
  - by rewrite (IH i Hi), Permutation_middle.
Qed.

Lemma concat_all_nil (runs : list (list bytes)) :
  (∀ i run, runs !! i = Some run → run = []) → concat runs = [].
Proof.
  induction runs as [|l runs IH]; intros H; [done|].
  simpl. rewrite (H 0%nat l eq_refl), IH; [done|].
  intros i run Hi. by apply (H (S i)).
Qed.

Lemma heap_min r i heap runs x :
  merge_inv ((r, i) :: heap) runs → x ∈ heap.*1 ++ concat runs → bytes_le r x.
Proof.
  intros [Hs Hnd Hhead Hdone].
  apply StronglySorted_cons in Hs as [Hmin Hs]. rewrite Forall_forall in Hmin.
  assert (∀ s j, (s, j) ∈ (r, i) :: heap → bytes_le r s) as Hle.
  { intros s j [[= -> ->]|Hin]%elem_of_cons; [done|].
    by apply (entry_le_fst (r, i) (s, j)), Hmin. }
  intros [Hx|Hx]%elem_of_app.
  - apply list_elem_of_fmap in Hx as ([s j] & -> & Hin).
    apply (Hle s j). by right.
  - apply elem_of_concat in Hx as (j & run & Hj & Hx).
    destruct (decide (j ∈ ((r, i) :: heap).*2)) as [Hin|Hnin].
    + apply list_elem_of_fmap in Hin as ([s j'] & -> & Hin).
      destruct (Hhead s j' Hin) as (run' & Hj' & Hsorted). simplify_eq/=.
      apply StronglySorted_cons in Hsorted as [Hall _].
      rewrite Forall_forall in Hall. trans s; [by eapply Hle|by apply Hall].
    + rewrite (Hdone j run Hj Hnin) in Hx. by apply elem_of_nil in Hx.
Qed.

Lemma merge_inv_pop_empty r i heap runs :
  merge_inv ((r, i) :: heap) runs → runs !! i = Some [] → merge_inv heap runs.
Proof.
  intros [Hs Hnd Hhead Hdone] Hi. split.
  - by apply StronglySorted_cons in Hs as [_ ?].
  - by apply NoDup_cons in Hnd as [_ ?].
  - intros s j Hin. apply Hhead. by right.
  - intros j run Hj Hnin. destruct (decide (j = i)) as [->|Hne]; [congruence|].
    apply (Hdone j run Hj). rewrite fmap_cons. simpl.
    by intros [?|?]%elem_of_cons.
Qed.

Lemma merge_inv_pop_next r i heap runs next run :
  merge_inv ((r, i) :: heap) runs → runs !! i = Some (next :: run) →
  merge_inv (heappush heap (next, i)) (<[i := run]> runs).
Proof.
  intros [Hs Hnd Hhead Hdone] Hi.
  rewrite fmap_cons in Hnd. apply NoDup_cons in Hnd as [Hni Hnd].
  assert (∀ j, j ∈ (heappush heap (next, i)).*2 ↔ j = i ∨ j ∈ heap.*2) as Hidx.
  { intros j. by rewrite heappush_perm, fmap_cons, elem_of_cons. }
  split.
  - apply heappush_sorted. by apply StronglySorted_cons in Hs as [_ ?].
  - rewrite heappush_perm, fmap_cons. by constructor.
  - intros s j. rewrite heappush_perm. intros [[= -> ->]|Hin]%elem_of_cons.
    + exists run. split.
      * apply list_lookup_insert_eq. by eapply lookup_lt_Some.
      * destruct (Hhead r i) as (run' & Hi' & Hsorted); [by left|].
        simplify_eq. by apply StronglySorted_cons in Hsorted as [_ ?].
    + assert (j ≠ i).
      { intros ->. apply Hni. by apply (list_elem_of_fmap_2 snd _ (s, i)). }
      rewrite list_lookup_insert_ne by done. apply Hhead. by right.
  - intros j run' Hj Hnin. rewrite Hidx in Hnin.
    assert (j ≠ i ∧ j ∉ heap.*2) as [Hji Hjh].
    { split; [intros ->; apply Hnin; by left|intros ?; apply Hnin; by right]. }
    rewrite list_lookup_insert_ne in Hj by done.
    apply (Hdone j run' Hj). rewrite fmap_cons. simpl.
    by intros [?|?]%elem_of_cons.
Qed.

Lemma merge_records_sorted fuel heap runs :
  merge_inv heap runs →
  (length heap + length (concat runs) < fuel)%nat →
  ∃ out, merge_records fuel heap runs = Some out
         ∧ out ≡ₚ heap.*1 ++ concat runs
         ∧ StronglySorted bytes_le out.
Proof.
  revert heap runs.
  induction fuel as [|fuel IH]; intros heap runs Hinv Hf; [lia|].
  destruct heap as [|[r i] heap].
  { exists []. split; [done|].
    rewrite concat_all_nil; [by split; [|constructor]|].
    intros i run Hi. apply (inv_done _ _ Hinv i run Hi).
    by intros ?%elem_of_nil. }
  cbn [merge_records].
  destruct (inv_head _ _ Hinv r i) as (run & Hi & Hsorted); [by left|].
  rewrite Hi.
  assert (∀ out', out' ≡ₚ heap.*1 ++ concat runs →
            StronglySorted bytes_le out' →
            (r :: out') ≡ₚ ((r, i) :: heap).*1 ++ concat runs
            ∧ StronglySorted bytes_le (r :: out')) as Hstep.
  { intros out' Hperm Hs. split; [by rewrite Hperm|].
    constructor; [done|]. apply Forall_forall. intros x Hx.
    rewrite Hperm in Hx. by eapply heap_min. }
  destruct run as [|next run].
  - rewrite list_insert_id by done.
    destruct (IH heap runs) as (out' & -> & Hperm & Hs).
    { by eapply merge_inv_pop_empty. }
    { simpl in Hf. lia. }
    exists (r :: out'). split; [done|]. by apply Hstep.
  - pose proof (concat_insert_perm runs i next run Hi) as Hc.
    destruct (IH (heappush heap (next, i)) (<[i := run]> runs))
      as (out' & -> & Hperm & Hs).
    { by eapply merge_inv_pop_next. }
    { rewrite heappush_perm. apply Permutation_length in Hc.
      simpl in Hf, Hc |- *. lia. }
    exists (r :: out'). split; [done|]. apply Hstep; [|done].
    rewrite Hperm, heappush_perm, fmap_cons, Hc. simpl.
    apply Permutation_middle.
Qed.

Lemma merge_inv_nil : merge_inv [] [].
Proof.
  split; [constructor|constructor|by intros ?? ?%elem_of_nil|].
  by intros i run Hi.
Qed.

Lemma merge_inv_index heap runs s j :
  merge_inv heap runs → (s, j) ∈ heap → (j < length runs)%nat.
Proof.
  intros Hinv Hin. destruct (inv_head _ _ Hinv s j Hin) as (run & Hj & _).
  by eapply lookup_lt_Some.
Qed.

Lemma merge_inv_open_empty heap runs :
  merge_inv heap runs → merge_inv heap (runs ++ [[]]).
Proof.
  intros [Hs Hnd Hhead Hdone]. split; [done|done| |].
  - intros s j Hin. destruct (Hhead s j Hin) as (run & Hj & Hsorted).
    exists run. split; [|done].
    rewrite lookup_app_l; [done|]. by eapply lookup_lt_Some.
  - intros j run Hj Hnin.
    apply lookup_snoc_Some in Hj as [[Hlt Hj]|[-> <-]]; [by eapply Hdone|done].
Qed.

Lemma merge_inv_open heap runs first run :
  merge_inv heap runs → StronglySorted bytes_le (first :: run) →
  merge_inv (heappush heap (first, length runs)) (runs ++ [run]).
Proof.
  intros Hinv Hsorted. pose proof Hinv as [Hs Hnd Hhead Hdone].
  assert (length runs ∉ heap.*2) as Hfresh.
  { intros ([s j] & Heq & Hin)%list_elem_of_fmap.
    pose proof (merge_inv_index _ _ _ _ Hinv Hin). simpl in *. lia. }
  split.
  - by apply heappush_sorted.
  - rewrite heappush_perm, fmap_cons. by constructor.
  - intros s j. rewrite heappush_perm. intros [[= -> ->]|Hin]%elem_of_cons.
    + exists run. split; [|done]. apply list_lookup_middle. done.
    + destruct (Hhead s j Hin) as (run' & Hj & Hsorted').
      exists run'. split; [|done].
      rewrite lookup_app_l; [done|]. by eapply lookup_lt_Some.
  - intros j run' Hj Hnin.
    rewrite heappush_perm, fmap_cons in Hnin.
    apply not_elem_of_cons in Hnin as [Hne Hnin]. simpl in Hne.
    apply lookup_snoc_Some in Hj as [[Hlt Hj]|[-> <-]]; [by eapply Hdone|done].
Qed.

Lemma open_records_inv blocks heap runs :
  merge_inv heap runs → Forall (StronglySorted bytes_le) blocks →
  merge_inv (open_records blocks heap runs).1 (open_records blocks heap runs).2
  ∧ (open_records blocks heap runs).1.*1 ++ concat (open_records blocks heap runs).2
    ≡ₚ heap.*1 ++ concat runs ++ concat blocks.
Proof.
  intros Hinv Hbs. revert heap runs Hinv.
  induction Hbs as [|b blocks Hb Hbs IH]; intros heap runs Hinv.
  { simpl. by rewrite app_nil_r. }
  destruct b as [|first run]; cbn [open_records].
  - destruct (IH heap (runs ++ [[]])) as [Hinv' Hperm].
    { by apply merge_inv_open_empty. }
    split; [done|]. rewrite Hperm, concat_app. simpl. by rewrite !app_nil_r.
  - destruct (IH (heappush heap (first, length runs)) (runs ++ [run]))
      as [Hinv' Hperm].
    { by apply merge_inv_open. }
    split; [done|]. rewrite Hperm, heappush_perm, fmap_cons, concat_app.
    simpl. rewrite app_nil_r, <-!app_assoc.
    rewrite !(app_assoc (heap.*1)). apply Permutation_middle.
Qed.

(** ** The external sort, phase 2 *)

Lemma open_blocks_calm ps blocks heap (runs : list (list bytes)) w :
  calm w →
  Forall2 (λ p b, temps w !! p = Some (concat b)) ps blocks →
  Forall aligned blocks →
  PartitionProcessor.open_blocks ps heap (@concat Z <$> runs) w
  = (Ok ((open_records blocks heap runs).1,
         @concat Z <$> (open_records blocks heap runs).2), w).
Proof.
  intros Hw Hps. revert heap runs.
  induction Hps as [|p b ps blocks Hp Hps IH]; intros heap runs Hal; [done|].
  apply Forall_cons in Hal as [Hb Hal].
  cbn [PartitionProcessor.open_blocks].
  rewrite (bind_ok _ _ _ _ _ (open_rb_calm _ _ w Hw Hp)).
  rewrite (bind_ok _ _ _ _ _ (read_calm _ _ w Hw)).
  destruct Hb as [|first run Hfirst Hrun]; cbn [open_records].
  - simpl take. simpl drop. cbn [PartitionProcessor.is_empty].
    rewrite <-(IH heap (runs ++ [[]]) Hal). by rewrite fmap_app.
  - rewrite concat_take, concat_drop, record_not_empty by done.
    rewrite <-(IH _ (runs ++ [run]) Hal). by rewrite fmap_app, length_fmap.
Qed.

Lemma merge_blocks_calm fuel result heap (runs : list (list bytes)) out content w :
  calm w → Forall aligned runs → temps w !! result = Some content →
  merge_records fuel heap runs = Some out →
  PartitionProcessor.merge_blocks fuel result heap (@concat Z <$> runs) w
  = (Ok (), with_temps (<[result := content ++ concat out]> (temps w)) w).
Proof.
  revert heap runs out content w.
  induction fuel as [|fuel IH]; intros heap runs out content w Hw Hal Hr Hm;
    [done|].
  cbn [PartitionProcessor.merge_blocks merge_records] in Hm |- *.
  destruct heap as [|[record i] heap]; simplify_eq/=.
  { rewrite app_nil_r, insert_id by done. by rewrite with_temps_id. }
  rewrite (bind_ok _ _ _ _ _ (write_calm _ _ record w Hw Hr)).
  rewrite list_lookup_fmap.
  destruct (runs !! i) as [run|] eqn:Hi; [|done]. cbn [fmap option_fmap option_map].
  rewrite (bind_ok _ _ _ _ _ (read_calm _ _ _ (with_temps_calm _ w Hw))).
  assert (aligned run) as Hrun.
  { rewrite Forall_forall in Hal. apply Hal. by eapply list_elem_of_lookup_2. }
  destruct Hrun as [|next run Hnext Hrun].
  - simpl take. simpl drop. cbn [PartitionProcessor.is_empty].
    destruct (merge_records fuel heap (<[i:=[]]> runs)) as [out'|] eqn:Hm';
      simplify_eq/=.
    change (@nil Z) with (concat (@nil bytes)) at 1.
    rewrite <-list_fmap_insert.
    rewrite (IH _ _ out' (content ++ record)); [|done| |apply lookup_insert_eq|done].
    + cbn [temps with_temps set_temps].
      by rewrite with_temps_twice, insert_insert_eq, <-app_assoc.
    + apply Forall_insert; [done|constructor].
  - rewrite concat_take, concat_drop, record_not_empty by done.
    destruct (merge_records fuel _ (<[i:=run]> runs)) as [out'|] eqn:Hm';
      simplify_eq/=.
    rewrite <-list_fmap_insert.
    rewrite (IH _ _ out' (content ++ record)); [|done| |apply lookup_insert_eq|done].
    + cbn [temps with_temps set_temps].
      by rewrite with_temps_twice, insert_insert_eq, <-app_assoc.
    + by apply Forall_insert.
Qed.

Lemma scan_sorted_calm rs fuel prev n w :
  calm w → aligned rs → (length rs < fuel)%nat →
  PartitionProcessor.scan_sorted fuel (concat rs) prev n w
  = (Ok (PartitionProcessor.count_changes prev n rs), w).
Proof.
  intros Hw Hrs. revert fuel prev n.
  induction Hrs as [|r rs Hr Hrs IH]; intros [|fuel] prev n Hf; simpl in Hf;
    try lia; cbn [PartitionProcessor.scan_sorted PartitionProcessor.count_changes];
    rewrite (bind_ok _ _ _ _ _ (read_calm _ _ w Hw)); [done|].
  rewrite concat_take, concat_drop, record_not_empty by done.
  case_bool_decide; apply IH; lia.
Qed.

(** ** The external path as a whole *)

Lemma sort_records_aligned rs : aligned rs → aligned (sort_records rs).
Proof. unfold aligned. by rewrite sort_records_perm. Qed.

Lemma open_records_aligned blocks heap runs :
  Forall aligned blocks → Forall aligned runs →
  Forall aligned (open_records blocks heap runs).2.
Proof.
  intros Hbs. revert heap runs.
  induction Hbs as [|b blocks Hb Hbs IH]; intros heap runs Hruns; [done|].
  destruct Hb as [|first run Hfirst Hrun]; cbn [open_records]; apply IH;
    apply Forall_app; split; try done; by repeat constructor.
Qed.

Lemma concat_sorted_perm (blocks : list (list bytes)) :
  concat (sort_records <$> blocks) ≡ₚ concat blocks.
Proof.
  induction blocks as [|b blocks IH]; [done|].
  rewrite fmap_cons. simpl. by rewrite IH, sort_records_perm.
Qed.

Lemma records_pending heap (runs : list (list bytes)) :
  Forall aligned runs →
  (length heap + length (concat runs)
   < S (PartitionProcessor.pending heap (@concat Z <$> runs)))%nat.
Proof.
  intros Hal. unfold PartitionProcessor.pending.
  enough (length (concat runs)
          ≤ sum_list (length <$> (@concat Z <$> runs)))%nat by lia.
  induction Hal as [|run runs Hrun Hal IH]; [done|].
  rewrite !fmap_cons. simpl. rewrite length_app.
  rewrite (aligned_concat_length run Hrun). unfold IPV6_BYTES_LEN. lia.
Qed.

Lemma stored_present ps (blocks : list (list bytes)) (T : gmap nat bytes) p :
  Forall2 (λ p b, T !! p = Some (concat (sort_records b))) ps blocks →
  p ∈ ps → is_Some (T !! p).
Proof.
  induction 1 as [|q b ps blocks Hq _ IH]; [by intros ?%elem_of_nil|].
  intros [->|Hin]%elem_of_cons; eauto.
Qed.

Lemma external_sort_calm n path rs w :
  calm w → aligned rs → temps w !! path = Some (concat rs) → (0 < n)%nat →
  ∃ result_path,
    temps w !! result_path = None
    ∧ PartitionProcessor._external_sort_blocks n path w
      = (Ok result_path,
         with_temps (<[result_path := concat (sort_records rs)]> (temps w)) w).
Proof.
  intros Hw Hrs Hp Hn. unfold PartitionProcessor._external_sort_blocks.
  rewrite (bind_ok _ _ _ _ _ (open_rb_calm _ _ w Hw Hp)).
  assert (length rs < S (length (concat rs)))%nat as Hf.
  { rewrite aligned_concat_length by done. unfold IPV6_BYTES_LEN. lia. }
  rewrite (bind_ok _ _ _ _ _ (split_blocks_calm _ n rs w Hw Hrs Hf)).
  set (bl := blocks_of (S (length (concat rs))) n rs).
  destruct (store_blocks_spec bl (temps w)) as (Hall & Hnd & Hnew & Hold & Hdel).
  set (ps := (store_blocks bl (temps w)).1) in *.
  set (T1 := (store_blocks bl (temps w)).2) in *.
  rewrite (bind_ok _ _ _ _ _ (mkstemp_plain_calm _ (with_temps_calm T1 w Hw))).
  rewrite temps_with_temps, with_temps_twice.
  set (r := fresh (dom T1)).
  assert (T1 !! r = None) as Hr by apply not_elem_of_dom, is_fresh.
  assert (r ∉ ps) as Hrps.
  { intros Hin. destruct (stored_present _ _ _ _ Hall Hin) as [c Hc]. congruence. }
  exists r. split; [by rewrite <-Hold|].
  set (w2 := with_temps (<[r:=[]]> T1) w).
  assert (calm w2) as Hw2 by done.
  assert (Forall aligned (sort_records <$> bl)) as Hsal.
  { apply Forall_fmap. eapply Forall_impl; [apply blocks_aligned, Hrs|].
    intros b Hb. by apply sort_records_aligned. }
  assert (Forall2 (λ p b, temps w2 !! p = Some (concat b)) ps (sort_records <$> bl))
    as Hall2.
  { apply Forall2_fmap_r. eapply Forall2_impl; [apply Hall|].
    intros p b Hpb. unfold w2. rewrite temps_with_temps.
    rewrite lookup_insert_ne; [done|]. intros <-. congruence. }
  pose proof (open_blocks_calm ps _ [] [] w2 Hw2 Hall2 Hsal) as Hopen.
  change (@concat Z <$> []) with (@nil bytes) in Hopen.
  rewrite (bind_ok _ _ _ _ _ Hopen). clear Hopen.
  destruct (open_records_inv (sort_records <$> bl) [] [] merge_inv_nil)
    as [Hinv Hperm].
  { apply Forall_fmap, Forall_forall. intros b _. apply sort_records_sorted. }
  pose proof (open_records_aligned (sort_records <$> bl) [] [] Hsal
                (Forall_nil_2 _)) as Hral.
  set (heap := (open_records (sort_records <$> bl) [] []).1) in *.
  set (runs := (open_records (sort_records <$> bl) [] []).2) in *.
  destruct (merge_records_sorted _ heap runs Hinv (records_pending heap runs Hral))
    as (out & Hout & Hoperm & Hosorted).
  assert (out = sort_records rs) as ->.
  { apply (StronglySorted_unique bytes_le); [done|apply sort_records_sorted|].
    rewrite Hoperm, Hperm, sort_records_perm. simpl.
    rewrite concat_sorted_perm. unfold bl. by rewrite blocks_concat. }
  rewrite (bind_ok _ _ _ _ _
    (merge_blocks_calm _ r heap runs _ [] w2 Hw2 Hral (lookup_insert_eq _ _ _) Hout)).
  unfold w2. rewrite temps_with_temps, with_temps_twice.
  rewrite insert_insert_eq, app_nil_l.
  assert (Forall (λ p, is_Some
            (temps (with_temps (<[r:=concat (sort_records rs)]> T1) w) !! p)) ps)
    as Hpresent.
  { apply Forall_forall. intros p Hin. rewrite temps_with_temps.
    rewrite lookup_insert_ne by (by intros <-).
    by eapply stored_present. }
  rewrite (bind_ok _ _ _ _ _
    (unlink_all_calm ps _ (with_temps_calm _ w Hw) Hnd Hpresent)).
  rewrite temps_with_temps, with_temps_twice.
  by rewrite foldr_delete_insert_notin, Hdel.
Qed.

Lemma count_sorted_file_calm path rs w :
  calm w → aligned rs → StronglySorted bytes_le rs →
  temps w !! path = Some (concat rs) →
  PartitionProcessor.count_sorted_file path w
  = (Ok (distinct rs), with_temps (delete path (temps w)) w).
Proof.
  intros Hw Hrs Hsorted Hp. unfold PartitionProcessor.count_sorted_file.
  rewrite (bind_ok _ _ _ _ _ (open_rb_calm _ _ w Hw Hp)).
  assert (length rs < S (length (concat rs)))%nat as Hf.
  { rewrite aligned_concat_length by done. unfold IPV6_BYTES_LEN. lia. }
  rewrite (bind_ok _ _ _ _ _ (scan_sorted_calm rs _ None 0 w Hw Hrs Hf)).
  rewrite (bind_ok _ _ _ _ _ (unlink_calm _ _ w Hw Hp)).
  by rewrite count_changes_sorted.
Qed.

Lemma count_unique_external_calm n path rs w :
  calm w → aligned rs → temps w !! path = Some (concat rs) → (0 < n)%nat →
  PartitionProcessor._count_unique_external_blocks n path w
  = (Ok (distinct rs), w).
Proof.
  intros Hw Hrs Hp Hn.
  unfold PartitionProcessor._count_unique_external_blocks.
  destruct (external_sort_calm n path rs w Hw Hrs Hp Hn) as (r & Hr & Hrun).
  rewrite (bind_ok _ _ _ _ _ Hrun).
  rewrite (count_sorted_file_calm r (sort_records rs));
    [|done|by apply sort_records_aligned|apply sort_records_sorted
     |by rewrite temps_with_temps, lookup_insert_eq].
  rewrite temps_with_temps, with_temps_twice, delete_insert_id by done.
  rewrite with_temps_id by done.
  by rewrite (distinct_perm _ _ (sort_records_perm rs)).
Qed.

Lemma records_per_block_pos : (0 < PartitionProcessor.records_per_block)%nat.
Proof.
  unfold PartitionProcessor.records_per_block, PartitionProcessor.block_size,
    IPV6_BYTES_LEN.
  change (64 * 1024 * 1024 / Z.of_nat 16) with 4194304. lia.
Qed.

Lemma partition_count_unique_calm path rs w :
  calm w → aligned rs → temps w !! path = Some (concat rs) →
  PartitionProcessor.count_unique path w = (Ok (distinct rs), w).
Proof.
  intros Hw Hrs Hp. unfold PartitionProcessor.count_unique.
  rewrite (bind_ok _ _ _ _ _ (getsize_calm _ _ w Hw Hp)).
  destruct (_ <=? _).
  - by apply count_unique_in_memory_calm.
  - apply count_unique_external_calm; auto using records_per_block_pos.
Qed.

(** ** Partitioning *)

Lemma get_partition_lt key n :
  (0 < n)%nat → (FastHasher.get_partition key n < n)%nat.
Proof.
  intros Hn. unfold FastHasher.get_partition.
  pose proof (Z.mod_pos_bound (FastHasher.hash_bytes key) (Z.of_nat n)). lia.
Qed.

Lemma list_to_set_filter (P : bytes → Prop) `{!∀ x, Decision (P x)} l :
  (list_to_set (filter P l) : gset bytes) = filter P (list_to_set l).
Proof.
  apply set_eq. intros x.
  rewrite elem_of_list_to_set, elem_of_filter, list_elem_of_filter.
  by rewrite elem_of_list_to_set.
Qed.

Lemma partition_sizes (f : bytes → nat) (X : gset bytes) m :
  sum_list ((λ i, size (filter (λ k, f k = i) X)) <$> seq 0 m)
  = size (filter (λ k, (f k < m)%nat) X).
Proof.
  induction m as [|m IH].
  { simpl. symmetry. apply size_empty_iff, elem_of_equiv_empty. intros x.
    rewrite elem_of_filter. intros [? _]. lia. }
  rewrite seq_S, fmap_app, sum_list_with_app, IH. simpl.
  rewrite Nat.add_0_r, <-size_union.
  - f_equal. apply set_eq. intros x.
    rewrite elem_of_union, !elem_of_filter. split; [|intros [? ?]].
    + intros [[? ?]|[? ?]]; split; auto; lia.
    + destruct (decide (f x = m)); [right|left]; split; auto; lia.
  - intros x. rewrite !elem_of_filter. lia.
Qed.

(** The buckets split the distinct keys: no key is counted twice. *)
Lemma bucket_distinct n keys :
  (0 < n)%nat →
  sum_list ((λ i, distinct (bucket n i keys)) <$> seq 0 n) = distinct keys.
Proof.
  intros Hn. unfold distinct, bucket.
  trans (sum_list ((λ i, size (filter (λ k, FastHasher.get_partition k n = i)
                                     (list_to_set keys : gset bytes)))
                    <$> seq 0 n)).
  { f_equal. apply list_fmap_ext. intros i x _. simpl.
    by rewrite list_to_set_filter. }
  rewrite (partition_sizes (λ k, FastHasher.get_partition k n)).
  f_equal. apply set_eq. intros x. rewrite elem_of_filter.
  split; [by intros [_ ?]|]. intros ?. split; [|done].
  by apply get_partition_lt.
Qed.

(** ** Lines *)

Lemma lstrip_space_idem s : lstrip_space (lstrip_space s) = lstrip_space s.
Proof.
  induction s as [|c s IH]; [done|]. simpl.
  destruct (is_space c) eqn:E; [done|]. simpl. by rewrite E.
Qed.

Lemma lstrip_space_snoc s c :
  is_space c = false → lstrip_space (s ++ [c]) = lstrip_space s ++ [c].
Proof.
  intros Hc. induction s as [|d s IH]; simpl; [by rewrite Hc|].
  by destruct (is_space d).
Qed.

Lemma lstrip_space_head s :
  lstrip_space s = [] ∨ ∃ c r, lstrip_space s = c :: r ∧ is_space c = false.
Proof.
  induction s as [|c s IH]; [by left|]. simpl.
  destruct (is_space c) eqn:E; [done|]. right. eauto.
Qed.

Lemma strip_idem s : strip (strip s) = strip s.
Proof.
  unfold strip.
  destruct (lstrip_space_head s) as [->|(c & r & -> & Hc)]; [done|].
  rewrite reverse_cons, lstrip_space_snoc, reverse_app by done.
  simpl. rewrite Hc, reverse_cons, reverse_involutive.
  rewrite lstrip_space_snoc, lstrip_space_idem by done.
  by rewrite reverse_app.
Qed.

Lemma space_lower c : is_space (lower_char c) = is_space c.
Proof. all_chars c; reflexivity. Qed.

Lemma lstrip_space_lower s : lstrip_space (lower s) = lower (lstrip_space s).
Proof.
  induction s as [|c s IH]; [done|]. unfold lower in *. rewrite fmap_cons.
  simpl. rewrite space_lower. destruct (is_space c); [done|].
  by rewrite fmap_cons.
Qed.

Lemma strip_lower s : strip (lower s) = lower (strip s).
Proof.
  unfold strip. rewrite lstrip_space_lower. unfold lower.
  rewrite <-fmap_reverse. fold (lower (reverse (lstrip_space s))).
  rewrite lstrip_space_lower. unfold lower. by rewrite fmap_reverse.
Qed.

Lemma canonical_strip line :
  IPv6Parser.to_canonical_bytes (strip line) = IPv6Parser.to_canonical_bytes line.
Proof.
  unfold IPv6Parser.to_canonical_bytes. cbn zeta.
  by rewrite <-!strip_lower, strip_idem.
Qed.

Lemma canonical_blank line : strip line = [] → line_key line = None.
Proof.
  intros H. unfold line_key, IPv6Parser.to_canonical_bytes. cbn zeta.
  by rewrite strip_lower, H.
Qed.

Lemma groups_to_bytes_length groups key :
  IPv6Parser._groups_to_bytes groups = Ok key →
  length key = (2 * length groups)%nat.
Proof.
  revert key. induction groups as [|g groups IH]; intros key.
  { by intros [= <-]. }
  cbn [IPv6Parser._groups_to_bytes].
  destruct (IPv6Parser.group_value g) as [v|]; [|done]. cbn [rbind].
  unfold pack_H. destruct (_ && _); [|done]. cbn [rbind].
  destruct (IPv6Parser._groups_to_bytes groups) as [tail|]; [|done].
  intros [= <-]. simpl. rewrite (IH tail eq_refl). lia.
Qed.

Lemma canonical_length line key :
  IPv6Parser.to_canonical_bytes line = Ok key → length key = IPV6_BYTES_LEN.
Proof.
  unfold IPv6Parser.to_canonical_bytes. cbn zeta.
  set (addr := strip (lower line)). destruct (has_dcolon addr).
  - unfold IPv6Parser._expand_compressed.
    destruct (split_dcolon addr) as [|p0 [|p1 [|? ?]]]; try done.
    cbn zeta. destruct (_ <? 0) eqn:E; [done|].
    apply Z.ltb_ge in E. intros ->%groups_to_bytes_length.
    rewrite !length_app, length_replicate. unfold IPV6_BYTES_LEN. lia.
  - cbn zeta. case_bool_decide as E; [done|].
    intros ->%groups_to_bytes_length.
    by rewrite E.
Qed.

Lemma parsed_keys_aligned lines : aligned (parsed_keys lines).
Proof.
  unfold parsed_keys. induction lines as [|l lines IH]; [constructor|].
  simpl. unfold line_key at 1.
  destruct (IPv6Parser.to_canonical_bytes l) as [k|] eqn:E; [|done].
  constructor; [by eapply canonical_length|done].
Qed.

(** ** The ingestion pass *)

Lemma writer_init_calm n w :
  calm w →
  ∃ ps w',
    PartitionWriter.init n w = (Ok ps, w')
    ∧ calm w' ∧ files w' = files w
    ∧ length ps = n ∧ NoDup ps
    ∧ (∀ p, p ∈ ps → temps w' !! p = Some [] ∧ temps w !! p = None)
    ∧ (∀ q, q ∉ ps → temps w' !! q = temps w !! q).
Proof.
  revert w. induction n as [|n IH]; intros w Hw.
  { exists [], w. split_and!; try done; [apply NoDup_nil_2|].
    by intros ? ?%elem_of_nil. }
  cbn [PartitionWriter.init].
  rewrite (bind_ok _ _ _ _ _ (mkstemp_calm true w Hw)).
  set (p := fresh (dom (temps w))).
  set (w1 := set_tempdir _ _).
  assert (temps w1 !! p = Some []) as Hp1 by apply lookup_insert_eq.
  assert (temps w !! p = None) as Hp0 by apply fresh_temp_None.
  rewrite (bind_ok _ _ _ _ _ (open_wb_calm p w1 Hw)).
  rewrite insert_id, with_temps_id by done.
  destruct (IH w1) as (ps & w' & Hrun & Hw' & Hfiles & Hlen & Hnd & Hnew & Hold);
    [done|].
  assert (p ∉ ps) as Hnin.
  { intros Hin. destruct (Hnew p Hin) as [_ ?]. congruence. }
  exists (p :: ps), w'. rewrite (bind_ok _ _ _ _ _ Hrun).
  split_and!; try done.
  - simpl. by rewrite Hlen.
  - by constructor.
  - intros q [->|Hin]%elem_of_cons; [by rewrite Hold|].
    destruct (Hnew _ Hin) as [Hq' Hq]. split; [done|].
    assert (q ≠ p) by (intros ->; congruence).
    unfold w1 in Hq. cbn [temps set_tempdir with_temps set_temps] in Hq.
    by rewrite lookup_insert_ne in Hq.
  - intros q [Hqp Hq]%not_elem_of_cons. rewrite Hold by done.
    unfold w1. cbn [temps set_tempdir with_temps set_temps].
    by rewrite lookup_insert_ne.
Qed.

Lemma bucket_snoc_same n keys k :
  bucket n (FastHasher.get_partition k n) (keys ++ [k])
  = bucket n (FastHasher.get_partition k n) keys ++ [k].
Proof.
  unfold bucket. rewrite filter_app. f_equal.
  rewrite filter_cons, decide_True by done. done.
Qed.

Lemma bucket_snoc_other n i keys k :
  FastHasher.get_partition k n ≠ i → bucket n i (keys ++ [k]) = bucket n i keys.
Proof.
  intros Hne. unfold bucket. rewrite filter_app.
  rewrite filter_cons, decide_False by done. by rewrite app_nil_r.
Qed.

Lemma process_line_raise self line writer n e w :
  IPv6Parser.to_canonical_bytes line = Raise e →
  Counter._process_line self line writer n w
  = (Ok (), set_stderr (λ log, log ++ [MsgLineError line e]) w).
Proof.
  intros H. unfold Counter._process_line, try_except, bind, lift. by rewrite H.
Qed.

Lemma process_line_ok self line writer n key keys w :
  calm w → NoDup writer → length writer = n → (0 < n)%nat →
  holds writer n keys w →
  IPv6Parser.to_canonical_bytes line = Ok key →
  ∃ w', Counter._process_line self line writer n w = (Ok (), w')
        ∧ calm w' ∧ files w' = files w ∧ holds writer n (keys ++ [key]) w'.
Proof.
  intros Hw Hnd Hlen Hn Hholds Hkey.
  set (j := FastHasher.get_partition key n).
  destruct (lookup_lt_is_Some_2 writer j) as [p Hp].
  { rewrite Hlen. by apply get_partition_lt. }
  pose proof (Hholds j p Hp) as Hc.
  exists (with_temps (<[p := concat (bucket n j keys) ++ key]> (temps w)) w).
  split; [|split; [done|split; [done|]]].
  - unfold Counter._process_line, try_except, bind, lift. rewrite Hkey.
    unfold PartitionWriter.write. fold j. rewrite Hp.
    by rewrite (write_calm _ _ key w Hw Hc).
  - intros i q Hq. rewrite temps_with_temps.
    destruct (decide (i = j)) as [->|Hij].
    + assert (q = p) as -> by congruence. rewrite lookup_insert_eq.
      unfold j. rewrite bucket_snoc_same, concat_app. simpl.
      by rewrite app_nil_r.
    + rewrite lookup_insert_ne.
      * rewrite bucket_snoc_other by done. by apply Hholds.
      * intros <-. apply Hij. by eapply NoDup_lookup.
Qed.

Lemma process_lines_calm self lines writer n keys w :
  calm w → NoDup writer → length writer = n → (0 < n)%nat →
  holds writer n keys w →
  ∃ w', Counter.process_lines self lines writer n w = (Ok (), w')
        ∧ calm w' ∧ files w' = files w
        ∧ holds writer n (keys ++ parsed_keys lines) w'.
Proof.
  intros Hw Hnd Hlen Hn. revert keys w Hw.
  induction lines as [|raw lines IH]; intros keys w Hw Hholds.
  { exists w. by rewrite app_nil_r. }
  cbn [Counter.process_lines]. cbn zeta.
  unfold parsed_keys. cbn [omap list_omap]. fold (parsed_keys lines).
  case_bool_decide as Hblank.
  { rewrite (canonical_blank raw Hblank).
    destruct (IH keys w Hw Hholds) as (w' & Hrun & ?).
    exists w'. by rewrite (bind_ok _ _ _ _ _ (eq_refl : ret () w = (Ok (), w))). }
  unfold line_key at 1. rewrite <-canonical_strip.
  destruct (IPv6Parser.to_canonical_bytes (strip raw)) as [key|e] eqn:Hkey.
  - destruct (process_line_ok self _ writer n key keys w Hw Hnd Hlen Hn Hholds Hkey)
      as (w1 & Hrun1 & Hw1 & Hfiles1 & Hholds1).
    destruct (IH (keys ++ [key]) w1 Hw1 Hholds1) as (w' & Hrun & Hw' & Hfiles & Hh).
    exists w'. rewrite (bind_ok _ _ _ _ _ Hrun1).
    rewrite <-app_assoc in Hh. repeat split; try done. congruence.
  - rewrite (bind_ok _ _ _ _ _ (process_line_raise self _ writer n e w Hkey)).
    set (w1 := set_stderr _ w).
    destruct (IH keys w1) as (w' & Hrun & Hw' & Hfiles & Hh); [done|done|].
    by exists w'.
Qed.

(** ** The fan-out pass and the whole run *)

Lemma collect_counts_calm ps (rss : list (list bytes)) total w :
  calm w →
  Forall2 (λ p rs, temps w !! p = Some (concat rs) ∧ aligned rs) ps rss →
  ∃ w', Counter.collect_counts PartitionProcessor.count_unique ps total w
        = (Ok (total + sum_list (distinct <$> rss))%nat, w')
        ∧ calm w' ∧ files w' = files w ∧ temps w' = temps w.
Proof.
  intros Hw Hall. remember (temps w) as T eqn:HT.
  revert total w Hw HT.
  induction Hall as [|p rs ps rss [Hp Hal] Hall IH]; intros total w Hw HT.
  { exists w. simpl. by rewrite Nat.add_0_r. }
  subst T. cbn [Counter.collect_counts].
  set (w1 := set_stderr (λ log, log ++ [MsgPartitionCount p (distinct rs)]) w).
  destruct (IH (total + distinct rs)%nat w1) as (w' & Hrun & Hw' & Hfiles & Htemps);
    [done|done|].
  exists w'. split_and!; try done.
  pose proof (partition_count_unique_calm p rs w Hw Hal Hp) as Hcount.
  erewrite bind_ok.
  2:{ apply try_except_ok. erewrite bind_ok by exact Hcount. reflexivity. }
  fold w1. rewrite Hrun, fmap_cons. simpl. do 2 f_equal. lia.
Qed.

Lemma holds_initial ps n w :
  (∀ p, p ∈ ps → temps w !! p = Some []) → holds ps n [] w.
Proof.
  intros H i p Hp. unfold bucket. simpl.
  apply H. by eapply list_elem_of_lookup_2.
Qed.

Lemma open_mmap_calm path content w :
  calm w → files w !! path = Some content → content ≠ [] →
  open_mmap path w = (Ok content, w).
Proof.
  intros Hw Hp Hne. unfold open_mmap.
  rewrite (bind_ok _ _ _ _ _ (tick_calm w Hw)). rewrite Hp.
  by destruct content.
Qed.

Lemma close_calm ps w : calm w → PartitionWriter.close ps w = (Ok (), w).
Proof.
  intros Hw. induction ps as [|p ps IH]; [done|].
  cbn [PartitionWriter.close]. by rewrite (bind_ok _ _ _ _ _ (tick_calm w Hw)).
Qed.

Lemma distribute_calm self input_path content n w :
  calm w → files w !! input_path = Some content → content ≠ [] →
  (0 < n)%nat →
  ∃ ps w',
    Counter._distribute_addresses self input_path n w = (Ok ps, w')
    ∧ calm w' ∧ files w' = files w ∧ length ps = n
    ∧ holds ps n (parsed_keys (input_lines content)) w'.
Proof.
  intros Hw Hin Hne Hn. unfold Counter._distribute_addresses.
  destruct (writer_init_calm n w Hw)
    as (ps & w1 & Hrun1 & Hw1 & Hfiles1 & Hlen & Hnd & Hnew & _).
  rewrite (bind_ok _ _ _ _ _ Hrun1).
  rewrite <-Hfiles1 in Hin.
  rewrite (bind_ok _ _ _ _ _ (open_mmap_calm _ _ w1 Hw1 Hin Hne)).
  destruct (process_lines_calm self (input_lines content) ps n [] w1)
    as (w2 & Hrun2 & Hw2 & Hfiles2 & Hholds); [done..| |].
  { apply holds_initial. intros p Hp. by apply Hnew. }
  fold (input_lines content). rewrite (bind_ok _ _ _ _ _ Hrun2).
  rewrite (bind_ok _ _ _ _ _ (close_calm ps w2 Hw2)).
  exists ps, w2. split_and!; try done. congruence.
Qed.

Lemma bucket_aligned n i keys : aligned keys → aligned (bucket n i keys).
Proof.
  unfold aligned, bucket. rewrite !Forall_forall.
  intros H x [_ Hx]%list_elem_of_filter. by apply H.
Qed.

Lemma holds_buckets ps n keys w :
  length ps = n → aligned keys → holds ps n keys w →
  Forall2 (λ p rs, temps w !! p = Some (concat rs) ∧ aligned rs)
    ps ((λ i, bucket n i keys) <$> seq 0 n).
Proof.
  intros Hlen Hal Hholds. apply Forall2_same_length_lookup_2.
  { by rewrite length_fmap, length_seq. }
  intros i p rs Hp Hrs. rewrite list_lookup_fmap in Hrs.
  destruct (seq 0 n !! i) as [j|] eqn:Hj; simplify_eq/=.
  apply lookup_seq in Hj as [-> _]. simpl.
  split; [by apply Hholds|by apply bucket_aligned].
Qed.

Lemma getsize_text_calm path content w :
  calm w → files w !! path = Some content →
  getsize_text path w = (Ok (Z.of_nat (length content)), w).
Proof.
  intros Hw Hp. unfold getsize_text.
  rewrite (bind_ok _ _ _ _ _ (tick_calm w Hw)). by rewrite Hp.
Qed.

Lemma write_text_calm path s w :
  calm w → write_text path s w = (Ok (), set_files (insert path s) w).
Proof.
  intros Hw. unfold write_text. by rewrite (bind_ok _ _ _ _ _ (tick_calm w Hw)).
Qed.

Lemma num_partitions_calm self input_path content w :
  calm w → files w !! input_path = Some content →
  ∃ n, Counter._calculate_num_partitions self input_path w = (Ok n, w)
       ∧ (0 < n)%nat.
Proof.
  intros Hw Hin. unfold Counter._calculate_num_partitions.
  rewrite (bind_ok _ _ _ _ _ (getsize_text_calm _ _ w Hw Hin)).
  eexists. split; [reflexivity|]. lia.
Qed.

(** A run on a non-empty input, in a calm world: the output file holds the
    number of distinct keys of the lines that parse. *)
Lemma count_unique_calm self input_path output_path content w :
  calm w → files w !! input_path = Some content → content ≠ [] →
  ∃ w',
    Counter.count_unique self input_path output_path w = (Ok (), w')
    ∧ calm w'
    ∧ files w'
      = <[output_path :=
            str (pretty (distinct (parsed_keys (input_lines content))))]>
          (files w).
Proof.
  intros Hw Hin Hne. unfold Counter.count_unique, with_temporary_directory.
  rewrite (bind_ok _ _ _ _ _ (tick_calm w Hw)).
  destruct (num_partitions_calm self input_path content w Hw Hin)
    as (n & Hrun0 & Hn).
  rewrite (bind_ok _ _ _ _ _ Hrun0).
  rewrite (bind_ok _ _ _ _ _ (eq_refl : print _ w = (Ok (), _))).
  set (w0 := set_stderr _ w).
  destruct (distribute_calm self input_path content n w0)
    as (ps & w1 & Hrun1 & Hw1 & Hfiles1 & Hlen & Hholds); [done..|].
  rewrite (bind_ok _ _ _ _ _ Hrun1).
  set (keys := parsed_keys (input_lines content)) in *.
  destruct (collect_counts_calm ps _ 0 w1 Hw1
              (holds_buckets ps n keys w1 Hlen (parsed_keys_aligned _) Hholds))
    as (w2 & Hrun2 & Hw2 & Hfiles2 & _).
  unfold Counter._process_partitions, PartitionWriter.get_paths.
  rewrite (bind_ok _ _ _ _ _ Hrun2).
  rewrite <-list_fmap_compose, Nat.add_0_l.
  change (distinct ∘ _) with (λ i, distinct (bucket n i keys)).
  rewrite bucket_distinct by done.
  rewrite (bind_ok _ _ _ _ _ (write_text_calm _ _ w2 Hw2)).
  eexists. split; [reflexivity|]. split; [done|].
  simpl. by rewrite Hfiles2, Hfiles1.
Qed.

Lemma main_calm input_file output_file memory_limit content w :
  calm w → files w !! input_file = Some content → content ≠ [] →
  ∃ w',
    main input_file output_file memory_limit w = (0, w')
    ∧ files w'
      = <[output_file :=
            str (pretty (distinct (parsed_keys (input_lines content))))]>
          (files w).
Proof.
  intros Hw Hin Hne. unfold main, path_exists.
  rewrite bool_decide_eq_true_2 by by rewrite Hin.
  destruct (count_unique_calm {| memory_limit_mb := memory_limit |}
              input_file output_file content w Hw Hin Hne)
    as (w1 & Hrun & Hw1 & Hfiles).
  rewrite (bind_ok _ _ _ _ _ Hrun). simpl. eauto.
Qed.

(** ** Boundary cases of a run *)

Lemma split_char_plain sep (line : text) :
  sep ∉ line → split_char sep line = [line].
Proof.
  induction line as [|c line IH]; [done|].
  intros [Hc Hl]%not_elem_of_cons. simpl.
  rewrite (proj2 (is_char_false c sep)) by done. by rewrite IH.
Qed.

Lemma split_char_line sep (line rest : text) :
  sep ∉ line →
  split_char sep (line ++ sep :: rest) = line :: split_char sep rest.
Proof.
  induction line as [|c line IH]; intros Hl.
  - simpl. by rewrite (proj2 (is_char_true sep sep)).
  - apply not_elem_of_cons in Hl as [Hc Hl]. simpl.
    rewrite (proj2 (is_char_false c sep)) by done. by rewrite IH.
Qed.

Lemma input_lines_unlines lines :
  Forall (λ line, Counter.newline ∉ line) lines →
  input_lines (unlines lines) = lines ++ [[]].
Proof.
  unfold input_lines, unlines.
  induction 1 as [|line lines Hl Hls IH]; [done|].
  rewrite fmap_cons. simpl. rewrite <-app_assoc. simpl.
  by rewrite split_char_line, IH.
Qed.

Lemma parsed_keys_app l1 l2 : parsed_keys (l1 ++ l2) = parsed_keys l1 ++ parsed_keys l2.
Proof. unfold parsed_keys. apply omap_app. Qed.

Lemma parsed_keys_replicate m line key :
  IPv6Parser.to_canonical_bytes line = Ok key →
  parsed_keys (replicate m line) = replicate m key.
Proof.
  intros H. induction m as [|m IH]; [done|].
  simpl. unfold parsed_keys in *. simpl. unfold line_key at 1.
  by rewrite H, IH.
Qed.

Lemma distinct_replicate m (key : bytes) : (0 < m)%nat → distinct (replicate m key) = 1%nat.
Proof.
  intros Hm. unfold distinct.
  assert ((list_to_set (replicate m key) : gset bytes) = {[key]}) as ->.
  { apply set_eq. intros x.
    rewrite elem_of_list_to_set, elem_of_replicate, elem_of_singleton.
    split; [by intros [? _]|]. intros ->. split; [done|lia]. }
  apply size_singleton.
Qed.

(** One valid line, with or without a line feed at its end. *)
Lemma single_line_run input_file output_file memory_limit line key w :
  calm w → Counter.newline ∉ line →
  IPv6Parser.to_canonical_bytes line = Ok key →
  (files w !! input_file = Some line
   ∨ files w !! input_file = Some (line ++ [Counter.newline])) →
  ∃ w', main input_file output_file memory_limit w = (0, w')
        ∧ files w' = <[output_file := str "1"]> (files w).
Proof.
  intros Hw Hnl Hkey Hin.
  assert (line ≠ []) as Hne by (by intros ->).
  destruct Hin as [Hin|Hin].
  - destruct (main_calm input_file output_file memory_limit line w Hw Hin Hne)
      as (w' & Hrun & Hfiles).
    exists w'. split; [done|]. rewrite Hfiles.
    unfold input_lines. rewrite split_char_plain by done.
    change [line] with (replicate 1 line).
    rewrite (parsed_keys_replicate 1 line key Hkey).
    by rewrite distinct_replicate by lia.
  - assert (line ++ [Counter.newline] = unlines [line]) as Heq.
    { unfold unlines. simpl. by rewrite app_nil_r. }
    rewrite Heq in Hin.
    destruct (main_calm input_file output_file memory_limit _ w Hw Hin)
      as (w' & Hrun & Hfiles); [rewrite <-Heq; by destruct line|].
    exists w'. split; [done|]. rewrite Hfiles.
    rewrite input_lines_unlines by by repeat constructor.
    change [line] with (replicate 1 line).
    rewrite parsed_keys_app, (parsed_keys_replicate 1 line key Hkey).
    change (parsed_keys [[]]) with (@nil bytes). rewrite app_nil_r.
    by rewrite distinct_replicate by lia.
Qed.

(** The same address on each of [m] lines. *)
Lemma repeated_line_run input_file output_file memory_limit line key m w :
  calm w → Counter.newline ∉ line → (0 < m)%nat →
  IPv6Parser.to_canonical_bytes line = Ok key →
  files w !! input_file = Some (unlines (replicate m line)) →
  ∃ w', main input_file output_file memory_limit w = (0, w')
        ∧ files w' = <[output_file := str "1"]> (files w).
Proof.
  intros Hw Hnl Hm Hkey Hin.
  destruct (main_calm input_file output_file memory_limit _ w Hw Hin)
    as (w' & Hrun & Hfiles).
  { destruct m; [lia|]. unfold unlines. simpl. by destruct line. }
  exists w'. split; [done|]. rewrite Hfiles.
  rewrite input_lines_unlines by by apply Forall_replicate.
  rewrite parsed_keys_app, (parsed_keys_replicate m line key Hkey).
  change (parsed_keys [[]]) with (@nil bytes). rewrite app_nil_r.
  by rewrite distinct_replicate.
Qed.

(** ** The empty input *)

Section UserFiles.
Variable F : gmap string text.
Local Abbreviation keeps := (keeps F).
Local Abbreviation doomed := (doomed F).

Lemma keeps_bind {A B} (m : M A) (k : A → M B) :
  keeps m → (∀ a, keeps (k a)) → keeps (bind m k).
Proof.
  intros Hm Hk w Hw. destruct (Hm w Hw) as ([a|e] & w1 & Hrun & Hw1).
  - destruct (Hk a w1 Hw1) as (r & w2 & Hrun2 & Hw2).
    exists r, w2. by rewrite (bind_ok _ _ _ _ _ Hrun).
  - exists (Raise e), w1. by rewrite (bind_raise _ _ _ _ _ Hrun).
Qed.

Lemma doomed_bind_l {A B} (m : M A) (k : A → M B) :
  doomed m → doomed (bind m k).
Proof.
  intros Hm w Hw. destruct (Hm w Hw) as (e & w1 & Hrun & Hw1).
  exists e, w1. by rewrite (bind_raise _ _ _ _ _ Hrun).
Qed.

Lemma doomed_bind_r {A B} (m : M A) (k : A → M B) :
  keeps m → (∀ a, doomed (k a)) → doomed (bind m k).
Proof.
  intros Hm Hk w Hw. destruct (Hm w Hw) as ([a|e] & w1 & Hrun & Hw1).
  - destruct (Hk a w1 Hw1) as (e & w2 & Hrun2 & Hw2).
    exists e, w2. by rewrite (bind_ok _ _ _ _ _ Hrun).
  - exists e, w1. by rewrite (bind_raise _ _ _ _ _ Hrun).
Qed.

Lemma keeps_tick : keeps tick.
Proof.
  intros w Hw. unfold tick. destruct (faults w) as [|b rest]; eauto.
Qed.

Lemma keeps_print m : keeps (print m).
Proof. intros w Hw. unfold print. eauto. Qed.

Lemma keeps_ret {A} (a : A) : keeps (ret a).
Proof. intros w Hw. unfold ret. eauto. Qed.

Lemma keeps_mkstemp in_dir : keeps (mkstemp in_dir).
Proof.
  apply keeps_bind; [apply keeps_tick|]. intros _ w Hw. eauto.
Qed.

Lemma keeps_open_wb path : keeps (open_wb path).
Proof.
  apply keeps_bind; [apply keeps_tick|]. intros _ w Hw. eauto.
Qed.

Lemma keeps_getsize_text path : keeps (getsize_text path).
Proof.
  apply keeps_bind; [apply keeps_tick|]. intros _ w Hw.
  destruct (files w !! path); eauto.
Qed.

Lemma keeps_writer_init n : keeps (PartitionWriter.init n).
Proof.
  induction n as [|n IH]; [apply keeps_ret|].
  apply keeps_bind; [apply keeps_mkstemp|]. intros p.
  apply keeps_bind; [apply keeps_open_wb|]. intros _.
  apply keeps_bind; [apply IH|]. intros ps. apply keeps_ret.
Qed.

Lemma doomed_open_mmap path : F !! path = Some [] → doomed (open_mmap path).
Proof.
  intros Hp. apply doomed_bind_r; [apply keeps_tick|].
  intros _ w Hw. rewrite Hw, Hp. eauto.
Qed.

Lemma doomed_count_unique self input_path output_path :
  F !! input_path = Some [] →
  doomed (Counter.count_unique self input_path output_path).
Proof.
  intros Hp. unfold Counter.count_unique, with_temporary_directory.
  apply doomed_bind_r; [apply keeps_tick|]. intros _ w Hw.
  match goal with |- context [let '(r, w') := ?body w in _] =>
    assert (doomed body) as Hbody
  end.
  { apply doomed_bind_r.
    { unfold Counter._calculate_num_partitions.
      apply keeps_bind; [apply keeps_getsize_text|]. intros ?. apply keeps_ret. }
    intros n. apply doomed_bind_r; [apply keeps_print|]. intros _.
    apply doomed_bind_l. unfold Counter._distribute_addresses.
    apply doomed_bind_r; [apply keeps_writer_init|]. intros writer.
    by apply doomed_bind_l, doomed_open_mmap. }
  destruct (Hbody w Hw) as (e & w1 & -> & Hw1). eauto.
Qed.
End UserFiles.

Lemma main_empty input_file output_file memory_limit w :
  files w !! input_file = Some [] →
  ∃ w', main input_file output_file memory_limit w = (1, w')
        ∧ files w' = files w.
Proof.
  intros Hin. unfold main, path_exists.
  rewrite bool_decide_eq_true_2 by by rewrite Hin.
  destruct (doomed_count_unique (files w) {| memory_limit_mb := memory_limit |}
              input_file output_file Hin w eq_refl) as (e & w1 & Hrun & Hw1).
  rewrite (bind_raise _ _ _ _ _ Hrun). eauto.
Qed.

(** ** Well-formed texts *)

Lemma group_text_is_group v g : group_text v g → is_group g = true.
Proof.
  intros [Hne Hlen Hhex _]. unfold is_group.
  rewrite (bool_decide_eq_false_2 _ Hne), (bool_decide_eq_true_2 _ Hlen).
  simpl. apply Is_true_true, forallb_True. eapply Forall_impl; [done|].
  intros c Hc. by apply bool_decide_pack.
Qed.

Lemma group_texts_are_groups vs ts :
  Forall2 group_text vs ts → forallb is_group ts = true.
Proof.
  intros H. apply Is_true_true, forallb_True.
  induction H as [|v t vs ts Hvt _ IH]; constructor; [|done].
  apply Is_true_true. by eapply group_text_is_group.
Qed.

Lemma well_formed_looks t : well_formed t → looks_well_formed t = true.
Proof.
  intros [gs [ts Hlen Hts|ls rs k tl tr -> Hlen Hk Hl Hr]];
    unfold looks_well_formed.
  - pose proof (group_texts_plain _ _ Hts) as Hp.
    pose proof (has_dcolon_join ts [] Hp) as Hd. rewrite app_nil_r in Hd.
    rewrite Hd.
    assert (split_char ":" (join_colon ts) = ts) as ->.
    { pose proof (Forall2_length _ _ _ Hts) as Hn. rewrite Hlen in Hn.
      destruct Hp as [|t0 ts' [_ Ht] Hp]; [done|].
      apply split_char_join; [done|]. eapply Forall_impl; [done|]. by intros ? []. }
    rewrite (group_texts_are_groups _ _ Hts). simpl.
    apply bool_decide_eq_true_2. by rewrite <-(Forall2_length _ _ _ Hts).
  - pose proof (group_texts_plain _ _ Hl) as Hpl.
    pose proof (group_texts_plain _ _ Hr) as Hpr.
    rewrite has_dcolon_found.
    rewrite split_dcolon_first by by rewrite has_dcolon_join.
    rewrite split_dcolon_none.
    2:{ rewrite <-(app_nil_r (join_colon tr)). by rewrite has_dcolon_join. }
    rewrite !groups_of_join by done.
    by rewrite (group_texts_are_groups _ _ Hl), (group_texts_are_groups _ _ Hr).
Qed.

Lemma process_line_total self line writer n w :
  ∃ w', Counter._process_line self line writer n w = (Ok (), w').
Proof.
  unfold Counter._process_line, try_except.
  match goal with |- context [match ?m w with _ => _ end] =>
    destruct (m w) as [[[]|e] w1]
  end; unfold print; eauto.
Qed.

Ltac group_text_tac :=
  split;
    [discriminate | simpl; lia
    | repeat (apply Forall_cons_2; [eexists; reflexivity|]); apply Forall_nil_2
    | reflexivity].

Ltac group_texts_tac :=
  repeat (apply Forall2_cons_2; [group_text_tac|]); apply Forall2_nil_2.

(** ** Successful runs under a schedule of failures *)

Lemma steady_bind {A B} (m : M A) (k : A → M B) :
  steady m → (∀ a, steady (k a)) → steady (bind m k).
Proof.
  intros Hm Hk w b w' H. unfold bind in H |- *.
  destruct (m w) as [[a|e] w1] eqn:Hrun; [|done].
  rewrite (Hm _ _ _ Hrun). by apply Hk.
Qed.

Lemma steady_ret {A} (a : A) : steady (ret a).
Proof. intros w b w' [= <- <-]. done. Qed.

Lemma steady_tick : steady tick.
Proof.
  intros w [] w'. unfold tick. destruct w as [F T D E [|[] rest]]; simpl;
    intros [= <-]; done.
Qed.

Lemma steady_if {A} (b : bool) (m1 m2 : M A) :
  steady m1 → steady m2 → steady (if b then m1 else m2).
Proof. by destruct b. Qed.

Lemma steady_read n f : steady (read n f).
Proof. apply steady_bind; [apply steady_tick|]. intros _. apply steady_ret. Qed.

Lemma steady_open_rb path : steady (open_rb path).
Proof.
  apply steady_bind; [apply steady_tick|]. intros _ w a w'.
  change (temps (quiet w)) with (temps w).
  destruct (temps w !! path); by intros [= <- <-].
Qed.

Lemma steady_write path data : steady (write path data).
Proof.
  apply steady_bind; [apply steady_tick|]. intros _ w a w'.
  change (temps (quiet w)) with (temps w).
  destruct (temps w !! path); by intros [= <- <-].
Qed.

Lemma steady_unlink path : steady (unlink path).
Proof.
  apply steady_bind; [apply steady_tick|]. intros _ w a w'.
  change (temps (quiet w)) with (temps w).
  destruct (temps w !! path); by intros [= <- <-].
Qed.

Lemma steady_mkstemp in_dir : steady (mkstemp in_dir).
Proof.
  apply steady_bind; [apply steady_tick|]. intros _ w a w'.
  by intros [= <- <-].
Qed.

Lemma steady_read_block n f : steady (PartitionProcessor.read_block n f).
Proof.
  revert f. induction n as [|n IH]; intros f; [apply steady_ret|].
  cbn [PartitionProcessor.read_block].
  apply steady_bind; [apply steady_read|]. intros [record f'].
  apply steady_if; [apply steady_ret|].
  apply steady_bind; [apply IH|]. intros [block f'']. apply steady_ret.
Qed.

Lemma steady_write_records path block :
  steady (PartitionProcessor.write_records path block).
Proof.
  induction block as [|r block IH]; [apply steady_ret|].
  cbn [PartitionProcessor.write_records].
  apply steady_bind; [apply steady_write|]. by intros _.
Qed.

Lemma steady_split_blocks fuel n f :
  steady (PartitionProcessor.split_blocks fuel n f).
Proof.
  revert f. induction fuel as [|fuel IH]; intros f; [by intros w a w'|].
  cbn [PartitionProcessor.split_blocks].
  apply steady_bind; [apply steady_read_block|]. intros [block f'].
  apply steady_if; [apply steady_ret|]. cbn zeta.
  apply steady_bind; [apply steady_mkstemp|]. intros temp_path.
  apply steady_bind; [apply steady_write_records|]. intros _.
  apply steady_bind; [apply IH|]. intros temp_files. apply steady_ret.
Qed.

Lemma steady_open_blocks temp_files heap file_handles :
  steady (PartitionProcessor.open_blocks temp_files heap file_handles).
Proof.
  revert heap file_handles.
  induction temp_files as [|p ps IH]; intros heap file_handles;
    [apply steady_ret|].
  cbn [PartitionProcessor.open_blocks].
  apply steady_bind; [apply steady_open_rb|]. intros f. cbn zeta.
  apply steady_bind; [apply steady_read|]. intros [first f']. apply IH.
Qed.

Lemma steady_merge_blocks fuel result heap file_handles :
  steady (PartitionProcessor.merge_blocks fuel result heap file_handles).
Proof.
  revert heap file_handles.
  induction fuel as [|fuel IH]; intros heap file_handles; [by intros w a w'|].
  cbn [PartitionProcessor.merge_blocks].
  destruct (heappop heap) as [[[record file_idx] heap']|]; [|apply steady_ret].
  apply steady_bind; [apply steady_write|]. intros _.
  destruct (file_handles !! file_idx) as [f|]; [|by intros w a w'].
  apply steady_bind; [apply steady_read|]. intros [next f']. apply IH.
Qed.

Lemma steady_unlink_all paths : steady (PartitionProcessor.unlink_all paths).
Proof.
  induction paths as [|p paths IH]; [apply steady_ret|].
  cbn [PartitionProcessor.unlink_all].
  apply steady_bind; [apply steady_unlink|]. by intros _.
Qed.

Lemma steady_scan_sorted fuel f prev n :
  steady (PartitionProcessor.scan_sorted fuel f prev n).
Proof.
  revert f prev n. induction fuel as [|fuel IH]; intros f prev n;
    [by intros w a w'|].
  cbn [PartitionProcessor.scan_sorted].
  apply steady_bind; [apply steady_read|]. intros [chunk f'].
  apply steady_if; [apply steady_ret|]. apply steady_if; apply IH.
Qed.

Lemma steady_count_unique_external n path :
  steady (PartitionProcessor._count_unique_external_blocks n path).
Proof.
  unfold PartitionProcessor._count_unique_external_blocks.
  apply steady_bind.
  { unfold PartitionProcessor._external_sort_blocks.
    apply steady_bind; [apply steady_open_rb|]. intros f.
    apply steady_bind; [apply steady_split_blocks|]. intros temp_files.
    apply steady_bind; [apply steady_mkstemp|]. intros result_path.
    apply steady_bind; [apply steady_open_blocks|]. intros [heap file_handles].
    apply steady_bind; [apply steady_merge_blocks|]. intros _.
    apply steady_bind; [apply steady_unlink_all|]. intros _. apply steady_ret. }
  intros sorted_path. unfold PartitionProcessor.count_sorted_file.
  apply steady_bind; [apply steady_open_rb|]. intros f.
  apply steady_bind; [apply steady_scan_sorted|]. intros unique_count.
  apply steady_bind; [apply steady_unlink|]. intros _. apply steady_ret.
Qed.

(** Whenever the external path returns a count, under whatever schedule, the
    count is exact and the temporary files are as they were. *)
Lemma count_unique_external_returns n path rs w count w' :
  aligned rs → temps w !! path = Some (concat rs) → (0 < n)%nat →
  PartitionProcessor._count_unique_external_blocks n path w = (Ok count, w') →
  count = distinct rs ∧ temps w' = temps w.
Proof.
  intros Hrs Hp Hn Hrun.
  apply steady_count_unique_external in Hrun.
  rewrite (count_unique_external_calm n path rs (quiet w)) in Hrun by done.
  injection Hrun as <- _ Htemps _ _. by split.
Qed.

(** * The claims of the specification *)

(** C4: any two textual forms of one address, compressed with [::] or fully
    expanded, with letters of either case and with or without leading zeros
    in the groups, canonicalize to one and the same 16-byte key; so do
    ["2001:db8::1"] and ["2001:0db8:0000:0000:0000:0000:0000:0001"]. *)
Theorem C4_same_address_same_key :
  (∀ gs t1 t2,
     address_text gs t1 → address_text gs t2 →
     ∃ key, length key = IPV6_BYTES_LEN
            ∧ IPv6Parser.to_canonical_bytes t1 = Ok key
            ∧ IPv6Parser.to_canonical_bytes t2 = Ok key)
  ∧ IPv6Parser.to_canonical_bytes (str "2001:db8::1")
    = IPv6Parser.to_canonical_bytes
        (str "2001:0db8:0000:0000:0000:0000:0000:0001").
Proof.
  split; [|reflexivity].
  intros gs t1 t2 H1 H2. exists (key_of gs).
  split; [|split; by apply canonical_of_text].
  rewrite key_of_length. by destruct H1 as [? -> _|? ? ? ? ? _ -> _ _ _].
Qed.

Lemma C4_witness :
  let gs := [0x2001; 0xdb8; 0; 0; 0; 0; 0; 1] in
  address_text gs (str "2001:DB8::1")
  ∧ address_text gs (str "2001:0db8:0000:0000:0000:0000:0000:0001")
  ∧ ∃ key, length key = IPV6_BYTES_LEN
           ∧ IPv6Parser.to_canonical_bytes (str "2001:DB8::1") = Ok key
           ∧ IPv6Parser.to_canonical_bytes
               (str "2001:0db8:0000:0000:0000:0000:0000:0001") = Ok key.
Proof.
  intros gs.
  assert (address_text gs (str "2001:DB8::1")) as H1.
  { apply (compressed_text gs [0x2001; 0xdb8] [1] 5
             [str "2001"; str "DB8"] [str "1"]);
      [reflexivity|reflexivity|lia| |]; group_texts_tac. }
  assert (address_text gs (str "2001:0db8:0000:0000:0000:0000:0000:0001")) as H2.
  { apply (expanded_text gs
             [str "2001"; str "0db8"; str "0000"; str "0000"; str "0000";
              str "0000"; str "0000"; str "0001"]);
      [reflexivity|]; group_texts_tac. }
  split; [exact H1|]. split; [exact H2|].
  exact (proj1 C4_same_address_same_key gs _ _ H1 H2).
Defined.

(** C6: on a partition stream of 16-byte records, whatever the duplication
    and the order of the records and whatever the number of sorted blocks,
    the external-merge path returns the number of distinct records: it
    returns that number whenever it returns, and it does return when no
    operation fails, with the result of the in-memory path and of the exact
    set; it is the path that [count_unique] takes on a stream above the
    in-memory threshold. *)
Theorem C6_external_merge_counts_distinct n path rs w :
  aligned rs → temps w !! path = Some (concat rs) → (0 < n)%nat →
  (∀ count w',
     PartitionProcessor._count_unique_external_blocks n path w = (Ok count, w') →
     count = distinct rs)
  ∧ (calm w →
     PartitionProcessor._count_unique_external_blocks n path w
     = (Ok (distinct rs), w)
     ∧ PartitionProcessor._count_unique_external path w = (Ok (distinct rs), w)
     ∧ PartitionProcessor._count_unique_in_memory path w = (Ok (distinct rs), w)
     ∧ (TARGET_PARTITION_SIZE < Z.of_nat (length (concat rs)) →
        PartitionProcessor.count_unique path w
        = PartitionProcessor._count_unique_external path w)).
Proof.
  intros Hrs Hp Hn. split.
  { intros count w' Hrun.
    by destruct (count_unique_external_returns n path rs w count w' Hrs Hp Hn Hrun). }
  intros Hw. split_and!.
  - by apply count_unique_external_calm.
  - apply count_unique_external_calm; auto using records_per_block_pos.
  - by apply count_unique_in_memory_calm.
  - intros Hbig. unfold PartitionProcessor.count_unique.
    rewrite (bind_ok _ _ _ _ _ (getsize_calm _ _ w Hw Hp)).
    by destruct (Z.leb_spec (Z.of_nat (length (concat rs))) TARGET_PARTITION_SIZE);
      [lia|].
Qed.

Lemma C6_witness :
  let rs := [sample_key 3; sample_key 1; sample_key 3; sample_key 2; sample_key 1] in
  let w := sample_partition rs [] in
  distinct rs = 3%nat
  ∧ PartitionProcessor._count_unique_external_blocks 2 0 w = (Ok 3%nat, w)
  ∧ PartitionProcessor._count_unique_external 0 w = (Ok 3%nat, w).
Proof.
  intros rs w.
  assert (distinct rs = 3%nat) as Hd by (vm_compute; reflexivity).
  assert (calm w) as Hw by reflexivity.
  assert (aligned rs) as Hrs by (repeat constructor).
  assert (temps w !! 0%nat = Some (concat rs)) as Hp by reflexivity.
  assert (0 < 2)%nat as Hn by lia.
  destruct (proj2 (C6_external_merge_counts_distinct 2 0%nat rs w Hrs Hp Hn) Hw)
    as (H1 & H2 & _).
  rewrite Hd in H1, H2. by split_and!.
Defined.

(** C7 as it is written fails: the merge writes a merged file, which is on
    disk when [_external_sort] returns. *)
Lemma C7_merged_file_on_disk :
  let rs := [sample_key 3; sample_key 1; sample_key 3; sample_key 2; sample_key 1] in
  let r := PartitionProcessor._external_sort 0 (sample_partition rs []) in
  r.1 = Ok 2%nat
  ∧ temps r.2 !! 2%nat
    = Some (concat [sample_key 1; sample_key 1; sample_key 2;
                    sample_key 3; sample_key 3]).
Proof. vm_compute. done. Qed.

(** C7, amended: the external-merge path merges the sorted blocks, through
    the heap, into one merged file on disk, which holds the records in
    order; the distinct records are counted afterwards, in a scan of that
    file, and the file is deleted at the end of the scan. *)
Theorem C7_merge_to_file_then_scan n path rs w :
  calm w → aligned rs → temps w !! path = Some (concat rs) → (0 < n)%nat →
  ∃ merged_path,
    temps w !! merged_path = None
    ∧ PartitionProcessor._external_sort_blocks n path w
      = (Ok merged_path,
         with_temps (<[merged_path := concat (sort_records rs)]> (temps w)) w)
    ∧ PartitionProcessor.count_sorted_file merged_path
        (with_temps (<[merged_path := concat (sort_records rs)]> (temps w)) w)
      = (Ok (distinct rs), w).
Proof.
  intros Hw Hrs Hp Hn.
  destruct (external_sort_calm n path rs w Hw Hrs Hp Hn) as (r & Hr & Hrun).
  exists r. split_and!; [done..|].
  rewrite (count_sorted_file_calm r (sort_records rs));
    [|done|by apply sort_records_aligned|apply sort_records_sorted
     |by rewrite temps_with_temps, lookup_insert_eq].
  rewrite temps_with_temps, with_temps_twice, delete_insert_id by done.
  rewrite with_temps_id by done.
  by rewrite (distinct_perm _ _ (sort_records_perm rs)).
Qed.

Lemma C7_witness :
  let rs := [sample_key 3; sample_key 1; sample_key 3; sample_key 2; sample_key 1] in
  let w := sample_partition rs [] in
  ∃ merged_path,
    temps w !! merged_path = None
    ∧ PartitionProcessor._external_sort_blocks 2 0 w
      = (Ok merged_path,
         with_temps (<[merged_path := concat (sort_records rs)]> (temps w)) w)
    ∧ PartitionProcessor.count_sorted_file merged_path
        (with_temps (<[merged_path := concat (sort_records rs)]> (temps w)) w)
      = (Ok (distinct rs), w).
Proof.
  intros rs w.
  apply (C7_merge_to_file_then_scan 2 0%nat rs w);
    [reflexivity|repeat constructor|reflexivity|lia].
Defined.

Lemma collect_counts_total task ps total w :
  ∃ n w', Counter.collect_counts task ps total w = (Ok n, w').
Proof.
  revert total w. induction ps as [|p ps IH]; intros total w.
  { simpl. unfold ret. eauto. }
  cbn [Counter.collect_counts].
  destruct (task p w) as [[c|e] w1] eqn:Htask.
  - erewrite bind_ok; [apply IH|].
    apply try_except_ok. erewrite bind_ok by done. reflexivity.
  - erewrite bind_ok; [apply IH|].
    erewrite try_except_raise; [reflexivity|].
    by erewrite bind_raise.
Qed.

(** C5: the partition of a key is a function of the key alone, defined for
    every key and every number [n >= 1] of partitions, so that each key of a
    collection lies in the one bucket that its hash selects; the sum over the
    partitions of their distinct counts is the distinct count of the
    collection, for every [n], hence the same for any two numbers of
    partitions; and it is what [_process_partitions] returns on partition
    files that hold the buckets. *)
Theorem C5_partition_counts_add_up n keys :
  (0 < n)%nat →
  (∀ key, (FastHasher.get_partition key n < n)%nat)
  ∧ (∀ key i, key ∈ bucket n i keys
              ↔ key ∈ keys ∧ i = FastHasher.get_partition key n)
  ∧ sum_list ((λ i, distinct (bucket n i keys)) <$> seq 0 n) = distinct keys
  ∧ (∀ m, (0 < m)%nat →
       sum_list ((λ i, distinct (bucket m i keys)) <$> seq 0 m)
       = sum_list ((λ i, distinct (bucket n i keys)) <$> seq 0 n))
  ∧ (∀ self ps w,
       calm w → aligned keys → length ps = n → holds ps n keys w →
       ∃ w', Counter._process_partitions self ps w = (Ok (distinct keys), w')).
Proof.
  intros Hn. split_and!.
  - intros key. by apply get_partition_lt.
  - intros key i. unfold bucket. rewrite list_elem_of_filter.
    split; [intros [<- ?]|intros [? ->]]; done.
  - by apply bucket_distinct.
  - intros m Hm. by rewrite !bucket_distinct.
  - intros self ps w Hw Hal Hlen Hholds.
    destruct (collect_counts_calm ps _ 0 w Hw
                (holds_buckets ps n keys w Hlen Hal Hholds))
      as (w' & Hrun & _).
    exists w'. unfold Counter._process_partitions. rewrite Hrun.
    rewrite <-list_fmap_compose, Nat.add_0_l.
    change (distinct ∘ _) with (λ i, distinct (bucket n i keys)).
    by rewrite bucket_distinct.
Qed.

Lemma C5_witness :
  let keys := [sample_key 3; sample_key 1; sample_key 3; sample_key 2; sample_key 1] in
  (0 < 4)%nat
  ∧ sum_list ((λ i, distinct (bucket 4 i keys)) <$> seq 0 4) = distinct keys
  ∧ sum_list ((λ i, distinct (bucket 7 i keys)) <$> seq 0 7)
    = sum_list ((λ i, distinct (bucket 4 i keys)) <$> seq 0 4).
Proof.
  intros keys.
  assert (0 < 4)%nat as Hn by lia.
  destruct (C5_partition_counts_add_up 4 keys Hn) as (_ & _ & Hsum & Hinv & _).
  split; [exact Hn|]. split; [exact Hsum|]. apply Hinv. lia.
Defined.

Lemma bind_ext {A B} (m : M A) (k1 k2 : A → M B) w :
  (∀ a w', k1 a w' = k2 a w') → bind m k1 w = bind m k2 w.
Proof. intros H. unfold bind. destruct (m w) as [[a|e] w']; [apply H|done]. Qed.

Lemma bind_ext_l {A B} (m1 m2 : M A) (k : A → M B) w :
  m1 w = m2 w → bind m1 k w = bind m2 k w.
Proof. intros H. unfold bind. by rewrite H. Qed.

Lemma process_lines_self self1 self2 lines writer n w :
  Counter.process_lines self1 lines writer n w
  = Counter.process_lines self2 lines writer n w.
Proof.
  revert w. induction lines as [|raw lines IH]; intros w; [done|].
  cbn [Counter.process_lines]. cbn zeta.
  apply bind_ext. intros _ w'. apply IH.
Qed.

Lemma count_unique_self self1 self2 input_path output_path w :
  Counter.count_unique self1 input_path output_path w
  = Counter.count_unique self2 input_path output_path w.
Proof.
  unfold Counter.count_unique, with_temporary_directory.
  apply bind_ext. intros _ w1.
  match goal with
  | |- (let '(ra, wa) := ?b1 w1 in _) = (let '(rb, wb) := ?b2 w1 in _) =>
      enough (b1 w1 = b2 w1) as -> by done
  end.
  apply bind_ext. intros n w2. apply bind_ext. intros _ w3.
  apply bind_ext_l. unfold Counter._distribute_addresses.
  apply bind_ext. intros writer w4. apply bind_ext. intros mm w5.
  apply bind_ext_l, process_lines_self.
Qed.

(** C10: the memory-limit argument has no effect on the result of a run nor
    on the choice between the in-memory and the external path: the field
    [memory_limit_mb] is stored and never read, and the threshold is the
    constant [TARGET_PARTITION_SIZE] of 64 MiB. *)
Theorem C10_memory_limit_is_ignored :
  (∀ input_file output_file limit1 limit2 w,
     main input_file output_file limit1 w = main input_file output_file limit2 w)
  ∧ (∀ self1 self2 input_path output_path w,
       Counter.count_unique self1 input_path output_path w
       = Counter.count_unique self2 input_path output_path w)
  ∧ (∀ path content w,
       calm w → temps w !! path = Some content →
       PartitionProcessor.count_unique path w
       = if Z.of_nat (length content) <=? 64 * 1024 * 1024
         then PartitionProcessor._count_unique_in_memory path w
         else PartitionProcessor._count_unique_external path w).
Proof.
  split_and!.
  - intros. unfold main. destruct (path_exists input_file w) as [[[]|] w1]; try done.
    by rewrite (bind_ext_l _ _ _ w1
      (count_unique_self {| memory_limit_mb := limit1 |}
         {| memory_limit_mb := limit2 |} input_file output_file w1)).
  - intros. apply count_unique_self.
  - intros path content w Hw Hp. unfold PartitionProcessor.count_unique.
    rewrite (bind_ok _ _ _ _ _ (getsize_calm _ _ w Hw Hp)).
    unfold TARGET_PARTITION_SIZE. by destruct (_ <=? _).
Qed.

Lemma C10_witness :
  let w := sample_partition [sample_key 1] [] in
  main "in" "out" 1 (sample_world "::1" []) = main "in" "out" 4096 (sample_world "::1" [])
  ∧ PartitionProcessor.count_unique 0 w
    = PartitionProcessor._count_unique_in_memory 0 w.
Proof.
  intros w. split.
  - exact (proj1 C10_memory_limit_is_ignored "in"%string "out"%string 1 4096 _).
  - exact (proj2 (proj2 C10_memory_limit_is_ignored) 0%nat (concat [sample_key 1]) w
             eq_refl eq_refl).
Defined.

(** C1 (the code departs from it on the empty file): for every non-empty
    input file of ASCII text, in an environment without failures, the run
    ends with exit status 0 and the output file holds the size of the exact
    set of the keys of the lines that parse.  For the empty file that set is
    empty, and the run ends with exit status 1 without an output file. *)
Theorem C1_total_of_a_run :
  (∀ input_file output_file memory_limit content w,
     calm w → files w !! input_file = Some content → content ≠ [] →
     ascii_text content →
     ∃ w', main input_file output_file memory_limit w = (0, w')
           ∧ files w'
             = <[output_file :=
                   str (pretty (size (list_to_set
                          (parsed_keys (input_lines content)) : gset bytes)))]>
                 (files w))
  ∧ (∀ input_file output_file memory_limit w,
       files w !! input_file = Some [] →
       size (list_to_set (parsed_keys (input_lines [])) : gset bytes) = 0%nat
       ∧ ∃ w', main input_file output_file memory_limit w = (1, w')
               ∧ files w' = files w).
Proof.
  split.
  - intros. by apply main_calm.
  - intros. split; [done|]. by apply main_empty.
Qed.

Lemma C1_witness :
  let w := sample_world scenario [] in
  (∃ w', main "in" "out" 1024 w = (0, w')
         ∧ files w' = <[ "out"%string := str "3" ]> (files w))
  ∧ (∃ w', main "in" "out" 1024 (sample_world "" []) = (1, w')
           ∧ files w' = files (sample_world "" [])).
Proof.
  intros w. split.
  - destruct (proj1 C1_total_of_a_run "in"%string "out"%string 1024
                (str scenario) w eq_refl eq_refl ltac:(discriminate) eq_refl)
      as (w' & Hrun & Hfiles).
    exists w'. split; [exact Hrun|]. rewrite Hfiles.
    by vm_compute.
  - exact (proj2 (proj2 C1_total_of_a_run "in"%string "out"%string 1024
                    (sample_world "" []) eq_refl)).
Defined.

(** C3 (the code departs from it on the empty file): a run on an empty
    input file ends with exit status 1 and writes no output, whatever the
    environment; a run on one valid line, and a run on the same address
    repeated on [m >= 1] lines, write the output [1]. *)
Theorem C3_boundary_runs :
  (∀ input_file output_file memory_limit w,
     files w !! input_file = Some [] →
     ∃ w', main input_file output_file memory_limit w = (1, w')
           ∧ files w' = files w)
  ∧ (∀ input_file output_file memory_limit line key w,
       calm w → Counter.newline ∉ line →
       IPv6Parser.to_canonical_bytes line = Ok key →
       (files w !! input_file = Some line
        ∨ files w !! input_file = Some (line ++ [Counter.newline])) →
       ∃ w', main input_file output_file memory_limit w = (0, w')
             ∧ files w' = <[output_file := str "1"]> (files w))
  ∧ (∀ input_file output_file memory_limit line key m w,
       calm w → Counter.newline ∉ line → (0 < m)%nat →
       IPv6Parser.to_canonical_bytes line = Ok key →
       files w !! input_file = Some (unlines (replicate m line)) →
       ∃ w', main input_file output_file memory_limit w = (0, w')
             ∧ files w' = <[output_file := str "1"]> (files w)).
Proof.
  split_and!.
  - intros. by apply main_empty.
  - intros. by eapply single_line_run.
  - intros. by eapply repeated_line_run.
Qed.

Lemma C3_witness :
  (∃ w', main "in" "out" 1024 (sample_world "" []) = (1, w')
         ∧ files w' !! "out"%string = None)
  ∧ (∃ w', main "in" "out" 1024 (sample_world "::1" []) = (0, w')
           ∧ files w' !! "out"%string = Some (str "1"))
  ∧ (∃ w', main "in" "out" 1024
             (sample_world ("::1" ++ line_feed ++ "::1" ++ line_feed
                            ++ "::1" ++ line_feed) []) = (0, w')
           ∧ files w' !! "out"%string = Some (str "1")).
Proof.
  assert (Counter.newline ∉ str "::1") as Hnl.
  { intros H. by repeat (apply elem_of_cons in H as [H|H]; [discriminate H|]);
      apply elem_of_nil in H. }
  assert (IPv6Parser.to_canonical_bytes (str "::1")
          = Ok (replicate 15 0 ++ [1])) as Hkey by reflexivity.
  split_and!.
  - destruct (proj1 C3_boundary_runs "in"%string "out"%string 1024
                (sample_world "" []) eq_refl) as (w' & Hrun & Hfiles).
    exists w'. split; [exact Hrun|]. by rewrite Hfiles.
  - destruct (proj1 (proj2 C3_boundary_runs) "in"%string "out"%string 1024
                (str "::1") _ (sample_world "::1" []) eq_refl Hnl Hkey
                (or_introl eq_refl)) as (w' & Hrun & Hfiles).
    exists w'. split; [exact Hrun|]. by rewrite Hfiles, lookup_insert_eq.
  - destruct (proj2 (proj2 C3_boundary_runs) "in"%string "out"%string 1024
                (str "::1") _ 3%nat
                (sample_world ("::1" ++ line_feed ++ "::1" ++ line_feed
                               ++ "::1" ++ line_feed) [])
                eq_refl Hnl ltac:(lia) Hkey eq_refl) as (w' & Hrun & Hfiles).
    exists w'. split; [exact Hrun|]. by rewrite Hfiles, lookup_insert_eq.
Defined.

(** The scenario of the specification, run from end to end. *)
Example scenario_run :
  let r := main "in" "out" 1024 (sample_world scenario []) in
  r.1 = 0 ∧ files r.2 !! "out"%string = Some (str "3").
Proof. vm_compute. done. Qed.

(** * Further properties of the code *)

(** ** The canonicalizer *)

Lemma pack_H_bytes v packed :
  pack_H v = Ok packed → Forall (λ b, 0 ≤ b < 256) packed.
Proof.
  unfold pack_H. destruct (_ && _) eqn:E; [|done].
  apply andb_true_iff in E as [H0%Z.leb_le H1%Z.leb_le].
  intros [= <-]. repeat constructor.
  - by apply Z.div_pos.
  - apply Z.div_lt_upper_bound; lia.
  - apply Z.mod_pos_bound; lia.
  - apply Z.mod_pos_bound; lia.
Qed.

Lemma groups_to_bytes_bytes groups key :
  IPv6Parser._groups_to_bytes groups = Ok key → Forall (λ b, 0 ≤ b < 256) key.
Proof.
  revert key. induction groups as [|g groups IH]; intros key.
  { intros [= <-]. constructor. }
  cbn [IPv6Parser._groups_to_bytes].
  destruct (IPv6Parser.group_value g) as [v|]; [|done]. cbn [rbind].
  destruct (pack_H v) as [packed|] eqn:Hp; [|done]. cbn [rbind].
  destruct (IPv6Parser._groups_to_bytes groups) as [tail|]; [|done].
  intros [= <-]. apply Forall_app; split; [by eapply pack_H_bytes|by apply IH].
Qed.

Lemma canonical_bytes line key :
  IPv6Parser.to_canonical_bytes line = Ok key → Forall (λ b, 0 ≤ b < 256) key.
Proof.
  unfold IPv6Parser.to_canonical_bytes. cbn zeta.
  set (addr := strip (lower line)). destruct (has_dcolon addr).
  - unfold IPv6Parser._expand_compressed.
    destruct (split_dcolon addr) as [|p0 [|p1 [|? ?]]]; try done.
    cbn zeta. destruct (_ <? 0); [done|]. apply groups_to_bytes_bytes.
  - cbn zeta. case_bool_decide; [done|]. apply groups_to_bytes_bytes.
Qed.

(** X1: whenever the canonicalizer returns a key, the key has exactly 16
    bytes and each of them is a byte value, between 0 and 255. *)
Theorem canonical_key_shape line key :
  IPv6Parser.to_canonical_bytes line = Ok key →
  length key = 16%nat ∧ Forall (λ b, 0 ≤ b < 256) key.
Proof.
  intros H. split; [by apply canonical_length in H|by eapply canonical_bytes].
Qed.

Lemma canonical_key_shape_witness :
  IPv6Parser.to_canonical_bytes (str "FE80::A:1") = Ok [254; 128; 0; 0; 0; 0; 0; 0; 0; 0; 0; 0; 0; 10; 0; 1]
  ∧ length [254; 128; 0; 0; 0; 0; 0; 0; 0; 0; 0; 0; 0; 10; 0; 1] = 16%nat
  ∧ Forall (λ b, 0 ≤ b < 256) [254; 128; 0; 0; 0; 0; 0; 0; 0; 0; 0; 0; 0; 10; 0; 1].
Proof.
  split; [reflexivity|].
  exact (canonical_key_shape (str "FE80::A:1") _ eq_refl).
Defined.

Lemma key_of_inj gs1 gs2 : key_of gs1 = key_of gs2 → gs1 = gs2.
Proof.
  revert gs2. induction gs1 as [|v1 gs1 IH]; intros [|v2 gs2]; try done.
  unfold key_of. rewrite !fmap_cons. cbn [concat app].
  intros [= Hd Hm Hrest]. f_equal; [|by apply IH].
  rewrite (Z.div_mod v1 256), (Z.div_mod v2 256) by lia. congruence.
Qed.

(** X2: the canonicalizer never conflates two addresses: two textual forms
    get the same key exactly when they denote the same eight groups. *)
Theorem distinct_addresses_distinct_keys gs1 gs2 t1 t2 :
  address_text gs1 t1 → address_text gs2 t2 →
  IPv6Parser.to_canonical_bytes t1 = IPv6Parser.to_canonical_bytes t2
  ↔ gs1 = gs2.
Proof.
  intros H1 H2.
  rewrite (canonical_of_text _ _ H1), (canonical_of_text _ _ H2).
  split; [intros [= H]; by apply key_of_inj|by intros ->].
Qed.

Lemma distinct_addresses_distinct_keys_witness :
  let gs1 := [0x2001; 0xdb8; 0; 0; 0; 0; 0; 1] in
  let gs2 := [0x2001; 0xdb8; 0; 0; 0; 0; 1; 0] in
  address_text gs1 (str "2001:DB8::1")
  ∧ address_text gs2 (str "2001:db8::1:0")
  ∧ (IPv6Parser.to_canonical_bytes (str "2001:DB8::1")
     = IPv6Parser.to_canonical_bytes (str "2001:db8::1:0")
     ↔ gs1 = gs2).
Proof.
  intros gs1 gs2.
  assert (address_text gs1 (str "2001:DB8::1")) as H1.
  { apply (compressed_text gs1 [0x2001; 0xdb8] [1] 5
             [str "2001"; str "DB8"] [str "1"]);
      [reflexivity|reflexivity|lia| |]; group_texts_tac. }
  assert (address_text gs2 (str "2001:db8::1:0")) as H2.
  { apply (compressed_text gs2 [0x2001; 0xdb8] [1; 0] 4
             [str "2001"; str "db8"] [str "1"; str "0"]);
      [reflexivity|reflexivity|lia| |]; group_texts_tac. }
  split; [exact H1|]. split; [exact H2|].
  exact (distinct_addresses_distinct_keys gs1 gs2 _ _ H1 H2).
Defined.

Lemma lstrip_space_pad pre s :
  Forall (λ c, is_space c = true) pre → lstrip_space (pre ++ s) = lstrip_space s.
Proof. induction 1 as [|c pre Hc _ IH]; [done|]. simpl. by rewrite Hc. Qed.

Lemma rstrip_space_pad s post :
  Forall (λ c, is_space c = true) post →
  lstrip_space (reverse (lstrip_space (s ++ post)))
  = lstrip_space (reverse (lstrip_space s)).
Proof.
  intros Hpost. induction s as [|c s IH].
  { simpl. rewrite <-(app_nil_r post), lstrip_space_pad by done. done. }
  simpl. destruct (is_space c) eqn:Hc; [done|].
  rewrite app_comm_cons, reverse_app.
  apply lstrip_space_pad. by apply Forall_reverse.
Qed.

Lemma strip_pad pre s post :
  Forall (λ c, is_space c = true) pre → Forall (λ c, is_space c = true) post →
  strip (pre ++ s ++ post) = strip s.
Proof.
  intros Hpre Hpost. unfold strip.
  by rewrite lstrip_space_pad, rstrip_space_pad.
Qed.

(** X3: the result of the canonicalizer, key or error, depends neither on
    the case of the letters nor on white space around the text. *)
Theorem canonical_ignores_case_and_padding pre post t1 t2 :
  Forall (λ c, is_space c = true) pre → Forall (λ c, is_space c = true) post →
  lower t1 = lower t2 →
  IPv6Parser.to_canonical_bytes (pre ++ t1 ++ post)
  = IPv6Parser.to_canonical_bytes t2.
Proof.
  intros Hpre Hpost Ht.
  rewrite <-(canonical_strip (pre ++ t1 ++ post)), strip_pad by done.
  rewrite canonical_strip.
  unfold IPv6Parser.to_canonical_bytes. cbn zeta. by rewrite Ht.
Qed.

Lemma canonical_ignores_case_and_padding_witness :
  IPv6Parser.to_canonical_bytes (str " " ++ str "2001:DB8::Ff" ++ [chr 13])
  = IPv6Parser.to_canonical_bytes (str "2001:db8::fF").
Proof.
  apply canonical_ignores_case_and_padding; [by repeat constructor..|reflexivity].
Defined.

(** *** Groups of any width *)

Lemma hex_group_value g :
  g ≠ [] → Forall is_hex g → IPv6Parser.group_value g = Ok (hex_val 0 g).
Proof.
  intros Hne Hhex. unfold IPv6Parser.group_value.
  rewrite (bool_decide_eq_false_2 _ Hne). simpl.
  case_bool_decide as E; [by subst|].
  destruct (lstrip_char "0" g) as [|c r] eqn:El.
  - rewrite <-hex_val_lstrip, El. reflexivity.
  - rewrite <-hex_val_lstrip, El.
    pose proof (lstrip_char_hex g Hhex) as Hh. rewrite El in Hh.
    apply Forall_cons in Hh as [Hc Hr].
    apply int16_hex; eauto using lstrip_char_head.
Qed.

Lemma hex_group_lower g : hex_group g → hex_group (lower g).
Proof.
  intros [Hne Hhex]. split; [by destruct g|].
  unfold lower. apply Forall_fmap. eapply Forall_impl; [done|].
  intros c Hc. unfold is_hex, compose. by rewrite hex_lower.
Qed.

Lemma hex_group_plain g : hex_group g → plain_group g.
Proof.
  intros [Hne Hhex]. split; [done|].
  eapply Forall_impl; [done|]. intros c Hc. by apply hex_not_special.
Qed.

Lemma hex_groups_no_space ts : Forall hex_group ts → no_space (join_colon ts).
Proof.
  assert (∀ g, hex_group g → no_space g) as Hg.
  { intros g [_ Hhex]. eapply Forall_impl; [done|]. apply hex_not_space. }
  assert (∀ ts, Forall hex_group ts → no_space (sep_tail ts)) as Ht.
  { induction 1 as [|g ts' Hgr _ IH]; [constructor|].
    rewrite sep_tail_cons.
    constructor; [done|]. apply Forall_app; split; [by apply Hg|done]. }
  destruct 1 as [|g ts' Hgr Hrest]; [constructor|].
  apply Forall_app; split; [by apply Hg|by apply Ht].
Qed.

Lemma hex_groups_to_bytes ts :
  Forall hex_group ts →
  IPv6Parser._groups_to_bytes ts
  = if forallb (λ g, hex_val 0 g <? 65536) ts
    then Ok (key_of (hex_val 0 <$> ts))
    else Raise StructError.
Proof.
  induction 1 as [|g ts [Hne Hhex] _ IH]; [done|].
  cbn [IPv6Parser._groups_to_bytes forallb].
  rewrite hex_group_value by done. cbn [rbind].
  pose proof (hex_val_bound 0 g Hhex ltac:(lia)) as [Hpos _].
  unfold pack_H.
  destruct (Z.ltb_spec (hex_val 0 g) 65536) as [Hlt|Hge].
  - destruct (Z.leb_spec 0 (hex_val 0 g)), (Z.leb_spec (hex_val 0 g) 65535);
      try lia.
    cbn [andb rbind]. rewrite IH. by destruct (forallb _ ts).
  - destruct (Z.leb_spec (hex_val 0 g) 65535); [lia|].
    by rewrite andb_false_r.
Qed.

Lemma hex_groups_split ts :
  Forall hex_group ts → ts ≠ [] → split_char ":" (join_colon ts) = ts.
Proof.
  intros Hts Hne. destruct Hts as [|t ts Ht Hts]; [done|].
  apply split_char_join; [by apply hex_group_plain|].
  eapply Forall_impl; [done|]. intros g Hg. by apply hex_group_plain.
Qed.

(** X4: the number of digits of a group is not checked, only its value:
    eight groups of hexadecimal digits of any length give the key of their
    values when every value is at most [0xffff], leading zeros being free,
    and [struct.error] rather than [ValueError] otherwise. *)
Theorem group_width_is_not_checked ts :
  length ts = 8%nat → Forall hex_group ts →
  IPv6Parser.to_canonical_bytes (join_colon ts)
  = if forallb (λ g, hex_val 0 g <? 65536) ts
    then Ok (key_of (hex_val 0 <$> ts))
    else Raise StructError.
Proof.
  intros Hlen Hts.
  assert (Forall hex_group (lower <$> ts)) as Hlow.
  { apply Forall_fmap. eapply Forall_impl; [done|]. apply hex_group_lower. }
  unfold IPv6Parser.to_canonical_bytes. cbn zeta.
  rewrite lower_join, strip_id by by apply hex_groups_no_space.
  pose proof (has_dcolon_join (lower <$> ts) []) as Hd.
  rewrite app_nil_r in Hd. rewrite Hd.
  2:{ eapply Forall_impl; [done|]. apply hex_group_plain. }
  rewrite hex_groups_split by (done || by destruct ts).
  rewrite length_fmap, Hlen. rewrite bool_decide_eq_false_2 by (intros ?; done).
  rewrite hex_groups_to_bytes by done.
  assert (∀ g, hex_group g → hex_val 0 (lower g) = hex_val 0 g) as Hv.
  { intros g [_ Hhex]. by apply hex_val_lower. }
  clear -Hts Hv. induction Hts as [|g ts Hg Hts IH]; [done|].
  rewrite !fmap_cons. cbn [forallb]. rewrite (Hv g Hg).
  destruct (hex_val 0 g <? 65536); [|done]. cbn [andb].
  revert IH. destruct (forallb _ (lower <$> ts)), (forallb _ ts); try done.
  intros [= H%key_of_inj]. by rewrite H.
Qed.

Ltac hex_group_tac :=
  split;
    [discriminate
    | repeat (apply Forall_cons_2; [eexists; reflexivity|]); apply Forall_nil_2].

Ltac hex_groups_tac :=
  repeat (apply Forall_cons_2; [hex_group_tac|]); apply Forall_nil_2.

Lemma group_width_is_not_checked_witness :
  IPv6Parser.to_canonical_bytes (str "000000001:2:3:4:5:6:7:0FFFF")
  = Ok [0; 1; 0; 2; 0; 3; 0; 4; 0; 5; 0; 6; 0; 7; 255; 255]
  ∧ IPv6Parser.to_canonical_bytes (str "1:2:3:4:5:6:7:10000") = Raise StructError.
Proof.
  split.
  - apply (group_width_is_not_checked
             [str "000000001"; str "2"; str "3"; str "4"; str "5"; str "6";
              str "7"; str "0FFFF"]); [reflexivity|hex_groups_tac].
  - apply (group_width_is_not_checked
             [str "1"; str "2"; str "3"; str "4"; str "5"; str "6";
              str "7"; str "10000"]); [reflexivity|hex_groups_tac].
Defined.

(** *** Wrong numbers of groups *)

Lemma lower_app a b : lower (a ++ b) = lower a ++ lower b.
Proof. unfold lower. by rewrite fmap_app. Qed.

Lemma hex_groups_lower ts : Forall hex_group ts → Forall hex_group (lower <$> ts).
Proof.
  intros H. apply Forall_fmap. eapply Forall_impl; [done|]. apply hex_group_lower.
Qed.

Lemma hex_groups_plain ts : Forall hex_group ts → Forall plain_group ts.
Proof. intros H. eapply Forall_impl; [done|]. apply hex_group_plain. Qed.

Lemma dcolon_no_space : no_space (str "::").
Proof. by repeat constructor. Qed.

Lemma expanded_count_rejected ts :
  Forall hex_group ts → length ts ≠ 8%nat →
  IPv6Parser.to_canonical_bytes (join_colon ts) = Raise ValueError.
Proof.
  intros Hts%hex_groups_lower Hlen.
  unfold IPv6Parser.to_canonical_bytes. cbn zeta.
  rewrite lower_join, strip_id by by apply hex_groups_no_space.
  pose proof (has_dcolon_join (lower <$> ts) [] (hex_groups_plain _ Hts)) as Hd.
  rewrite app_nil_r in Hd. rewrite Hd.
  destruct ts as [|t ts]; [done|].
  rewrite hex_groups_split by done.
  rewrite length_fmap. by rewrite bool_decide_eq_true_2.
Qed.

Lemma compressed_count_rejected tl tr :
  Forall hex_group tl → Forall hex_group tr →
  (8 < length tl + length tr)%nat →
  IPv6Parser.to_canonical_bytes (join_colon tl ++ str "::" ++ join_colon tr)
  = Raise ValueError.
Proof.
  intros Hl%hex_groups_lower Hr%hex_groups_lower Hlen.
  unfold IPv6Parser.to_canonical_bytes. cbn zeta.
  rewrite !lower_app, !lower_join.
  change (lower (str "::")) with (str "::").
  rewrite strip_id.
  2:{ apply Forall_app; split; [by apply hex_groups_no_space|].
      apply Forall_app; split; [apply dcolon_no_space|by apply hex_groups_no_space]. }
  rewrite has_dcolon_found. unfold IPv6Parser._expand_compressed.
  rewrite split_dcolon_first by by rewrite has_dcolon_join by by apply hex_groups_plain.
  rewrite split_dcolon_none.
  2:{ rewrite <-(app_nil_r (join_colon _)).
      by rewrite has_dcolon_join by by apply hex_groups_plain. }
  rewrite !groups_of_join by by apply hex_groups_plain. cbn zeta.
  rewrite !length_fmap.
  by destruct (Z.ltb_spec (8 - Z.of_nat (length tl) - Z.of_nat (length tr)) 0);
    [|lia].
Qed.

Lemma two_dcolon_rejected tl tm tr :
  Forall hex_group tl → Forall hex_group tm → Forall hex_group tr →
  IPv6Parser.to_canonical_bytes
    (join_colon tl ++ str "::" ++ join_colon tm ++ str "::" ++ join_colon tr)
  = Raise ValueError.
Proof.
  intros Hl%hex_groups_lower Hm%hex_groups_lower Hr%hex_groups_lower.
  unfold IPv6Parser.to_canonical_bytes. cbn zeta.
  rewrite !lower_app, !lower_join.
  change (lower (str "::")) with (str "::").
  rewrite strip_id.
  2:{ apply Forall_app; split; [by apply hex_groups_no_space|].
      apply Forall_app; split; [apply dcolon_no_space|].
      apply Forall_app; split; [by apply hex_groups_no_space|].
      apply Forall_app; split; [apply dcolon_no_space|by apply hex_groups_no_space]. }
  rewrite has_dcolon_found. unfold IPv6Parser._expand_compressed.
  rewrite split_dcolon_first by by rewrite has_dcolon_join by by apply hex_groups_plain.
  rewrite split_dcolon_first by by rewrite has_dcolon_join by by apply hex_groups_plain.
  rewrite split_dcolon_none; [done|].
  rewrite <-(app_nil_r (join_colon _)).
  by rewrite has_dcolon_join by by apply hex_groups_plain.
Qed.

(** X5: a wrong number of groups is rejected with [ValueError]: groups
    joined by colons that are not eight, more than eight groups around a
    [::], and a text with two [::]. *)
Theorem wrong_group_count_is_rejected :
  (∀ ts, Forall hex_group ts → length ts ≠ 8%nat →
     IPv6Parser.to_canonical_bytes (join_colon ts) = Raise ValueError)
  ∧ (∀ tl tr, Forall hex_group tl → Forall hex_group tr →
       (8 < length tl + length tr)%nat →
       IPv6Parser.to_canonical_bytes
         (join_colon tl ++ str "::" ++ join_colon tr) = Raise ValueError)
  ∧ (∀ tl tm tr, Forall hex_group tl → Forall hex_group tm → Forall hex_group tr →
       IPv6Parser.to_canonical_bytes
         (join_colon tl ++ str "::" ++ join_colon tm ++ str "::" ++ join_colon tr)
       = Raise ValueError).
Proof.
  split_and!.
  - apply expanded_count_rejected.
  - apply compressed_count_rejected.
  - apply two_dcolon_rejected.
Qed.

Lemma wrong_group_count_is_rejected_witness :
  IPv6Parser.to_canonical_bytes (str "1:2:3:4:5:6:7") = Raise ValueError
  ∧ IPv6Parser.to_canonical_bytes (str "1:2:3:4:5::6:7:8:9") = Raise ValueError
  ∧ IPv6Parser.to_canonical_bytes (str "1::2::3") = Raise ValueError.
Proof.
  destruct wrong_group_count_is_rejected as (H1 & H2 & H3).
  split_and!.
  - apply (H1 [str "1"; str "2"; str "3"; str "4"; str "5"; str "6"; str "7"]);
      [hex_groups_tac|simpl; lia].
  - apply (H2 [str "1"; str "2"; str "3"; str "4"; str "5"]
              [str "6"; str "7"; str "8"; str "9"]);
      [hex_groups_tac|hex_groups_tac|simpl; lia].
  - apply (H3 [str "1"] [str "2"] [str "3"]); hex_groups_tac.
Defined.

(** ** The hash *)

Lemma hash_step_range h b : 0 ≤ Z.land (Z.lxor h b * 0x01000193) 0xffffffff < 2 ^ 32.
Proof.
  change 0xffffffff with (Z.ones 32). rewrite Z.land_ones by lia.
  apply Z.mod_pos_bound. lia.
Qed.

(** X6: [hash_bytes] is the 32-bit FNV-1a hash: it starts from the offset
    basis 2166136261, each byte is xored in and the result multiplied by the
    prime 16777619 modulo [2^32]; the hash lies in [0, 2^32) and the
    partition of a record is the hash modulo the number of partitions. *)
Theorem hash_bytes_is_fnv1a_32 :
  FastHasher.hash_bytes [] = 2166136261
  ∧ (∀ data byte,
       FastHasher.hash_bytes (data ++ [byte])
       = (Z.lxor (FastHasher.hash_bytes data) byte * 16777619) mod 2 ^ 32)
  ∧ (∀ data, 0 ≤ FastHasher.hash_bytes data < 2 ^ 32)
  ∧ (∀ data n, (0 < n)%nat →
       Z.of_nat (FastHasher.get_partition data n)
       = FastHasher.hash_bytes data mod Z.of_nat n).
Proof.
  split_and!.
  - reflexivity.
  - intros data byte. unfold FastHasher.hash_bytes. rewrite foldl_app. cbn [foldl].
    change 0xffffffff with (Z.ones 32). by rewrite Z.land_ones by lia.
  - intros data. induction data as [|byte data _] using rev_ind; [done|].
    unfold FastHasher.hash_bytes. rewrite foldl_app. cbn [foldl].
    apply hash_step_range.
  - intros data n Hn. unfold FastHasher.get_partition.
    rewrite Z2Nat.id; [done|]. apply Z.mod_pos_bound. lia.
Qed.

Lemma hash_bytes_is_fnv1a_32_witness :
  (0 < 256)%nat
  ∧ Z.of_nat (FastHasher.get_partition [97] 256) = FastHasher.hash_bytes [97] mod 256
  ∧ FastHasher.hash_bytes [97] = 0xe40c292c.
Proof.
  split; [lia|]. split; [|reflexivity].
  apply (proj2 (proj2 (proj2 hash_bytes_is_fnv1a_32)) [97] 256%nat). lia.
Defined.

(** ** Inversion of a run, and the files of the writer *)

Lemma bind_inv {A B} (m : M A) (k : A → M B) w r w' :
  bind m k w = (r, w') →
  (∃ a w1, m w = (Ok a, w1) ∧ k a w1 = (r, w'))
  ∨ (∃ e, m w = (Raise e, w') ∧ r = Raise e).
Proof.
  unfold bind. destruct (m w) as [[a|e] w1]; [eauto|].
  intros [= <- <-]. eauto.
Qed.

Lemma bind_inv_ok {A B} (m : M A) (k : A → M B) w b w' :
  bind m k w = (Ok b, w') → ∃ a w1, m w = (Ok a, w1) ∧ k a w1 = (Ok b, w').
Proof. intros [H|(e & _ & H)]%bind_inv; [done|discriminate H]. Qed.

Lemma tick_inv w r w' :
  tick w = (r, w') → w' = set_faults (λ _, faults w') w.
Proof.
  unfold tick. destruct w as [F T D L [|b s]]; simpl.
  - by intros [= <- <-].
  - by intros [= <- <-].
Qed.

Lemma tick_fields w r w' :
  tick w = (r, w') →
  files w' = files w ∧ temps w' = temps w ∧ tempdir w' = tempdir w
  ∧ stderr w' = stderr w.
Proof. intros ->%tick_inv. done. Qed.

Lemma close_any ps w r w' :
  PartitionWriter.close ps w = (r, w') →
  files w' = files w ∧ temps w' = temps w ∧ tempdir w' = tempdir w
  ∧ stderr w' = stderr w.
Proof.
  revert w. induction ps as [|p ps IH]; intros w.
  { by intros [= <- <-]. }
  cbn [PartitionWriter.close].
  intros [([] & w1 & Htick & Hrest)|(e & Htick & ->)]%bind_inv.
  - apply tick_fields in Htick as (Hf & Ht & Hd & Hl).
    apply IH in Hrest as (Hf' & Ht' & Hd' & Hl'). split_and!; congruence.
  - by apply tick_fields in Htick.
Qed.

Lemma writer_init_any n w ps w' :
  PartitionWriter.init n w = (Ok ps, w') →
  length ps = n ∧ NoDup ps
  ∧ (∀ p, p ∈ ps → temps w !! p = None ∧ temps w' !! p = Some [])
  ∧ (∀ q, q ∉ ps → temps w' !! q = temps w !! q)
  ∧ tempdir w' = list_to_set ps ∪ tempdir w
  ∧ files w' = files w ∧ stderr w' = stderr w.
Proof.
  revert w ps w'. induction n as [|n IH]; intros w ps w'.
  { intros [= <- <-]. split_and!; try done.
    - apply NoDup_nil_2.
    - by intros p ?%elem_of_nil.
    - by rewrite list_to_set_nil, (left_id_L ∅ (∪)). }
  cbn [PartitionWriter.init].
  intros (path & w2 & Hmk & Hrest)%bind_inv_ok.
  apply bind_inv_ok in Hrest as ([] & w3 & Hopen & Hrest).
  apply bind_inv_ok in Hrest as (rest & w4 & Hinit & [= <- <-]).
  unfold mkstemp in Hmk. apply bind_inv_ok in Hmk as ([] & w1 & Ht1 & [= <- <-]).
  apply tick_fields in Ht1 as (Hf1 & Ht1 & Hd1 & Hl1).
  unfold open_wb in Hopen. apply bind_inv_ok in Hopen as ([] & w2 & Ht2 & [= <-]).
  apply tick_fields in Ht2 as (Hf2 & Ht2 & Hd2 & Hl2). simpl in *.
  apply IH in Hinit as (Hlen & Hnd & Hnew & Hold & Hdir & Hfiles & Hlog).
  simpl in *. rewrite Ht2, Ht1 in *. rewrite Hd2, Hd1 in Hdir.
  set (path := fresh (dom (temps w))) in *.
  assert (temps w !! path = None) as Hfresh.
  { apply not_elem_of_dom, is_fresh. }
  assert (path ∉ rest) as Hnotin.
  { intros Hin. destruct (Hnew _ Hin) as [Hn _].
    by rewrite insert_insert_eq, lookup_insert_eq in Hn. }
  split_and!.
  - simpl. by rewrite Hlen.
  - by apply NoDup_cons_2.
  - intros p [->|Hin]%elem_of_cons.
    + split; [done|]. rewrite Hold by done.
      by rewrite insert_insert_eq, lookup_insert_eq.
    + destruct (Hnew _ Hin) as [Hn Hs]. split; [|done].
      rewrite insert_insert_eq in Hn.
      destruct (decide (p = path)) as [->|Hne]; [done|].
      by rewrite lookup_insert_ne in Hn.
  - intros q Hq. apply not_elem_of_cons in Hq as [Hne Hq].
    rewrite Hold by done. rewrite insert_insert_eq.
    by rewrite lookup_insert_ne.
  - rewrite Hdir.
    rewrite (comm_L (∪) {[path]} (list_to_set rest)). by rewrite <-(assoc_L (∪)).
  - congruence.
  - congruence.
Qed.

(** X7: when the constructor of [PartitionWriter] returns, under whatever
    schedule of failures, it has created one file per partition: the paths
    are pairwise distinct, none of them existed before, each file is empty
    and lies in the temporary directory of the run, and no other file has
    changed; and it does return when no operation fails. *)
Theorem writer_creates_fresh_empty_files n w :
  (∀ writer w',
     PartitionWriter.init n w = (Ok writer, w') →
     length (PartitionWriter.get_paths writer) = n
     ∧ NoDup (PartitionWriter.get_paths writer)
     ∧ (∀ p, p ∈ PartitionWriter.get_paths writer →
          temps w !! p = None ∧ temps w' !! p = Some [] ∧ p ∈ tempdir w')
     ∧ (∀ q, q ∉ PartitionWriter.get_paths writer → temps w' !! q = temps w !! q)
     ∧ files w' = files w ∧ stderr w' = stderr w)
  ∧ (calm w → ∃ writer w', PartitionWriter.init n w = (Ok writer, w')).
Proof.
  split.
  - intros writer w' Hrun. unfold PartitionWriter.get_paths.
    destruct (writer_init_any n w writer w' Hrun)
      as (Hlen & Hnd & Hnew & Hold & Hdir & Hfiles & Hlog).
    split_and!; try done.
    intros p Hp. destruct (Hnew p Hp) as [H1 H2]. split_and!; try done.
    rewrite Hdir. apply elem_of_union_l. by apply elem_of_list_to_set.
  - intros Hw. destruct (writer_init_calm n w Hw) as (ps & w' & Hrun & _). eauto.
Qed.

Lemma writer_creates_fresh_empty_files_witness :
  let w := sample_partition [sample_key 1] [false; false; false; false] in
  ∃ w', PartitionWriter.init 2 w = (Ok [1%nat; 2%nat], w')
        ∧ temps w' !! 1%nat = Some [] ∧ temps w' !! 2%nat = Some []
        ∧ temps w' !! 0%nat = temps w !! 0%nat.
Proof.
  intros w.
  destruct (PartitionWriter.init 2 w) as [r w'] eqn:Hrun.
  assert (r = Ok [1%nat; 2%nat]) as -> by (by vm_compute in Hrun; injection Hrun as <- _).
  exists w'. split; [done|].
  destruct (proj1 (writer_creates_fresh_empty_files 2 w) _ _ Hrun)
    as (_ & _ & Hnew & Hold & _).
  split_and!.
  - apply Hnew. unfold PartitionWriter.get_paths. apply elem_of_cons. by left.
  - apply Hnew. unfold PartitionWriter.get_paths.
    apply elem_of_cons. right. apply elem_of_cons. by left.
  - apply Hold. unfold PartitionWriter.get_paths.
    intros [H|[H|H%elem_of_nil]%elem_of_cons]%elem_of_cons; done.
Defined.

(** ** One line of the input *)

Lemma process_line_routes self line writer n key w :
  calm w → length writer = n → (0 < n)%nat →
  (∀ p, p ∈ writer → is_Some (temps w !! p)) →
  IPv6Parser.to_canonical_bytes line = Ok key →
  ∃ p content,
    writer !! FastHasher.get_partition key n = Some p
    ∧ temps w !! p = Some content
    ∧ Counter._process_line self line writer n w
      = (Ok (), with_temps (<[p := content ++ key]> (temps w)) w).
Proof.
  intros Hw Hlen Hn Hfiles Hkey.
  destruct (lookup_lt_is_Some_2 writer (FastHasher.get_partition key n)) as [p Hp].
  { rewrite Hlen. by apply get_partition_lt. }
  destruct (Hfiles p) as [content Hc]; [by eapply list_elem_of_lookup_2|].
  exists p, content. split_and!; [done..|].
  unfold Counter._process_line, try_except, bind, lift. rewrite Hkey.
  unfold PartitionWriter.write. rewrite Hp.
  by rewrite (write_calm _ _ key w Hw Hc).
Qed.

(** X8: in an environment without failure, [_process_line] on a line that
    parses appends the 16-byte key to the file of the partition that the
    hash selects, which exists for every key, and changes nothing else: no
    other file, no diagnostic. *)
Theorem valid_line_goes_to_its_partition self line writer n key w :
  calm w → length writer = n → (0 < n)%nat →
  (∀ p, p ∈ writer → is_Some (temps w !! p)) →
  IPv6Parser.to_canonical_bytes line = Ok key →
  ∃ p content w',
    writer !! FastHasher.get_partition key n = Some p
    ∧ temps w !! p = Some content
    ∧ Counter._process_line self line writer n w = (Ok (), w')
    ∧ temps w' = <[p := content ++ key]> (temps w)
    ∧ files w' = files w ∧ stderr w' = stderr w ∧ tempdir w' = tempdir w.
Proof.
  intros Hw Hlen Hn Hfiles Hkey.
  destruct (process_line_routes self line writer n key w Hw Hlen Hn Hfiles Hkey)
    as (p & content & Hp & Hc & Hrun).
  exists p, content. eexists. by split_and!.
Qed.

Lemma valid_line_goes_to_its_partition_witness :
  let self := {| memory_limit_mb := 1024 |} in
  let w := World ∅ {[ 5%nat := sample_key 7; 6%nat := [] ]} ∅ [] [] in
  ∃ p content w',
    [5%nat; 6%nat] !! FastHasher.get_partition (sample_key 1) 2 = Some p
    ∧ temps w !! p = Some content
    ∧ Counter._process_line self (str "::1") [5%nat; 6%nat] 2 w = (Ok (), w')
    ∧ temps w' = <[p := content ++ sample_key 1]> (temps w)
    ∧ files w' = files w ∧ stderr w' = stderr w ∧ tempdir w' = tempdir w.
Proof.
  intros self w.
  apply (valid_line_goes_to_its_partition self (str "::1") [5%nat; 6%nat] 2%nat
           (sample_key 1) w); [reflexivity|reflexivity|lia| |reflexivity].
  intros p [->|[->|H%elem_of_nil]%elem_of_cons]%elem_of_cons; [by eexists..|done].
Defined.

(** ** The number of partitions *)

(** X9: the number of partitions is the size of the input divided by
    167772160 (40 bytes a line, 4194304 records a partition), clamped to
    the interval from 1 to 256; it is 1 for every input below 335544320
    bytes; a missing input file makes the computation fail with
    [OSError]. *)
Theorem number_of_partitions self input_path w :
  (∀ n w',
     Counter._calculate_num_partitions self input_path w = (Ok n, w') →
     ∃ content,
       files w !! input_path = Some content
       ∧ Z.of_nat n = Z.min 256 (Z.max 1 (Z.of_nat (length content) / 167772160))
       ∧ (1 ≤ n ≤ 256)%nat
       ∧ (Z.of_nat (length content) < 335544320 → n = 1%nat))
  ∧ (files w !! input_path = None →
     ∃ w', Counter._calculate_num_partitions self input_path w = (Raise OSError, w')).
Proof.
  split.
  - intros n w'. unfold Counter._calculate_num_partitions.
    intros (size & w1 & Hsize & [= <- <-])%bind_inv_ok.
    unfold getsize_text in Hsize.
    apply bind_inv_ok in Hsize as ([] & w0 & Htick & Hsize).
    apply tick_fields in Htick as (Hf & _). rewrite Hf in Hsize.
    destruct (files w !! input_path) as [content|] eqn:Hin; [|done].
    injection Hsize as <- _. exists content. split; [done|].
    cbn zeta. unfold TARGET_PARTITION_SIZE, IPV6_BYTES_LEN.
    change (64 * 1024 * 1024 / Z.of_nat 16) with 4194304.
    rewrite Z.div_div by lia. change (40 * 4194304) with 167772160.
    set (q := Z.of_nat (length content) / 167772160).
    assert (0 ≤ q) as Hq by (apply Z.div_pos; lia).
    assert (Z.of_nat (length content) < 335544320 → q < 2) as Hsmall.
    { intros Hlt. apply Z.div_lt_upper_bound; lia. }
    clearbody q. split_and!; lia.
  - intros Hin. unfold Counter._calculate_num_partitions, getsize_text, bind.
    destruct (tick w) as [[[]|e] w1] eqn:Htick.
    + apply tick_fields in Htick as (Hf & _). rewrite Hf, Hin. eauto.
    + assert (e = OSError) as ->; [|eauto].
      unfold tick in Htick. destruct (faults w) as [|[] ?]; by simplify_eq.
Qed.

Lemma number_of_partitions_witness :
  let self := {| memory_limit_mb := 1024 |} in
  let w := sample_world "::1" [false] in
  ∃ content,
    files w !! "in"%string = Some content
    ∧ Z.of_nat 1 = Z.min 256 (Z.max 1 (Z.of_nat (length content) / 167772160))
    ∧ (1 ≤ 1 ≤ 256)%nat.
Proof.
  intros self w.
  destruct (proj1 (number_of_partitions self "in"%string w) 1%nat
              (set_faults (λ _, []) w) eq_refl) as (content & H1 & H2 & H3 & _).
  by exists content.
Defined.

(** ** Blank lines *)

(** X10: the ingestion loop skips the lines that are empty or made of
    white space, without any diagnostic nor operation on the files, and
    sees every other line stripped of the white space around it: it behaves
    on the lines as on the stripped non-blank ones, whatever the schedule of
    failures. *)
Theorem blank_lines_are_skipped self lines writer n w :
  Counter.process_lines self lines writer n w
  = Counter.process_lines self (filter (λ line, line ≠ []) (strip <$> lines))
      writer n w.
Proof.
  revert w. induction lines as [|raw lines IH]; intros w; [done|].
  rewrite fmap_cons, filter_cons. cbn [Counter.process_lines]. cbn zeta.
  case_bool_decide as Hblank.
  - rewrite decide_False by (by intros ?). apply IH.
  - rewrite decide_True by done. cbn [Counter.process_lines]. cbn zeta.
    rewrite strip_idem. rewrite (bool_decide_eq_false_2 _ Hblank).
    apply bind_ext. intros _ w'. apply IH.
Qed.

(** ** The diagnostics of the ingestion *)

Lemma process_lines_log self lines writer n w :
  calm w → length writer = n → (0 < n)%nat →
  (∀ p, p ∈ writer → is_Some (temps w !! p)) →
  ∃ w', Counter.process_lines self lines writer n w = (Ok (), w')
        ∧ calm w'
        ∧ stderr w' = stderr w ++ omap line_report lines.
Proof.
  intros Hw Hlen Hn. revert w Hw.
  induction lines as [|raw lines IH]; intros w Hw Hfiles.
  { exists w. simpl. by rewrite app_nil_r. }
  cbn [Counter.process_lines omap list_omap]. cbn zeta.
  unfold line_report at 1. cbn zeta.
  case_bool_decide as Hblank.
  { destruct (IH w Hw Hfiles) as (w' & Hrun & Hw' & Hlog). by exists w'. }
  destruct (IPv6Parser.to_canonical_bytes (strip raw)) as [key|e] eqn:Hkey.
  - destruct (process_line_routes self (strip raw) writer n key w Hw Hlen Hn
                Hfiles Hkey) as (p & content & Hp & Hc & Hrun).
    rewrite (bind_ok _ _ _ _ _ Hrun).
    destruct (IH (with_temps (<[p := content ++ key]> (temps w)) w))
      as (w' & Hrun' & Hw' & Hlog); [done| |by exists w'].
    intros q Hq. rewrite temps_with_temps.
    destruct (decide (q = p)) as [->|Hne].
    + rewrite lookup_insert_eq. by eexists.
    + rewrite lookup_insert_ne by done. by apply Hfiles.
  - rewrite (bind_ok _ _ _ _ _ (process_line_raise self _ writer n e w Hkey)).
    destruct (IH (set_stderr (λ log, log ++ [MsgLineError (strip raw) e]) w))
      as (w' & Hrun' & Hw' & Hlog); [done|done|].
    exists w'. split_and!; [done|done|]. rewrite Hlog. simpl. by rewrite <-app_assoc.
Qed.

(** X11: in an environment without failure, on an input of ASCII text, the
    ingestion emits one diagnostic for each non-blank line that the
    canonicalizer rejects, in the order of the lines, with the stripped line
    and its error, and nothing for the other lines. *)
Theorem one_diagnostic_per_rejected_line self input_path content n w :
  calm w → files w !! input_path = Some content → content ≠ [] →
  ascii_text content → (0 < n)%nat →
  ∃ writer w',
    Counter._distribute_addresses self input_path n w = (Ok writer, w')
    ∧ stderr w' = stderr w ++ omap line_report (input_lines content).
Proof.
  intros Hw Hin Hne _ Hn. unfold Counter._distribute_addresses.
  destruct (writer_init_calm n w Hw)
    as (ps & w1 & Hrun1 & Hw1 & Hfiles1 & Hlen & Hnd & Hnew & _).
  destruct (writer_init_any n w ps w1 Hrun1) as (_ & _ & _ & _ & _ & _ & Hlog1).
  rewrite (bind_ok _ _ _ _ _ Hrun1).
  rewrite <-Hfiles1 in Hin.
  rewrite (bind_ok _ _ _ _ _ (open_mmap_calm _ _ w1 Hw1 Hin Hne)).
  destruct (process_lines_log self (input_lines content) ps n w1)
    as (w2 & Hrun2 & Hw2 & Hlog2); [done..| |].
  { intros p Hp. destruct (Hnew p Hp) as [-> _]. by eexists. }
  fold (input_lines content). rewrite (bind_ok _ _ _ _ _ Hrun2).
  rewrite (bind_ok _ _ _ _ _ (close_calm ps w2 Hw2)).
  exists ps, w2. split; [done|]. by rewrite Hlog2, Hlog1.
Qed.

Lemma one_diagnostic_per_rejected_line_witness :
  let self := {| memory_limit_mb := 1024 |} in
  let content := ("::1" ++ line_feed ++ "1::2::3" ++ line_feed ++ "  " ++ line_feed
                  ++ "12345::" ++ line_feed ++ "::2")%string in
  let w := sample_world content [] in
  ∃ writer w',
    Counter._distribute_addresses self "in" 1 w = (Ok writer, w')
    ∧ stderr w' = [MsgLineError (str "1::2::3") ValueError;
                   MsgLineError (str "12345::") StructError].
Proof.
  intros self content w.
  destruct (one_diagnostic_per_rejected_line self "in"%string (str content) 1%nat w
              eq_refl eq_refl ltac:(discriminate) eq_refl ltac:(lia))
    as (writer & w' & Hrun & Hlog).
  exists writer, w'. split; [exact Hrun|]. rewrite Hlog. reflexivity.
Defined.

(** ** What a counting task leaves alone *)

Section Frame.
Context (F : gmap string text) (T : gmap nat bytes) (D : gset nat)
  (L : list message).

Local Abbreviation kept := (kept F T D L).
Local Abbreviation preserves := (preserves F T D L).

Lemma preserves_ret {A} (a : A) (Q : A → Prop) : Q a → preserves (ret a) Q.
Proof. intros HQ w r w' Hk [= <- <-]. done. Qed.

Lemma preserves_raise {A} e (Q : A → Prop) : preserves (raise e) Q.
Proof. intros w r w' Hk [= <- <-]. done. Qed.

Lemma preserves_bind {A B} (m : M A) (k : A → M B) Q R :
  preserves m Q → (∀ a, Q a → preserves (k a) R) → preserves (bind m k) R.
Proof.
  intros Hm Hk w r w' Hw [(a & w1 & Hrun & Hrest)|(e & Hrun & ->)]%bind_inv.
  - destruct (Hm _ _ _ Hw Hrun) as [Hw1 HQ]. by eapply Hk.
  - by destruct (Hm _ _ _ Hw Hrun) as [Hw1 _].
Qed.

Lemma preserves_weaken {A} (m : M A) (Q R : A → Prop) :
  preserves m Q → (∀ a, Q a → R a) → preserves m R.
Proof.
  intros Hm HQR w r w' Hw Hrun. destruct (Hm _ _ _ Hw Hrun) as [Hw' HQ].
  split; [done|]. destruct r; auto.
Qed.

Lemma kept_faults w s : kept w → kept (set_faults (λ _, s) w).
Proof. by intros []. Qed.

Lemma preserves_tick : preserves tick (λ _, True).
Proof.
  intros w r w' Hw Hrun. apply tick_inv in Hrun as ->.
  split; [by apply kept_faults|by destruct r].
Qed.

Lemma preserves_read n f (Q : bytes * bytes → Prop) :
  Q (take n f, drop n f) → preserves (read n f) Q.
Proof.
  intros HQ. unfold read. eapply preserves_bind; [apply preserves_tick|].
  intros _ _. by apply preserves_ret.
Qed.

Lemma preserves_open_rb path : preserves (open_rb path) (λ _, True).
Proof.
  unfold open_rb. eapply preserves_bind; [apply preserves_tick|].
  intros _ _ w r w' Hw. destruct (temps w !! path); intros [= <- <-]; done.
Qed.

Lemma preserves_getsize path : preserves (getsize path) (λ _, True).
Proof.
  unfold getsize. eapply preserves_bind; [apply preserves_tick|].
  intros _ _ w r w' Hw. destruct (temps w !! path); intros [= <- <-]; done.
Qed.

Lemma preserves_mkstemp : preserves (mkstemp false) (λ path, T !! path = None).
Proof.
  unfold mkstemp. eapply preserves_bind; [apply preserves_tick|].
  intros _ _ w r w' [Hf Ht Hd Hl] [= <- <-].
  assert (T !! fresh (dom (temps w)) = None) as Hnew.
  { apply not_elem_of_dom. intros Hin.
    apply (is_fresh (dom (temps w))). by apply (subseteq_dom T (temps w)). }
  split; [|done]. split; try done. simpl.
  by apply insert_subseteq_r.
Qed.

Lemma preserves_write path data :
  T !! path = None → preserves (write path data) (λ _, True).
Proof.
  intros Hnew. unfold write. eapply preserves_bind; [apply preserves_tick|].
  intros _ _ w r w' [Hf Ht Hd Hl].
  destruct (temps w !! path); intros [= <- <-]; [|done].
  split; [|done]. split; try done. simpl. by apply insert_subseteq_r.
Qed.

Lemma preserves_unlink path :
  T !! path = None → preserves (unlink path) (λ _, True).
Proof.
  intros Hnew. unfold unlink. eapply preserves_bind; [apply preserves_tick|].
  intros _ _ w r w' [Hf Ht Hd Hl].
  destruct (temps w !! path) eqn:Hp; intros [= <- <-]; [|done].
  split; [|done]. split; try done. simpl.
  apply map_subseteq_spec. intros q x Hq.
  rewrite lookup_delete_ne by (intros ->; congruence).
  by eapply lookup_weaken.
Qed.

Lemma preserves_read_records fuel f :
  preserves (PartitionProcessor.read_records fuel f) (λ _, True).
Proof.
  revert f. induction fuel as [|fuel IH]; intros f; [apply preserves_raise|].
  cbn [PartitionProcessor.read_records].
  eapply preserves_bind; [by apply (preserves_read _ _ (λ _, True))|].
  intros [chunk f'] _. destruct (PartitionProcessor.is_empty chunk).
  { by apply preserves_ret. }
  eapply preserves_bind; [apply IH|]. intros records _. by apply preserves_ret.
Qed.

Lemma preserves_count_unique_in_memory path :
  preserves (PartitionProcessor._count_unique_in_memory path) (λ _, True).
Proof.
  unfold PartitionProcessor._count_unique_in_memory.
  eapply preserves_bind; [apply preserves_open_rb|]. intros f _.
  eapply preserves_bind; [apply preserves_read_records|]. intros records _.
  by apply preserves_ret.
Qed.

Lemma preserves_read_block n f :
  preserves (PartitionProcessor.read_block n f) (λ _, True).
Proof.
  revert f. induction n as [|n IH]; intros f; [by apply preserves_ret|].
  cbn [PartitionProcessor.read_block].
  eapply preserves_bind; [by apply (preserves_read _ _ (λ _, True))|].
  intros [record f'] _. destruct (PartitionProcessor.is_empty record).
  { by apply preserves_ret. }
  eapply preserves_bind; [apply IH|]. intros [block f''] _. by apply preserves_ret.
Qed.

Lemma preserves_write_records path block :
  T !! path = None →
  preserves (PartitionProcessor.write_records path block) (λ _, True).
Proof.
  intros Hnew. induction block as [|record block IH]; [by apply preserves_ret|].
  cbn [PartitionProcessor.write_records].
  eapply preserves_bind; [by apply preserves_write|]. intros _ _. apply IH.
Qed.

Lemma preserves_split_blocks fuel n f :
  preserves (PartitionProcessor.split_blocks fuel n f)
    (Forall (λ path, T !! path = None)).
Proof.
  revert f. induction fuel as [|fuel IH]; intros f; [apply preserves_raise|].
  cbn [PartitionProcessor.split_blocks].
  eapply preserves_bind; [apply preserves_read_block|].
  intros [block f'] _. case_bool_decide.
  { by apply preserves_ret. }
  eapply preserves_bind; [apply preserves_mkstemp|]. intros temp_path Hnew.
  eapply preserves_bind; [by apply preserves_write_records|]. intros _ _.
  eapply preserves_bind; [apply IH|]. intros temp_files Hall.
  apply preserves_ret. by constructor.
Qed.

Lemma preserves_open_blocks temp_files heap file_handles :
  preserves (PartitionProcessor.open_blocks temp_files heap file_handles)
    (λ _, True).
Proof.
  revert heap file_handles.
  induction temp_files as [|temp_path rest IH]; intros heap file_handles.
  { by apply preserves_ret. }
  cbn [PartitionProcessor.open_blocks].
  eapply preserves_bind; [apply preserves_open_rb|]. intros f _.
  eapply preserves_bind; [by apply (preserves_read _ _ (λ _, True))|].
  intros [first_record f'] _. apply IH.
Qed.

Lemma preserves_merge_blocks fuel result_path heap file_handles :
  T !! result_path = None →
  preserves (PartitionProcessor.merge_blocks fuel result_path heap file_handles)
    (λ _, True).
Proof.
  intros Hnew. revert heap file_handles.
  induction fuel as [|fuel IH]; intros heap file_handles; [apply preserves_raise|].
  cbn [PartitionProcessor.merge_blocks].
  destruct (heappop heap) as [[[record file_idx] heap']|]; [|by apply preserves_ret].
  eapply preserves_bind; [by apply preserves_write|]. intros _ _.
  destruct (file_handles !! file_idx) as [f|]; [|apply preserves_raise].
  eapply preserves_bind; [by apply (preserves_read _ _ (λ _, True))|].
  intros [next_record f'] _. apply IH.
Qed.

Lemma preserves_unlink_all paths :
  Forall (λ path, T !! path = None) paths →
  preserves (PartitionProcessor.unlink_all paths) (λ _, True).
Proof.
  induction 1 as [|path paths Hnew _ IH]; [by apply preserves_ret|].
  cbn [PartitionProcessor.unlink_all].
  eapply preserves_bind; [by apply preserves_unlink|]. intros _ _. apply IH.
Qed.

Lemma preserves_external_sort n path :
  preserves (PartitionProcessor._external_sort_blocks n path)
    (λ result_path, T !! result_path = None).
Proof.
  unfold PartitionProcessor._external_sort_blocks.
  eapply preserves_bind; [apply preserves_open_rb|]. intros f _.
  eapply preserves_bind; [apply preserves_split_blocks|]. intros temp_files Hall.
  eapply preserves_bind; [apply preserves_mkstemp|]. intros result_path Hnew.
  eapply preserves_bind; [apply preserves_open_blocks|].
  intros [heap file_handles] _.
  eapply preserves_bind; [by apply preserves_merge_blocks|]. intros _ _.
  eapply preserves_bind; [by apply preserves_unlink_all|]. intros _ _.
  by apply preserves_ret.
Qed.

Lemma preserves_scan_sorted fuel f prev unique_count :
  preserves (PartitionProcessor.scan_sorted fuel f prev unique_count) (λ _, True).
Proof.
  revert f prev unique_count.
  induction fuel as [|fuel IH]; intros f prev unique_count; [apply preserves_raise|].
  cbn [PartitionProcessor.scan_sorted].
  eapply preserves_bind; [by apply (preserves_read _ _ (λ _, True))|].
  intros [chunk f'] _. destruct (PartitionProcessor.is_empty chunk).
  { by apply preserves_ret. }
  case_bool_decide; apply IH.
Qed.

Lemma preserves_count_sorted_file sorted_path :
  T !! sorted_path = None →
  preserves (PartitionProcessor.count_sorted_file sorted_path) (λ _, True).
Proof.
  intros Hnew. unfold PartitionProcessor.count_sorted_file.
  eapply preserves_bind; [apply preserves_open_rb|]. intros f _.
  eapply preserves_bind; [apply preserves_scan_sorted|]. intros unique_count _.
  eapply preserves_bind; [by apply preserves_unlink|]. intros _ _.
  by apply preserves_ret.
Qed.

Lemma preserves_count_unique path :
  preserves (PartitionProcessor.count_unique path) (λ _, True).
Proof.
  unfold PartitionProcessor.count_unique.
  eapply preserves_bind; [apply preserves_getsize|]. intros file_size _.
  destruct (file_size <=? TARGET_PARTITION_SIZE).
  { apply preserves_count_unique_in_memory. }
  unfold PartitionProcessor._count_unique_external,
    PartitionProcessor._count_unique_external_blocks.
  eapply preserves_bind; [apply preserves_external_sort|]. intros sorted_path Hnew.
  by apply preserves_count_sorted_file.
Qed.

End Frame.

Lemma count_unique_frame path w r w' :
  PartitionProcessor.count_unique path w = (r, w') →
  files w' = files w ∧ temps w ⊆ temps w' ∧ tempdir w' = tempdir w
  ∧ stderr w' = stderr w.
Proof.
  intros Hrun.
  destruct (preserves_count_unique (files w) (temps w) (tempdir w) (stderr w)
              path w r w') as [[] _]; done.
Qed.

(** X12: a counting task, whether it takes the in-memory or the external
    path and whether it returns a count or fails, never modifies nor deletes
    a temporary file that existed before the call, and touches neither the
    files of the caller, nor the temporary directory, nor the
    diagnostics. *)
Theorem counting_task_spares_existing_files :
  (∀ path w r w',
     PartitionProcessor.count_unique path w = (r, w') →
     (∀ q content, temps w !! q = Some content → temps w' !! q = Some content)
     ∧ files w' = files w ∧ tempdir w' = tempdir w ∧ stderr w' = stderr w)
  ∧ (∀ n path w r w',
       PartitionProcessor._count_unique_external_blocks n path w = (r, w') →
       (∀ q content, temps w !! q = Some content → temps w' !! q = Some content)
       ∧ files w' = files w ∧ tempdir w' = tempdir w ∧ stderr w' = stderr w).
Proof.
  split.
  - intros path w r w' Hrun.
    destruct (count_unique_frame path w r w' Hrun) as (Hf & Ht & Hd & Hl).
    split_and!; try done. intros q content Hq. by eapply lookup_weaken.
  - intros n path w r w' Hrun.
    assert (preserves (files w) (temps w) (tempdir w) (stderr w)
              (PartitionProcessor._count_unique_external_blocks n path)
              (λ _, True)) as Hpre.
    { unfold PartitionProcessor._count_unique_external_blocks.
      eapply preserves_bind; [apply preserves_external_sort|].
      intros sorted_path Hnew. by apply preserves_count_sorted_file. }
    destruct (Hpre w r w') as [[Hf Ht Hd Hl] _]; [done..|].
    split_and!; try done. intros q content Hq. by eapply lookup_weaken.
Qed.

Lemma counting_task_spares_existing_files_witness :
  let w := sample_partition [sample_key 3; sample_key 1]
             (replicate 8 false ++ [true]) in
  let r := PartitionProcessor._count_unique_external_blocks 2 0 w in
  r.1 = Raise OSError
  ∧ temps w !! 0%nat = Some (concat [sample_key 3; sample_key 1])
  ∧ temps r.2 !! 0%nat = Some (concat [sample_key 3; sample_key 1])
  ∧ files r.2 = files w.
Proof.
  intros w r.
  assert (PartitionProcessor._count_unique_external_blocks 2 0 w = (r.1, r.2)) as Hrun.
  { apply surjective_pairing. }
  destruct (proj2 counting_task_spares_existing_files 2%nat 0%nat w r.1 r.2 Hrun)
    as (Ht & Hf & _).
  split; [by vm_compute|]. split; [reflexivity|]. split; [|exact Hf].
  by apply Ht.
Defined.

(** ** The in-memory path only reads *)

Lemma reads_only_bind {A B} (m : M A) (k : A → M B) :
  reads_only m → (∀ a, reads_only (k a)) → reads_only (bind m k).
Proof.
  intros Hm Hk w r w' [(a & w1 & Hrun & Hrest)|(e & Hrun & ->)]%bind_inv.
  - apply Hm in Hrun. apply Hk in Hrest. rewrite Hrest, Hrun. done.
  - by apply Hm in Hrun.
Qed.

Lemma reads_only_ret {A} (a : A) : reads_only (ret a).
Proof. intros w r w' [= <- <-]. by destruct w. Qed.

Lemma reads_only_raise {A} e : reads_only (raise e : M A).
Proof. intros w r w' [= <- <-]. by destruct w. Qed.

Lemma reads_only_tick : reads_only tick.
Proof. intros w r w'. apply tick_inv. Qed.

Lemma reads_only_read n f : reads_only (read n f).
Proof.
  apply reads_only_bind; [apply reads_only_tick|]. intros _. apply reads_only_ret.
Qed.

Lemma reads_only_open_rb path : reads_only (open_rb path).
Proof.
  apply reads_only_bind; [apply reads_only_tick|]. intros _ w r w'.
  destruct (temps w !! path); intros [= <- <-]; by destruct w.
Qed.

Lemma reads_only_read_records fuel f :
  reads_only (PartitionProcessor.read_records fuel f).
Proof.
  revert f. induction fuel as [|fuel IH]; intros f; [apply reads_only_raise|].
  cbn [PartitionProcessor.read_records].
  apply reads_only_bind; [apply reads_only_read|]. intros [chunk f'].
  destruct (PartitionProcessor.is_empty chunk); [apply reads_only_ret|].
  apply reads_only_bind; [apply IH|]. intros records. apply reads_only_ret.
Qed.

(** X13: the in-memory path only reads: whatever its outcome, it leaves
    all files, the temporary directory and the diagnostics as they
    were. *)
Theorem in_memory_count_only_reads path w r w' :
  PartitionProcessor._count_unique_in_memory path w = (r, w') →
  files w' = files w ∧ temps w' = temps w ∧ tempdir w' = tempdir w
  ∧ stderr w' = stderr w.
Proof.
  intros Hrun.
  assert (reads_only (PartitionProcessor._count_unique_in_memory path)) as Hro.
  { unfold PartitionProcessor._count_unique_in_memory.
    apply reads_only_bind; [apply reads_only_open_rb|]. intros f.
    apply reads_only_bind; [apply reads_only_read_records|]. intros records.
    apply reads_only_ret. }
  apply Hro in Hrun. by rewrite Hrun.
Qed.

Lemma in_memory_count_only_reads_witness :
  let w := sample_partition [sample_key 3; sample_key 1] [false; false; true] in
  let r := PartitionProcessor._count_unique_in_memory 0 w in
  r.1 = Raise OSError ∧ temps r.2 = temps w ∧ stderr r.2 = stderr w.
Proof.
  intros w r.
  assert (PartitionProcessor._count_unique_in_memory 0 w = (r.1, r.2)) as Hrun.
  { apply surjective_pairing. }
  destruct (in_memory_count_only_reads 0%nat w r.1 r.2 Hrun) as (_ & Ht & _ & Hl).
  split; [by vm_compute|]. by split.
Defined.

(** ** A run under any schedule of failures *)

Lemma steady_getsize path : steady (getsize path).
Proof.
  apply steady_bind; [apply steady_tick|]. intros _ w a w'.
  change (temps (quiet w)) with (temps w).
  destruct (temps w !! path); by intros [= <- <-].
Qed.

Lemma steady_read_records fuel f :
  steady (PartitionProcessor.read_records fuel f).
Proof.
  revert f. induction fuel as [|fuel IH]; intros f; [by intros w a w'|].
  cbn [PartitionProcessor.read_records].
  apply steady_bind; [apply steady_read|]. intros [chunk f'].
  apply steady_if; [apply steady_ret|].
  apply steady_bind; [apply IH|]. intros records. apply steady_ret.
Qed.

Lemma steady_partition_count_unique path :
  steady (PartitionProcessor.count_unique path).
Proof.
  unfold PartitionProcessor.count_unique.
  apply steady_bind; [apply steady_getsize|]. intros file_size.
  apply steady_if; [|apply steady_count_unique_external].
  unfold PartitionProcessor._count_unique_in_memory.
  apply steady_bind; [apply steady_open_rb|]. intros f.
  apply steady_bind; [apply steady_read_records|]. intros records.
  apply steady_ret.
Qed.

(** Whenever a counting task returns a count, the count is exact. *)
Lemma partition_count_returns path rs w count w' :
  aligned rs → temps w !! path = Some (concat rs) →
  PartitionProcessor.count_unique path w = (Ok count, w') →
  count = distinct rs.
Proof.
  intros Hrs Hp Hrun. apply steady_partition_count_unique in Hrun.
  rewrite (partition_count_unique_calm path rs (quiet w)) in Hrun by done.
  by injection Hrun as <- _.
Qed.

(** The total of the counting pass is at most the sum of the exact counts
    of the partitions. *)
Lemma collect_counts_bound ps (rss : list (list bytes)) total w n w' :
  Forall2 (λ p rs, temps w !! p = Some (concat rs) ∧ aligned rs) ps rss →
  Counter.collect_counts PartitionProcessor.count_unique ps total w = (Ok n, w') →
  (n ≤ total + sum_list (distinct <$> rss))%nat
  ∧ files w' = files w ∧ temps w ⊆ temps w' ∧ tempdir w' = tempdir w.
Proof.
  intros Hall. revert total w Hall.
  induction rss as [|rs rss IH] in ps |- *; intros total w Hall.
  { apply Forall2_nil_inv_r in Hall as ->. intros [= <- <-]. simpl.
    split; [lia|done]. }
  apply Forall2_cons_inv_r in Hall as (p & ps' & [Hp Hrs] & Hall & ->).
  cbn [Counter.collect_counts].
  intros (total1 & w1 & Hhead & Hrest)%bind_inv_ok.
  assert (temps w ⊆ temps w1 ∧ files w1 = files w ∧ tempdir w1 = tempdir w
          ∧ (total1 ≤ total + distinct rs)%nat) as (Ht1 & Hf1 & Hd1 & Hle).
  { unfold try_except in Hhead.
    destruct (bind (PartitionProcessor.count_unique p) _ w) as [[t|e] w0] eqn:Htask.
    - injection Hhead as <- <-.
      apply bind_inv_ok in Htask as (count & w0' & Hcount & Htask).
      injection Htask as <- <-.
      pose proof (partition_count_returns _ _ _ _ _ Hrs Hp Hcount) as ->.
      apply count_unique_frame in Hcount as (Hf & Ht & Hd & _).
      by split_and!.
    - injection Hhead as <- <-.
      apply bind_inv in Htask as [(count & w0' & Hcount & Htask)|(e' & Hcount & _)].
      { by injection Htask. }
      apply count_unique_frame in Hcount as (Hf & Ht & Hd & _).
      split_and!; [done..|lia]. }
  apply IH in Hrest as (Hn & Hf & Ht & Hd).
  - split_and!; [|congruence|by etrans|congruence].
    rewrite fmap_cons. simpl. lia.
  - eapply Forall2_impl; [done|]. intros q rs' [Hq Hal]. split; [|done].
    by eapply lookup_weaken.
Qed.

Lemma bucket_app n i keys1 keys2 :
  bucket n i (keys1 ++ keys2) = bucket n i keys1 ++ bucket n i keys2.
Proof. unfold bucket. apply filter_app. Qed.

Lemma holds_part_more writer n keys more w :
  holds_part writer n keys w → holds_part writer n (keys ++ more) w.
Proof.
  intros Hholds i p Hp. destruct (Hholds i p Hp) as (ks & Hks & Hsub).
  exists ks. split; [done|]. rewrite bucket_app. by apply sublist_inserts_r.
Qed.

Lemma process_line_any self line writer n keys w :
  NoDup writer → length writer = n → (0 < n)%nat →
  holds_part writer n keys w →
  ∃ w', Counter._process_line self line writer n w = (Ok (), w')
        ∧ files w' = files w ∧ tempdir w' = tempdir w
        ∧ holds_part writer n (keys ++ parsed_keys [line]) w'
        ∧ (∀ q, q ∉ writer → temps w' !! q = temps w !! q).
Proof.
  intros Hnd Hlen Hn Hholds.
  unfold parsed_keys. cbn [omap list_omap]. unfold line_key.
  destruct (IPv6Parser.to_canonical_bytes line) as [key|e] eqn:Hkey.
  2:{ rewrite (process_line_raise self line writer n e w Hkey).
      eexists. split; [done|]. split_and!; try done. by rewrite app_nil_r. }
  set (j := FastHasher.get_partition key n).
  destruct (lookup_lt_is_Some_2 writer j) as [p Hp].
  { rewrite Hlen. by apply get_partition_lt. }
  destruct (Hholds j p Hp) as (ks & Hks & Hsub).
  unfold Counter._process_line, try_except, bind at 1, lift. rewrite Hkey.
  unfold PartitionWriter.write. fold j. rewrite Hp. unfold write, bind.
  destruct (tick w) as [[[]|e] w1] eqn:Htick;
    apply tick_fields in Htick as (Hf1 & Ht1 & Hd1 & Hl1).
  - rewrite Ht1, Hks. eexists. split; [done|]. simpl.
    split_and!; try done.
    + intros i q Hq. cbn [temps set_temps]. rewrite Ht1.
      destruct (decide (i = j)) as [->|Hij].
      * assert (q = p) as -> by congruence. rewrite lookup_insert_eq.
        exists (ks ++ [key]). split.
        { rewrite concat_app. simpl. by rewrite app_nil_r. }
        unfold j. rewrite bucket_snoc_same. by apply sublist_app.
      * rewrite lookup_insert_ne.
        { by apply (holds_part_more writer n keys [key] w). }
        intros <-. apply Hij. by eapply NoDup_lookup.
    + intros q Hq. rewrite Ht1, lookup_insert_ne; [done|].
      intros <-. apply Hq. by eapply list_elem_of_lookup_2.
  - eexists. split; [done|]. simpl. split_and!; try done.
    + intros i q Hq. cbn [temps set_stderr]. rewrite Ht1.
      by apply (holds_part_more writer n keys [key] w).
    + intros q Hq. by rewrite Ht1.
Qed.

Lemma process_lines_any self lines writer n keys w :
  NoDup writer → length writer = n → (0 < n)%nat →
  holds_part writer n keys w →
  ∃ w', Counter.process_lines self lines writer n w = (Ok (), w')
        ∧ files w' = files w ∧ tempdir w' = tempdir w
        ∧ holds_part writer n (keys ++ parsed_keys lines) w'
        ∧ (∀ q, q ∉ writer → temps w' !! q = temps w !! q).
Proof.
  intros Hnd Hlen Hn. revert keys w.
  induction lines as [|raw lines IH]; intros keys w Hholds.
  { exists w. by rewrite app_nil_r. }
  cbn [Counter.process_lines]. cbn zeta.
  change (raw :: lines) with ([raw] ++ lines). rewrite parsed_keys_app.
  case_bool_decide as Hblank.
  { unfold parsed_keys at 1. cbn [omap list_omap].
    rewrite (canonical_blank raw Hblank).
    destruct (IH keys w Hholds) as (w' & Hrun & ?).
    exists w'. by rewrite (bind_ok _ _ _ _ _ (eq_refl : ret () w = (Ok (), w))). }
  destruct (process_line_any self (strip raw) writer n keys w Hnd Hlen Hn Hholds)
    as (w1 & Hrun1 & Hf1 & Hd1 & Hholds1 & Hout1).
  assert (parsed_keys [strip raw] = parsed_keys [raw]) as Hsame.
  { unfold parsed_keys. cbn [omap list_omap]. unfold line_key.
    by rewrite canonical_strip. }
  rewrite Hsame in Hholds1.
  destruct (IH _ w1 Hholds1) as (w' & Hrun & Hf & Hd & Hh & Hout).
  exists w'. rewrite (bind_ok _ _ _ _ _ Hrun1).
  rewrite <-app_assoc in Hh. split_and!; try done; try congruence.
  intros q Hq. rewrite Hout by done. by apply Hout1.
Qed.

Lemma distinct_sublist (l1 l2 : list bytes) :
  l1 `sublist_of` l2 → (distinct l1 ≤ distinct l2)%nat.
Proof.
  intros Hsub. unfold distinct. apply subseteq_size.
  intros x. rewrite !elem_of_list_to_set. intros Hx. by eapply elem_of_sublist.
Qed.

Lemma aligned_sublist (l1 l2 : list bytes) :
  l1 `sublist_of` l2 → aligned l2 → aligned l1.
Proof.
  unfold aligned. rewrite !Forall_forall. intros Hsub H x Hx.
  apply H. by eapply elem_of_sublist.
Qed.

(** Partition files that hold parts of the buckets: their exact counts add
    up to at most the number of distinct keys. *)
Lemma holds_part_counts ps n keys w :
  length ps = n → (0 < n)%nat → aligned keys → holds_part ps n keys w →
  ∃ rss,
    Forall2 (λ p rs, temps w !! p = Some (concat rs) ∧ aligned rs) ps rss
    ∧ (sum_list (distinct <$> rss) ≤ distinct keys)%nat.
Proof.
  intros Hlen Hn Hal Hholds.
  assert (Forall2 (λ p i, ∃ ks, temps w !! p = Some (concat ks)
                                ∧ ks `sublist_of` bucket n i keys)
            ps (seq 0 n)) as Hall.
  { apply Forall2_same_length_lookup_2; [by rewrite length_seq|].
    intros i p j Hp Hj. apply lookup_seq in Hj as [-> _]. by apply Hholds. }
  rewrite <-(bucket_distinct n keys Hn).
  clear Hlen Hholds. induction Hall as [|p i ps ids (ks & Hks & Hsub) _ IH].
  { exists []. split; [constructor|done]. }
  destruct IH as (rss & Hrss & Hle).
  exists (ks :: rss). split.
  - constructor; [|done]. split; [done|].
    eapply aligned_sublist; [done|]. by apply bucket_aligned.
  - rewrite !fmap_cons. simpl. pose proof (distinct_sublist _ _ Hsub). lia.
Qed.

Lemma num_partitions_any self input_path w r w' :
  Counter._calculate_num_partitions self input_path w = (r, w') →
  files w' = files w ∧ temps w' = temps w ∧ tempdir w' = tempdir w
  ∧ match r with Ok n => (0 < n)%nat | Raise _ => True end.
Proof.
  unfold Counter._calculate_num_partitions, getsize_text.
  intros [(size & w1 & Hsize & [= <- <-])|(e & Hsize & ->)]%bind_inv.
  - apply bind_inv_ok in Hsize as ([] & w0 & Htick & Hsize).
    apply tick_fields in Htick as (Hf & Ht & Hd & _).
    destruct (files w0 !! input_path); [|done]. injection Hsize as _ <-.
    split_and!; try done. lia.
  - apply bind_inv in Hsize as [([] & w0 & Htick & Hsize)|(e' & Htick & _)].
    + apply tick_fields in Htick as (Hf & Ht & Hd & _).
      destruct (files w0 !! input_path); [done|]. by injection Hsize as _ <-.
    + by apply tick_fields in Htick as (Hf & Ht & Hd & _).
Qed.

Lemma writer_init_frame n w r w' :
  PartitionWriter.init n w = (r, w') →
  files w' = files w
  ∧ (∀ q content, temps w !! q = Some content →
       temps w' !! q = Some content ∧ (q ∈ tempdir w' → q ∈ tempdir w)).
Proof.
  revert w r w'. induction n as [|n IH]; intros w r w'.
  { by intros [= <- <-]. }
  cbn [PartitionWriter.init].
  intros [(path & w2 & Hmk & Hrest)|(e & Hmk & ->)]%bind_inv.
  2:{ unfold mkstemp in Hmk.
      apply bind_inv in Hmk as [([] & w1 & Htick & Hmk)|(e' & Htick & _)];
        [done|].
      apply tick_fields in Htick as (Hf & Ht & Hd & _).
      split; [done|]. intros q content Hq. by rewrite Ht, Hd. }
  unfold mkstemp in Hmk. apply bind_inv_ok in Hmk as ([] & w1 & Htick & [= <- <-]).
  apply tick_fields in Htick as (Hf1 & Ht1 & Hd1 & _).
  set (path := fresh (dom (temps w1))) in *.
  assert (∀ q content, temps w !! q = Some content → q ≠ path) as Hother.
  { intros q content Hq ->. rewrite <-Ht1 in Hq.
    by apply (is_fresh (dom (temps w1))), elem_of_dom. }
  set (w2 := set_tempdir _ _) in Hrest.
  assert (files w2 = files w
          ∧ ∀ q content, temps w !! q = Some content →
              temps w2 !! q = Some content ∧ (q ∈ tempdir w2 → q ∈ tempdir w))
    as [Hf2 H2].
  { split; [done|]. intros q content Hq. simpl. rewrite Ht1, Hd1. split.
    - rewrite lookup_insert_ne; [done|]. intros <-. by eapply Hother.
    - intros [->%elem_of_singleton|?]%elem_of_union; [|done].
      by destruct (Hother _ _ Hq). }
  clearbody w2.
  apply bind_inv in Hrest as [([] & w3 & Hopen & Hrest)|(e & Hopen & ->)].
  2:{ unfold open_wb in Hopen.
      apply bind_inv in Hopen as [([] & w3 & Htick & Hopen)|(e' & Htick & _)];
        [done|].
      apply tick_fields in Htick as (Hf & Ht & Hd & _).
      split; [congruence|]. intros q content Hq. rewrite Ht, Hd. by apply H2. }
  unfold open_wb in Hopen. apply bind_inv_ok in Hopen as ([] & w2' & Htick & [= <-]).
  apply tick_fields in Htick as (Hf3 & Ht3 & Hd3 & _).
  assert (∃ r', PartitionWriter.init n (set_temps (insert path []) w2') = (r', w'))
    as [r' Hinit].
  { apply bind_inv in Hrest as [(rest & w4 & Hinit & [= <- <-])|(e & Hinit & _)];
      eauto. }
  apply IH in Hinit as [Hf4 H4]. simpl in Hf4.
  split; [congruence|]. intros q content Hq.
  destruct (H2 q content Hq) as [Hq2 Hd2].
  destruct (H4 q content) as [Hq4 Hd4].
  { simpl. rewrite Ht3, lookup_insert_ne; [done|]. intros <-. by eapply Hother. }
  split; [done|]. intros Hin. apply Hd2. rewrite <-Hd3. by apply Hd4.
Qed.

Lemma open_mmap_any path w r w' :
  open_mmap path w = (r, w') →
  files w' = files w ∧ temps w' = temps w ∧ tempdir w' = tempdir w
  ∧ match r with Ok mm => files w !! path = Some mm | Raise _ => True end.
Proof.
  unfold open_mmap.
  intros [([] & w0 & Htick & Hread)|(e & Htick & ->)]%bind_inv.
  - apply tick_fields in Htick as (Hf & Ht & Hd & _). rewrite Hf in Hread.
    destruct (files w !! path) as [[|c content]|]; injection Hread as <- <-; done.
  - by apply tick_fields in Htick as (Hf & Ht & Hd & _).
Qed.

Lemma write_text_any path s w r w' :
  write_text path s w = (r, w') →
  temps w' = temps w ∧ tempdir w' = tempdir w
  ∧ match r with
    | Ok _ => files w' = <[path := s]> (files w)
    | Raise _ => files w' = files w
    end.
Proof.
  unfold write_text.
  intros [([] & w0 & Htick & [= <- <-])|(e & Htick & ->)]%bind_inv.
  - apply tick_fields in Htick as (Hf & Ht & Hd & _). simpl. by rewrite Hf.
  - by apply tick_fields in Htick as (Hf & Ht & Hd & _).
Qed.

(** A run under any schedule: the temporary files that were there before
    stay as they are; the output is written only when the run succeeds, and
    it is at most the number of distinct keys. *)
Lemma count_unique_any self input_path output_path w r w' :
  Counter.count_unique self input_path output_path w = (r, w') →
  (∀ q content, temps w !! q = Some content → q ∉ tempdir w →
     temps w' !! q = Some content)
  ∧ match r with
    | Ok _ =>
        ∃ content total,
          files w !! input_path = Some content
          ∧ (total ≤ distinct (parsed_keys (input_lines content)))%nat
          ∧ files w' = <[output_path := str (pretty total)]> (files w)
    | Raise _ => files w' = files w
    end.
Proof.
  unfold Counter.count_unique, with_temporary_directory.
  intros [([] & w0 & Htick & Hrun)|(e & Htick & ->)]%bind_inv.
  2:{ apply tick_fields in Htick as (Hf & Ht & Hd & _).
      split; [|done]. intros q content Hq Hout. by rewrite Ht. }
  apply tick_fields in Htick as (Hf0 & Ht0 & Hd0 & _).
  rewrite <-Hf0, <-Ht0, <-Hd0. clear dependent w. rename w0 into w.
  match type of Hrun with
  | (let '(_, _) := ?b w in _) = _ => destruct (b w) as [rb wb] eqn:Hbody
  end.
  injection Hrun as <- <-.
  enough ((∀ q content, temps w !! q = Some content → q ∉ tempdir w →
             temps wb !! q = Some content ∧ q ∉ tempdir wb)
          ∧ match rb with
            | Ok _ =>
                ∃ content total,
                  files w !! input_path = Some content
                  ∧ (total ≤ distinct (parsed_keys (input_lines content)))%nat
                  ∧ files wb = <[output_path := str (pretty total)]> (files w)
            | Raise _ => files wb = files w
            end) as [Hs Hr].
  { split; [|done]. intros q content Hq Hout. simpl.
    apply map_lookup_filter_Some. by apply Hs. }
  revert Hbody. generalize rb wb. clear rb wb. intros r w'.
  intros [(n & w1 & Hcalc & Hrun)|(e & Hcalc & ->)]%bind_inv.
  2:{ apply num_partitions_any in Hcalc as (Hf & Ht & Hd & _).
      split; [|done]. intros q content Hq Hout. by rewrite Ht, Hd. }
  apply num_partitions_any in Hcalc as (Hf1 & Ht1 & Hd1 & Hn).
  apply bind_inv in Hrun as [([] & w2 & [= <-] & Hrun)|(e & [=] & _)].
  set (w2 := set_stderr _ w1) in Hrun.
  assert (files w2 = files w ∧ temps w2 = temps w ∧ tempdir w2 = tempdir w)
    as (Hf2 & Ht2 & Hd2) by done.
  clearbody w2. clear dependent w1.
  (* the ingestion *)
  assert (∀ (rd : result PartitionWriter.t) wd,
            Counter._distribute_addresses self input_path n w2 = (rd, wd) →
            (∀ q content, temps w !! q = Some content → q ∉ tempdir w →
               temps wd !! q = Some content ∧ q ∉ tempdir wd)
            ∧ files wd = files w
            ∧ match rd with
              | Ok ps =>
                  ∃ content,
                    files w !! input_path = Some content
                    ∧ length ps = n
                    ∧ holds_part ps n (parsed_keys (input_lines content)) wd
              | Raise _ => True
              end) as Hdist.
  { intros rd wd. unfold Counter._distribute_addresses.
    intros [(ps & w3 & Hinit & Hrest)|(e & Hinit & ->)]%bind_inv.
    2:{ apply writer_init_frame in Hinit as [Hf H3].
        split_and!; [|congruence|done]. intros q content Hq Hout.
        destruct (H3 q content) as [Hq3 Hd3]; [by rewrite Ht2|].
        split; [done|]. rewrite <-Hd2 in Hout. tauto. }
    pose proof (writer_init_frame _ _ _ _ Hinit) as [Hf3 H3].
    apply writer_init_any in Hinit as (Hlen & Hnd & Hnew & _).
    assert (∀ q content, temps w !! q = Some content → q ∉ tempdir w →
              temps w3 !! q = Some content ∧ (q ∉ tempdir w3) ∧ (q ∉ ps)) as Hs3.
    { intros q content Hq Hout. rewrite <-Ht2 in Hq. rewrite <-Hd2 in Hout.
      destruct (H3 q content Hq) as [Hq3 Hd3]. split_and!; [done|tauto|].
      intros Hin. destruct (Hnew q Hin) as [Hnone _]. congruence. }
    apply bind_inv in Hrest as [(mm & w4 & Hmap & Hrest)|(e & Hmap & ->)].
    2:{ apply open_mmap_any in Hmap as (Hf & Ht & Hd & _).
        split_and!; [|congruence|done]. intros q content Hq Hout.
        rewrite Ht, Hd. destruct (Hs3 q content Hq Hout) as (? & ? & _). done. }
    apply open_mmap_any in Hmap as (Hf4 & Ht4 & Hd4 & Hmm).
    destruct (process_lines_any self (split_char Counter.newline mm) ps n [] w4)
      as (w5 & Hlines & Hf5 & Hd5 & Hholds & Hframe); [done..| |].
    { intros i p Hp. exists []. rewrite Ht4. split; [|apply sublist_nil_l].
      apply Hnew. by eapply list_elem_of_lookup_2. }
    rewrite (bind_ok _ _ _ _ _ Hlines) in Hrest.
    assert (files wd = files w5 ∧ temps wd = temps w5 ∧ tempdir wd = tempdir w5
            ∧ match rd with Ok ps' => ps' = ps | Raise _ => True end)
      as (Hf6 & Ht6 & Hd6 & Hrd).
    { apply bind_inv in Hrest as [([] & w6 & Hclose & [= <- <-])|(e & Hclose & ->)];
        by apply close_any in Hclose as (? & ? & ? & _). }
    split_and!.
    - intros q content Hq Hout.
      destruct (Hs3 q content Hq Hout) as (Hq3 & Hd3 & Hps).
      rewrite Ht6, Hd6, Hframe by done. rewrite Ht4, Hd5, Hd4. done.
    - congruence.
    - destruct rd as [ps'|]; [subst ps'|done].
      exists mm. split_and!; [congruence|done|].
      intros i p Hp. rewrite Ht6. by apply Hholds. }
  apply bind_inv in Hrun as [(ps & w3 & Hrun3 & Hrun)|(e & Hrun3 & ->)].
  2:{ apply Hdist in Hrun3 as (Hs & Hf & _). done. }
  apply Hdist in Hrun3 as (Hs3 & Hf3 & content & Hin & Hlen & Hholds).
  clear Hdist.
  (* the counting pass *)
  destruct (holds_part_counts ps n _ w3 Hlen Hn (parsed_keys_aligned _) Hholds)
    as (rss & Hrss & Hsum).
  unfold Counter._process_partitions, PartitionWriter.get_paths in Hrun.
  destruct (collect_counts_total PartitionProcessor.count_unique ps 0%nat w3)
    as (total & w4 & Hcount).
  rewrite (bind_ok _ _ _ _ _ Hcount) in Hrun.
  apply (collect_counts_bound _ _ _ _ _ _ Hrss) in Hcount
    as (Htotal & Hf4 & Ht4 & Hd4).
  assert (∀ q content, temps w !! q = Some content → q ∉ tempdir w →
            temps w4 !! q = Some content ∧ q ∉ tempdir w4) as Hs4.
  { intros q c Hq Hout. destruct (Hs3 q c Hq Hout) as [Hq3 Hd3].
    rewrite Hd4. split; [|done]. by eapply lookup_weaken. }
  (* the output *)
  apply bind_inv in Hrun as [([] & w5 & Hwrite & [= <- <-])|(e & Hwrite & ->)].
  - apply write_text_any in Hwrite as (Ht5 & Hd5 & Hf5).
    split.
    + intros q c Hq Hout. simpl. rewrite Ht5, Hd5. by apply Hs4.
    + exists content, total. split_and!; [done|lia|].
      simpl. by rewrite Hf5, Hf4, Hf3.
  - apply write_text_any in Hwrite as (Ht5 & Hd5 & Hf5).
    split.
    + intros q c Hq Hout. rewrite Ht5, Hd5. by apply Hs4.
    + congruence.
Qed.

(** X14: under whatever schedule of failures, a run ends with exit status
    0 or 1, changes no file of the caller other than the output file, and
    leaves every temporary file that existed before the run (outside the
    temporary directory) as it was; when the input file does not exist it
    exits with status 1 after one diagnostic, and does nothing else. *)
Theorem run_touches_only_its_output input_file output_file memory_limit w :
  let r := main input_file output_file memory_limit w in
  (r.1 = 0 ∨ r.1 = 1)
  ∧ (∀ p, p ≠ output_file → files r.2 !! p = files w !! p)
  ∧ (∀ q content, temps w !! q = Some content → q ∉ tempdir w →
       temps r.2 !! q = Some content)
  ∧ (files w !! input_file = None →
     r = (1, set_stderr (λ log, log ++ [MsgMissingInput input_file]) w)).
Proof.
  cbn zeta. unfold main, path_exists.
  destruct (files w !! input_file) as [content|] eqn:Hin.
  2:{ rewrite bool_decide_eq_false_2 by by intros []. simpl. by split_and!; [right|..]. }
  rewrite bool_decide_eq_true_2 by done.
  destruct (bind _ _ w) as [[[]|e] w2] eqn:Hrun.
  - apply bind_inv_ok in Hrun as ([] & w1 & Hrun & [= <-]).
    apply count_unique_any in Hrun as (Ht & content' & total & _ & _ & Hf).
    simpl. split_and!; [by left| |done|done].
    intros p Hp. by rewrite Hf, lookup_insert_ne.
  - apply bind_inv in Hrun as [([] & w1 & Hrun & [=])|(e' & Hrun & _)].
    apply count_unique_any in Hrun as (Ht & Hf).
    simpl. split_and!; [by right| |done|done].
    intros p Hp. by rewrite Hf.
Qed.

Lemma run_touches_only_its_output_witness :
  let w := World {[ "in"%string := str "::1"; "log"%string := str "kept" ]}
             {[ 0%nat := sample_key 9 ]} ∅ [] (replicate 7 false ++ [true]) in
  let r := main "in" "out" 1024 w in
  r.1 = 0
  ∧ files r.2 !! "log"%string = Some (str "kept")
  ∧ files r.2 !! "in"%string = Some (str "::1")
  ∧ temps r.2 !! 0%nat = Some (sample_key 9).
Proof.
  intros w r.
  pose proof (run_touches_only_its_output "in" "out" 1024 w) as H.
  cbn zeta in H. fold r in H. destruct H as (_ & Hf & Ht & _).
  split; [by vm_compute|]. split_and!.
  - by rewrite (Hf "log"%string).
  - by rewrite (Hf "in"%string).
  - apply Ht; [reflexivity|]. apply not_elem_of_empty.
Defined.

(** X15: a run never counts too much: under whatever schedule of
    failures, when the run ends with exit status 0 the output file holds a
    total that is at most the number of distinct keys of the lines that
    parse (failures that the run absorbs can only lose records). *)
Theorem run_never_overcounts input_file output_file memory_limit content w w' :
  files w !! input_file = Some content → ascii_text content →
  main input_file output_file memory_limit w = (0, w') →
  ∃ total : nat,
    files w' = <[output_file := str (pretty total)]> (files w)
    ∧ (total ≤ distinct (parsed_keys (input_lines content)))%nat.
Proof.
  intros Hin _. unfold main, path_exists.
  rewrite bool_decide_eq_true_2 by by rewrite Hin.
  destruct (bind _ _ w) as [[[]|e] w2] eqn:Hrun; [|by intros [=]].
  intros [= <-].
  apply bind_inv_ok in Hrun as ([] & w1 & Hrun & [= <-]).
  apply count_unique_any in Hrun as (_ & content' & total & Hin' & Hle & Hf).
  assert (content' = content) as -> by congruence.
  by exists total.
Qed.

Lemma run_never_overcounts_witness :
  let w := sample_world "::1" (replicate 7 false ++ [true]) in
  ∃ total : nat,
    files (main "in" "out" 1024 w).2
    = <["out"%string := str (pretty total)]> (files w)
    ∧ (total ≤ distinct (parsed_keys (input_lines (str "::1"))))%nat.
Proof.
  intros w.
  destruct (main "in" "out" 1024 w) as [status w'] eqn:Hrun.
  assert (status = 0) as ->.
  { pose proof Hrun as Hc. vm_compute in Hc. by injection Hc as <- _. }
  exact (run_never_overcounts "in" "out" 1024 (str "::1") w w'
           eq_refl eq_refl Hrun).
Defined.

(** ** Edge cases of a partition file *)

Lemma read_records_tail rs (tail : bytes) fuel w :
  calm w → aligned rs → (0 < length tail < IPV6_BYTES_LEN)%nat →
  (S (length rs) < fuel)%nat →
  PartitionProcessor.read_records fuel (concat rs ++ tail) w
  = (Ok (rs ++ [tail]), w).
Proof.
  intros Hw Hrs Htail. revert fuel.
  induction Hrs as [|r rs Hr Hrs IH]; intros [|fuel] Hf; simpl in Hf; try lia.
  - cbn [PartitionProcessor.read_records concat app].
    rewrite (bind_ok _ _ _ _ _ (read_calm _ _ w Hw)).
    rewrite take_ge, drop_ge by lia.
    destruct tail as [|b tail]; [simpl in Htail; lia|].
    cbn [PartitionProcessor.is_empty].
    by rewrite (bind_ok _ _ _ _ _
      (read_records_calm [] fuel w Hw (Forall_nil_2 _) ltac:(simpl; lia))).
  - cbn [PartitionProcessor.read_records].
    rewrite (bind_ok _ _ _ _ _ (read_calm _ _ w Hw)).
    cbn [concat]. rewrite <-app_assoc.
    assert (take IPV6_BYTES_LEN (r ++ concat rs ++ tail) = r) as ->.
    { rewrite <-Hr. apply take_app_length. }
    assert (drop IPV6_BYTES_LEN (r ++ concat rs ++ tail) = concat rs ++ tail) as ->.
    { rewrite <-Hr. apply drop_app_length. }
    rewrite record_not_empty by done.
    by rewrite (bind_ok _ _ _ _ _ (IH fuel ltac:(lia))).
Qed.

Lemma distinct_snoc_new (rs : list bytes) (r : bytes) :
  r ∉ rs → distinct (rs ++ [r]) = S (distinct rs).
Proof.
  intros Hnew. unfold distinct.
  rewrite list_to_set_app_L, list_to_set_singleton, size_union, size_singleton.
  - lia.
  - apply disjoint_singleton_r. by rewrite elem_of_list_to_set.
Qed.

(** X16: edge cases of a partition file: a counting task on a missing
    file fails with [OSError] and leaves the temporary files as they were;
    on an empty file it returns 0; and the in-memory path does not reject a
    file whose size is no multiple of 16: it counts the short tail as one
    more distinct record. *)
Theorem partition_file_edge_cases path w :
  (temps w !! path = None →
   ∃ w', PartitionProcessor.count_unique path w = (Raise OSError, w')
         ∧ temps w' = temps w)
  ∧ (calm w → temps w !! path = Some [] →
     PartitionProcessor.count_unique path w = (Ok 0%nat, w))
  ∧ (∀ rs tail,
       calm w → aligned rs → (0 < length tail < IPV6_BYTES_LEN)%nat →
       temps w !! path = Some (concat rs ++ tail) →
       PartitionProcessor._count_unique_in_memory path w
       = (Ok (S (distinct rs)), w)).
Proof.
  split_and!.
  - intros Hp. unfold PartitionProcessor.count_unique, getsize, bind.
    destruct (tick w) as [[[]|e] w1] eqn:Htick.
    + apply tick_fields in Htick as (_ & Ht & _). rewrite Ht, Hp. eauto.
    + pose proof (tick_fields _ _ _ Htick) as (_ & Ht & _).
      assert (e = OSError) as ->; [|eauto].
      unfold tick in Htick. destruct (faults w) as [|[] ?]; by simplify_eq.
  - intros Hw Hp.
    by apply (partition_count_unique_calm path [] w Hw (Forall_nil_2 _)).
  - intros rs tail Hw Hrs Htail Hp.
    unfold PartitionProcessor._count_unique_in_memory.
    rewrite (bind_ok _ _ _ _ _ (open_rb_calm _ _ w Hw Hp)).
    assert (S (length rs) < S (length (concat rs ++ tail)))%nat as Hfuel.
    { rewrite length_app, aligned_concat_length by done.
      unfold IPV6_BYTES_LEN. lia. }
    rewrite (bind_ok _ _ _ _ _ (read_records_tail rs tail _ w Hw Hrs Htail Hfuel)).
    rewrite count_changes_sort, distinct_snoc_new; [done|].
    intros Hin. unfold aligned in Hrs. rewrite Forall_forall in Hrs.
    apply Hrs in Hin. lia.
Qed.

Lemma partition_file_edge_cases_witness :
  let w := sample_partition [sample_key 2; sample_key 2; [7; 7; 7]] [] in
  (∃ w', PartitionProcessor.count_unique 5 w = (Raise OSError, w')
         ∧ temps w' = temps w)
  ∧ PartitionProcessor.count_unique 0 (sample_partition [] []) = (Ok 0%nat, sample_partition [] [])
  ∧ PartitionProcessor._count_unique_in_memory 0 w = (Ok 2%nat, w).
Proof.
  intros w. split_and!.
  - apply (proj1 (partition_file_edge_cases 5%nat w)). reflexivity.
  - apply (proj1 (proj2 (partition_file_edge_cases 0%nat (sample_partition [] []))));
      reflexivity.
  - apply (proj2 (proj2 (partition_file_edge_cases 0%nat w))
             [sample_key 2; sample_key 2] [7; 7; 7]);
      [reflexivity|repeat constructor|simpl; unfold IPV6_BYTES_LEN; lia|reflexivity].
Defined.

(** ** The blocks of the external sort *)

Lemma blocks_short fuel n rs :
  Forall (λ block : list bytes, (length block ≤ n)%nat) (blocks_of fuel n rs).
Proof.
  revert rs. induction fuel as [|fuel IH]; intros rs; [constructor|].
  cbn [blocks_of]. case_bool_decide; constructor; [|apply IH].
  rewrite length_take. lia.
Qed.

(** X17: in an environment without failure, phase 1 of the external sort
    cuts the stream into consecutive non-empty blocks of at most
    [records_per_block] records, and stores each block, sorted, in a new
    temporary file of its own; no other file changes. *)
Theorem split_phase_writes_sorted_blocks n rs w :
  calm w → aligned rs → (0 < n)%nat →
  ∃ temp_files blocks w1,
    PartitionProcessor.split_blocks (S (length (concat rs))) n (concat rs) w
    = (Ok temp_files, w1)
    ∧ concat blocks = rs
    ∧ Forall (λ block, (0 < length block ≤ n)%nat) blocks
    ∧ Forall2 (λ p block,
                 temps w !! p = None
                 ∧ temps w1 !! p = Some (concat (sort_records block)))
        temp_files blocks
    ∧ NoDup temp_files
    ∧ (∀ q, q ∉ temp_files → temps w1 !! q = temps w !! q).
Proof.
  intros Hw Hrs Hn.
  assert (length rs < S (length (concat rs)))%nat as Hf.
  { rewrite aligned_concat_length by done. unfold IPV6_BYTES_LEN. lia. }
  set (blocks := blocks_of (S (length (concat rs))) n rs).
  destruct (store_blocks_spec blocks (temps w)) as (Hall & Hnd & Hnew & Hold & _).
  exists (store_blocks blocks (temps w)).1, blocks,
         (with_temps (store_blocks blocks (temps w)).2 w).
  split_and!.
  - by apply split_blocks_calm.
  - by apply blocks_concat.
  - pose proof (blocks_nonempty (S (length (concat rs))) n rs) as Hne.
    pose proof (blocks_short (S (length (concat rs))) n rs) as Hsh.
    fold blocks in Hne, Hsh. rewrite Forall_forall in Hne, Hsh |- *.
    intros block Hin. specialize (Hne block Hin). specialize (Hsh block Hin).
    destruct block; [done|]. simpl in *. lia.
  - rewrite temps_with_temps.
    apply Forall2_same_length_lookup_2; [by eapply Forall2_length|].
    intros i p block Hp Hb. split.
    + apply Hnew. by eapply list_elem_of_lookup_2.
    + by eapply (Forall2_lookup_lr _ _ _ _ _ _ Hall).
  - done.
  - intros q Hq. rewrite temps_with_temps. by apply Hold.
Qed.

Lemma split_phase_writes_sorted_blocks_witness :
  let rs := [sample_key 3; sample_key 1; sample_key 3; sample_key 2; sample_key 1] in
  let w := sample_partition rs [] in
  ∃ temp_files blocks w1,
    PartitionProcessor.split_blocks (S (length (concat rs))) 2 (concat rs) w
    = (Ok temp_files, w1)
    ∧ concat blocks = rs
    ∧ Forall (λ block, (0 < length block ≤ 2)%nat) blocks
    ∧ Forall2 (λ p block,
                 temps w !! p = None
                 ∧ temps w1 !! p = Some (concat (sort_records block)))
        temp_files blocks
    ∧ NoDup temp_files
    ∧ (∀ q, q ∉ temp_files → temps w1 !! q = temps w !! q).
Proof.
  intros rs w.
  apply (split_phase_writes_sorted_blocks 2 rs w);
    [reflexivity|repeat constructor|lia].
Defined.

(** ** The temporary files after a run without failure *)

Lemma distribute_calm_frame self input_path content n w :
  calm w → files w !! input_path = Some content → content ≠ [] → (0 < n)%nat →
  ∃ ps w',
    Counter._distribute_addresses self input_path n w = (Ok ps, w')
    ∧ calm w' ∧ length ps = n
    ∧ holds ps n (parsed_keys (input_lines content)) w'
    ∧ (∀ p, p ∈ ps → temps w !! p = None)
    ∧ (∀ q, q ∉ ps → temps w' !! q = temps w !! q)
    ∧ tempdir w' = list_to_set ps ∪ tempdir w.
Proof.
  intros Hw Hin Hne Hn.
  destruct (distribute_calm self input_path content n w Hw Hin Hne Hn)
    as (ps & w' & Hrun & Hw' & _ & Hlen & Hholds).
  exists ps, w'. split_and!; try done.
  all: unfold Counter._distribute_addresses in Hrun.
  all: apply bind_inv_ok in Hrun as (ps' & w1 & Hinit & Hrun).
  all: apply writer_init_any in Hinit as (Hlen1 & Hnd & Hnew & Hold & Hdir & _).
  all: apply bind_inv_ok in Hrun as (mm & w2 & Hmap & Hrun).
  all: apply open_mmap_any in Hmap as (_ & Ht2 & Hd2 & _).
  all: destruct (process_lines_any self (split_char Counter.newline mm) ps' n [] w2)
         as (w3 & Hlines & _ & Hd3 & _ & Hframe); [done..| |].
  1,3,5: intros i p Hp; exists []; rewrite Ht2; split; [|apply sublist_nil_l];
         apply Hnew; by eapply list_elem_of_lookup_2.
  all: rewrite (bind_ok _ _ _ _ _ Hlines) in Hrun.
  all: apply bind_inv_ok in Hrun as ([] & w4 & Hclose & [= <- <-]).
  all: apply close_any in Hclose as (_ & Ht4 & Hd4 & _).
  - intros p Hp. by apply Hnew.
  - intros q Hq. rewrite Ht4, Hframe, Ht2 by done. by apply Hold.
  - by rewrite Hd4, Hd3, Hd2.
Qed.

Lemma count_unique_calm_temps self input_path output_path content w :
  calm w → files w !! input_path = Some content → content ≠ [] →
  tempdir w = ∅ →
  ∃ w', Counter.count_unique self input_path output_path w = (Ok (), w')
        ∧ temps w' = temps w ∧ tempdir w' = ∅.
Proof.
  intros Hw Hin Hne Hdir. unfold Counter.count_unique, with_temporary_directory.
  rewrite (bind_ok _ _ _ _ _ (tick_calm w Hw)).
  destruct (num_partitions_calm self input_path content w Hw Hin)
    as (n & Hrun0 & Hn).
  rewrite (bind_ok _ _ _ _ _ Hrun0).
  rewrite (bind_ok _ _ _ _ _ (eq_refl : print _ w = (Ok (), _))).
  set (w0 := set_stderr _ w).
  destruct (distribute_calm_frame self input_path content n w0)
    as (ps & w1 & Hrun1 & Hw1 & Hlen & Hholds & Hnew & Hold & Hd1); [done..|].
  rewrite (bind_ok _ _ _ _ _ Hrun1).
  set (keys := parsed_keys (input_lines content)) in *.
  pose proof (holds_buckets ps n keys w1 Hlen (parsed_keys_aligned _) Hholds)
    as Hall.
  destruct (collect_counts_calm ps _ 0 w1 Hw1 Hall)
    as (w2 & Hrun2 & Hw2 & _ & Ht2).
  pose proof (collect_counts_bound _ _ _ _ _ _ Hall Hrun2) as (_ & _ & _ & Hd2).
  unfold Counter._process_partitions, PartitionWriter.get_paths.
  rewrite (bind_ok _ _ _ _ _ Hrun2).
  rewrite (bind_ok _ _ _ _ _ (write_text_calm _ _ w2 Hw2)).
  eexists. split; [reflexivity|]. split; [|done].
  cbn [temps tempdir set_tempdir set_temps set_stderr set_files print snd].
  rewrite Ht2, Hd2, Hd1. change (tempdir w0) with (tempdir w). rewrite Hdir.
  apply map_eq. intros q. apply option_eq. intros c.
  rewrite map_lookup_filter_Some. cbn [fst].
  rewrite elem_of_union, elem_of_list_to_set.
  destruct (decide (q ∈ ps)) as [Hq|Hq].
  - rewrite (Hnew q Hq : temps w !! q = None). split; [|done].
    intros [_ Hout]. destruct Hout. by left.
  - rewrite (Hold q Hq). change (temps w0) with (temps w).
    split; [by intros []|]. intros Hc. split; [done|].
    intros [?|?%elem_of_empty]; done.
Qed.

(** X18: a run without failure leaves no temporary file behind: after the
    run the temporary files are exactly those that existed before, and the
    temporary directory is gone. *)
Theorem clean_run_leaves_no_temporary_file
    input_file output_file memory_limit content w :
  calm w → files w !! input_file = Some content → content ≠ [] →
  ascii_text content → tempdir w = ∅ →
  ∃ w', main input_file output_file memory_limit w = (0, w')
        ∧ temps w' = temps w ∧ tempdir w' = ∅.
Proof.
  intros Hw Hin Hne _ Hdir. unfold main, path_exists.
  rewrite bool_decide_eq_true_2 by by rewrite Hin.
  destruct (count_unique_calm_temps {| memory_limit_mb := memory_limit |}
              input_file output_file content w Hw Hin Hne Hdir)
    as (w1 & Hrun & Ht & Hd).
  rewrite (bind_ok _ _ _ _ _ Hrun). simpl. eauto.
Qed.

Lemma clean_run_leaves_no_temporary_file_witness :
  let w := World {[ "in"%string := str scenario ]} {[ 4%nat := sample_key 9 ]}
             ∅ [] [] in
  ∃ w', main "in" "out" 1024 w = (0, w')
        ∧ temps w' = temps w ∧ tempdir w' = ∅.
Proof.
  intros w.
  apply (clean_run_leaves_no_temporary_file "in" "out" 1024 (str scenario) w);
    [reflexivity|reflexivity|discriminate|reflexivity|reflexivity].
Defined.

(** ** The order of the counting tasks *)

Lemma collect_step_calm p rs ps total w :
  calm w → temps w !! p = Some (concat rs) → aligned rs →
  Counter.collect_counts PartitionProcessor.count_unique (p :: ps) total w
  = Counter.collect_counts PartitionProcessor.count_unique ps
      (total + distinct rs)
      (set_stderr (λ log, log ++ [MsgPartitionCount p (distinct rs)]) w).
Proof.
  intros Hw Hp Hrs. cbn [Counter.collect_counts].
  erewrite bind_ok; [reflexivity|].
  apply try_except_ok.
  erewrite bind_ok by by apply partition_count_unique_calm. reflexivity.
Qed.

Lemma same_total_refl ps : same_total ps ps.
Proof.
  induction ps as [|p ps IH]; intros total w w' Hw Hw' Ht Hps.
  { exists total, w, w'. by split_and!. }
  apply Forall_cons in Hps as [(rs & Hp & Hrs) Hps].
  rewrite (collect_step_calm p rs ps total w) by done.
  rewrite (collect_step_calm p rs ps total w') by (done || by rewrite <-Ht).
  destruct (IH (total + distinct rs)%nat
              (set_stderr (λ log, log ++ [MsgPartitionCount p (distinct rs)]) w)
              (set_stderr (λ log, log ++ [MsgPartitionCount p (distinct rs)]) w'))
    as (n & w1 & w1' & H1 & H2 & Ht1 & Ht2); [done..|].
  by exists n, w1, w1'.
Qed.

Lemma same_total_perm ps ps' : ps ≡ₚ ps' → same_total ps ps'.
Proof.
  induction 1 as [|p ps ps' Hperm IH|p q ps|ps ps' ps'' Hperm1 IH1 Hperm2 IH2].
  - apply same_total_refl.
  - intros total w w' Hw Hw' Ht Hps.
    apply Forall_cons in Hps as [(rs & Hp & Hrs) Hps].
    rewrite (collect_step_calm p rs ps total w) by done.
    rewrite (collect_step_calm p rs ps' total w') by (done || by rewrite <-Ht).
    destruct (IH (total + distinct rs)%nat
                (set_stderr (λ log, log ++ [MsgPartitionCount p (distinct rs)]) w)
                (set_stderr (λ log, log ++ [MsgPartitionCount p (distinct rs)]) w'))
      as (n & w1 & w1' & H1 & H2 & Ht1 & Ht2); [done..|].
    by exists n, w1, w1'.
  - intros total w w' Hw Hw' Ht Hps.
    apply Forall_cons in Hps as [(rq & Hq & Hrq) Hps].
    apply Forall_cons in Hps as [(rp & Hp & Hrp) Hps].
    rewrite (collect_step_calm q rq _ total w) by done.
    rewrite (collect_step_calm p rp _ _ _) by done.
    rewrite (collect_step_calm p rp _ total w') by (done || by rewrite <-Ht).
    rewrite (collect_step_calm q rq _ _ _)
      by (done || (cbn [temps set_stderr]; by rewrite <-Ht)).
    replace (total + distinct rp + distinct rq)%nat
      with (total + distinct rq + distinct rp)%nat by lia.
    match goal with
    | |- ∃ _ _ _, Counter.collect_counts _ _ ?t ?wa = _
                  ∧ Counter.collect_counts _ _ _ ?wb = _ ∧ _ =>
        destruct (same_total_refl ps t wa wb)
          as (n & w1 & w1' & H1 & H2 & Ht1 & Ht2); [done..|]
    end.
    by exists n, w1, w1'.
  - intros total w w' Hw Hw' Ht Hps.
    destruct (IH1 total w w Hw Hw eq_refl Hps) as (n & w1 & w2 & H1 & H2 & _ & _).
    assert (countable (temps w) ps') as Hps'.
    { unfold countable. by rewrite <-Hperm1. }
    destruct (IH2 total w w' Hw Hw' Ht Hps')
      as (n' & w3 & w4 & H3 & H4 & _ & Ht4).
    assert (n' = n) as -> by congruence.
    destruct (same_total_refl ps total w w Hw Hw eq_refl Hps)
      as (n0 & w5 & w6 & H5 & _ & Ht5 & _).
    exists n, w1, w4. split_and!; try done. congruence.
Qed.

(** X19: the total of [_process_partitions] does not depend on the order
    in which the partitions are taken (the order in which the tasks
    complete): in an environment without failure, two orders of the same
    partitions give the same total. *)
Theorem counting_order_is_irrelevant self ps ps' w :
  calm w → countable (temps w) ps → ps ≡ₚ ps' →
  ∃ total w1 w2,
    Counter._process_partitions self ps w = (Ok total, w1)
    ∧ Counter._process_partitions self ps' w = (Ok total, w2)
    ∧ temps w1 = temps w ∧ temps w2 = temps w.
Proof.
  intros Hw Hps Hperm. unfold Counter._process_partitions.
  destruct (same_total_perm ps ps' Hperm 0%nat w w Hw Hw eq_refl Hps)
    as (n & w1 & w2 & H1 & H2 & Ht1 & Ht2).
  by exists n, w1, w2.
Qed.

Lemma counting_order_is_irrelevant_witness :
  let self := {| memory_limit_mb := 1024 |} in
  let w := World ∅ {[ 1%nat := concat [sample_key 1; sample_key 2];
                      2%nat := concat [sample_key 3];
                      3%nat := [] ]} ∅ [] [] in
  ∃ total w1 w2,
    Counter._process_partitions self [1; 2; 3]%nat w = (Ok total, w1)
    ∧ Counter._process_partitions self [3; 1; 2]%nat w = (Ok total, w2)
    ∧ temps w1 = temps w ∧ temps w2 = temps w.
Proof.
  intros self w.
  apply (counting_order_is_irrelevant self [1; 2; 3]%nat [3; 1; 2]%nat w).
  - reflexivity.
  - repeat apply Forall_cons_2; [| | |apply Forall_nil_2].
    + exists [sample_key 1; sample_key 2]. split; [reflexivity|repeat constructor].
    + exists [sample_key 3]. split; [reflexivity|repeat constructor].
    + exists []. split; [reflexivity|constructor].
  - by rewrite (Permutation_cons_append [1; 2]%nat 3%nat).
Defined.

(** ** Compression as zero filling *)

Lemma zero_hex_group : hex_group (str "0").
Proof. hex_group_tac. Qed.

(** X20: a [::] stands for as many zero groups as are missing, none
    included: a compressed text of groups of hexadecimal digits has the
    result of the expanded text in which the [::] is replaced by the missing
    groups [0]. *)
Theorem compression_fills_with_zero_groups tl tr :
  Forall hex_group tl → Forall hex_group tr →
  (length tl + length tr ≤ 8)%nat →
  IPv6Parser.to_canonical_bytes (join_colon tl ++ str "::" ++ join_colon tr)
  = IPv6Parser.to_canonical_bytes
      (join_colon (tl ++ replicate (8 - length tl - length tr) (str "0") ++ tr)).
Proof.
  intros Hl Hr Hlen.
  set (k := (8 - length tl - length tr)%nat).
  assert (Forall hex_group (tl ++ replicate k (str "0") ++ tr)) as Hall.
  { apply Forall_app; split; [done|]. apply Forall_app; split; [|done].
    apply Forall_replicate, zero_hex_group. }
  assert (length (tl ++ replicate k (str "0") ++ tr) = 8%nat) as Hall_len.
  { rewrite !length_app, length_replicate. lia. }
  apply hex_groups_lower in Hl, Hr, Hall.
  unfold IPv6Parser.to_canonical_bytes. cbn zeta.
  (* the expanded side *)
  rewrite (lower_join (tl ++ _)), (strip_id (join_colon _))
    by by apply hex_groups_no_space.
  pose proof (has_dcolon_join _ [] (hex_groups_plain _ Hall)) as Hd.
  rewrite app_nil_r in Hd. rewrite Hd.
  rewrite hex_groups_split.
  2: done.
  2:{ intros Hnil%(f_equal length). by rewrite length_fmap, Hall_len in Hnil. }
  rewrite length_fmap, Hall_len.
  rewrite (bool_decide_eq_false_2 (8%nat ≠ 8%nat)) by (intros ?; done).
  (* the compressed side *)
  rewrite !lower_app, !lower_join.
  change (lower (str "::")) with (str "::").
  rewrite strip_id.
  2:{ apply Forall_app; split; [by apply hex_groups_no_space|].
      apply Forall_app; split; [apply dcolon_no_space|by apply hex_groups_no_space]. }
  rewrite has_dcolon_found. unfold IPv6Parser._expand_compressed.
  rewrite split_dcolon_first by by rewrite has_dcolon_join by by apply hex_groups_plain.
  rewrite split_dcolon_none.
  2:{ rewrite <-(app_nil_r (join_colon _)).
      by rewrite has_dcolon_join by by apply hex_groups_plain. }
  rewrite !groups_of_join by by apply hex_groups_plain. cbn zeta.
  rewrite !length_fmap.
  destruct (Z.ltb_spec (8 - Z.of_nat (length tl) - Z.of_nat (length tr)) 0);
    [lia|].
  replace (Z.to_nat (8 - Z.of_nat (length tl) - Z.of_nat (length tr)))
    with k by lia.
  by rewrite !fmap_app, fmap_replicate.
Qed.

Lemma compression_fills_with_zero_groups_witness :
  IPv6Parser.to_canonical_bytes (str "2001:DB8::1")
  = IPv6Parser.to_canonical_bytes (str "2001:DB8:0:0:0:0:0:1")
  ∧ IPv6Parser.to_canonical_bytes (str "1:2:3:4::5:6:7:8")
    = IPv6Parser.to_canonical_bytes (str "1:2:3:4:5:6:7:8").
Proof.
  split.
  - apply (compression_fills_with_zero_groups [str "2001"; str "DB8"] [str "1"]);
      [hex_groups_tac|hex_groups_tac|simpl; lia].
  - apply (compression_fills_with_zero_groups
             [str "1"; str "2"; str "3"; str "4"]
             [str "5"; str "6"; str "7"; str "8"]);
      [hex_groups_tac|hex_groups_tac|simpl; lia].
Defined.

(** ** Characters that no address holds *)

Lemma foreign_lower c : foreign c = true → foreign (lower_char c) = true.
Proof. all_chars c; vm_compute; congruence. Qed.

Lemma foreign_spec c :
  foreign c = true →
  hex_digit c = None ∧ is_space c = false
  ∧ is_char c ":" = false ∧ is_char c "+" = false ∧ is_char c "-" = false
  ∧ is_char c "_" = false ∧ is_char c "x" = false ∧ is_char c "X" = false
  ∧ is_char c "0" = false.
Proof. all_chars c; vm_compute; intros H; repeat split; congruence. Qed.

Lemma lstrip_space_keeps c s :
  is_space c = false → c ∈ s → c ∈ lstrip_space s.
Proof.
  intros Hc. induction s as [|a s IH]; [done|].
  simpl. destruct (is_space a) eqn:Ha; [|done].
  intros [->|Hin]%elem_of_cons; [congruence|by apply IH].
Qed.

Lemma strip_keeps c s : is_space c = false → c ∈ s → c ∈ strip s.
Proof.
  intros Hc Hin. unfold strip.
  apply elem_of_reverse, lstrip_space_keeps; [done|].
  by apply elem_of_reverse, lstrip_space_keeps.
Qed.

Lemma lstrip_int_space_keeps c s :
  is_int_space c = false → c ∈ s → c ∈ lstrip_int_space s.
Proof.
  intros Hc. induction s as [|a s IH]; [done|].
  simpl. destruct (is_int_space a) eqn:Ha; [|done].
  intros [->|Hin]%elem_of_cons; [congruence|by apply IH].
Qed.

Lemma strip_int_space_keeps c s :
  is_int_space c = false → c ∈ s → c ∈ strip_int_space s.
Proof.
  intros Hc Hin. unfold strip_int_space.
  apply elem_of_reverse, lstrip_int_space_keeps; [done|].
  by apply elem_of_reverse, lstrip_int_space_keeps.
Qed.

Lemma lstrip_char_keeps z c s :
  is_char c z = false → c ∈ s → c ∈ lstrip_char z s.
Proof.
  intros Hc. induction s as [|a s IH]; [done|].
  simpl. destruct (is_char a z) eqn:Ha; [|done].
  intros [->|Hin]%elem_of_cons; [congruence|by apply IH].
Qed.

Lemma cons_head_keeps a parts g c :
  g ∈ parts → c ∈ g → ∃ g', g' ∈ cons_head a parts ∧ c ∈ g'.
Proof.
  destruct parts as [|g0 gs]; [by intros ?%elem_of_nil|].
  intros [->|Hin]%elem_of_cons Hc; simpl.
  - exists (a :: g0). split; [by left|by right].
  - exists g. split; [by right|done].
Qed.

Lemma cons_head_holds a parts : ∃ g, g ∈ cons_head a parts ∧ a ∈ g.
Proof.
  destruct parts as [|g0 gs]; simpl.
  - exists [a]. split; by left.
  - exists (a :: g0). split; by left.
Qed.

Lemma split_char_keeps sep c s :
  is_char c sep = false → c ∈ s → ∃ g, g ∈ split_char sep s ∧ c ∈ g.
Proof.
  intros Hc. induction s as [|a s IH]; [by intros ?%elem_of_nil|].
  simpl. destruct (is_char a sep) eqn:Ha.
  - intros [->|Hin]%elem_of_cons; [congruence|].
    destruct (IH Hin) as (g & Hg & Hcg). exists g. split; [by right|done].
  - intros [->|Hin]%elem_of_cons; [apply cons_head_holds|].
    destruct (IH Hin) as (g & Hg & Hcg). by eapply cons_head_keeps.
Qed.

Lemma split_dcolon_keeps c s :
  is_char c ":" = false → c ∈ s → ∃ part, part ∈ split_dcolon s ∧ c ∈ part.
Proof.
  intros Hc. remember (length s) as n eqn:Hn. revert s Hn.
  induction n as [n IH] using lt_wf_ind. intros s -> Hin.
  destruct s as [|a [|d s]]; [by apply elem_of_nil in Hin| |].
  { exists [a]. simpl. split; [by left|done]. }
  change (split_dcolon (a :: d :: s)) with
    (if is_char a ":" && is_char d ":" then [] :: split_dcolon s
     else cons_head a (split_dcolon (d :: s))).
  destruct (is_char a ":" && is_char d ":") eqn:E.
  - apply andb_true_iff in E as [Ea Ed].
    apply elem_of_cons in Hin as [->|Hin]; [congruence|].
    apply elem_of_cons in Hin as [->|Hin]; [congruence|].
    destruct (IH (length s) ltac:(simpl; lia) s eq_refl Hin) as (g & Hg & Hcg).
    exists g. split; [by right|done].
  - apply elem_of_cons in Hin as [->|Hin]; [apply cons_head_holds|].
    destruct (IH (length (d :: s)) ltac:(simpl; lia) (d :: s) eq_refl Hin)
      as (g & Hg & Hcg).
    by eapply cons_head_keeps.
Qed.

Lemma int_digits_foreign c acc s :
  foreign c = true → c ∈ s → int_digits acc s = None.
Proof.
  intros Hf. destruct (foreign_spec c Hf) as (Hhex & _ & _ & _ & _ & Hu & _).
  remember (length s) as n eqn:Hn. revert acc s Hn.
  induction n as [n IH] using lt_wf_ind. intros acc s -> Hin.
  destruct s as [|a s]; [by apply elem_of_nil in Hin|].
  cbn [int_digits]. destruct (is_char a "_") eqn:Ha.
  - apply elem_of_cons in Hin as [->|Hin]; [congruence|].
    destruct s as [|d s]; [done|].
    destruct (hex_digit d) as [v|] eqn:Hd; [|done].
    apply elem_of_cons in Hin as [->|Hin]; [congruence|].
    by apply (IH (length s) ltac:(simpl; lia)).
  - destruct (hex_digit a) as [v|] eqn:Hd; [|done].
    apply elem_of_cons in Hin as [->|Hin]; [congruence|].
    by apply (IH (length s) ltac:(simpl; lia)).
Qed.

Lemma int16_foreign c s :
  foreign c = true → c ∈ s → int16 s = Raise ValueError.
Proof.
  intros Hf Hin.
  destruct (foreign_spec c Hf) as (Hhex & Hsp & _ & Hplus & Hminus & Hu & Hx & HX & _).
  unfold int16. apply (strip_int_space_keeps c s (int_space_is_space c Hsp)) in Hin.
  assert (c ∈ (int_sign (strip_int_space s)).2) as Hsign.
  { unfold int_sign. destruct (strip_int_space s) as [|a r]; [done|].
    destruct (is_char a "+") eqn:Ea; [|destruct (is_char a "-") eqn:Eb]; simpl;
      try done; by apply elem_of_cons in Hin as [->|Hin]; [congruence|]. }
  destruct (int_sign (strip_int_space s)) as [sign s1]. simpl in Hsign.
  assert (c ∈ int_prefix s1) as Hpre.
  { unfold int_prefix. destruct s1 as [|a [|d r]]; try done.
    destruct (is_char a "0" && (is_char d "x" || is_char d "X")) eqn:E; [|done].
    apply andb_true_iff in E as [Ea Ed].
    apply elem_of_cons in Hsign as [->|Hsign].
    { destruct (foreign_spec _ Hf) as (_ & _ & _ & _ & _ & _ & _ & _ & H0).
      congruence. }
    apply elem_of_cons in Hsign as [->|Hsign].
    { rewrite Hx, HX in Ed. done. }
    destruct r as [|u r]; [done|].
    destruct (is_char u "_") eqn:Eu; [|done].
    by apply elem_of_cons in Hsign as [->|Hsign]; [congruence|]. }
  destruct (int_prefix s1) as [|a s2]; [done|].
  destruct (hex_digit a) as [v|] eqn:Ha; [|done].
  apply elem_of_cons in Hpre as [->|Hpre]; [congruence|].
  by rewrite (int_digits_foreign c v s2).
Qed.

Lemma group_value_foreign c g :
  foreign c = true → c ∈ g → IPv6Parser.group_value g = Raise ValueError.
Proof.
  intros Hf Hin.
  destruct (foreign_spec c Hf) as (_ & _ & _ & _ & _ & _ & _ & _ & H0).
  unfold IPv6Parser.group_value.
  rewrite bool_decide_eq_false_2 by (intros ->; by apply elem_of_nil in Hin).
  rewrite bool_decide_eq_false_2.
  2:{ intros ->. apply list_elem_of_singleton in Hin as ->. done. }
  cbn [orb].
  pose proof (lstrip_char_keeps "0" c g H0 Hin) as Hin'.
  destruct (lstrip_char "0" g) as [|a r] eqn:E; [by apply elem_of_nil in Hin'|].
  by apply (int16_foreign c).
Qed.

Lemma groups_to_bytes_foreign c g groups :
  foreign c = true → g ∈ groups → c ∈ g →
  ∃ e, IPv6Parser._groups_to_bytes groups = Raise e.
Proof.
  intros Hf Hg Hc. induction groups as [|g0 groups IH]; [by apply elem_of_nil in Hg|].
  cbn [IPv6Parser._groups_to_bytes].
  apply elem_of_cons in Hg as [<-|Hg].
  { rewrite (group_value_foreign c g Hf Hc). by eexists. }
  destruct (IPv6Parser.group_value g0) as [v|e]; [|by eexists]. cbn [rbind].
  destruct (pack_H v) as [packed|e]; [|by eexists]. cbn [rbind].
  destruct (IH Hg) as [e ->]. by eexists.
Qed.

Lemma foreign_rejected line c :
  c ∈ line → foreign c = true →
  ∃ e, IPv6Parser.to_canonical_bytes line = Raise e.
Proof.
  intros Hin Hf.
  apply foreign_lower in Hf.
  destruct (foreign_spec _ Hf) as (_ & Hsp & Hcolon & _).
  assert (lower_char c ∈ strip (lower line)) as Hin'.
  { apply strip_keeps; [done|]. unfold lower. by apply list_elem_of_fmap_2. }
  unfold IPv6Parser.to_canonical_bytes. cbn zeta.
  destruct (has_dcolon (strip (lower line))).
  - unfold IPv6Parser._expand_compressed.
    destruct (split_dcolon_keeps _ _ Hcolon Hin') as (part & Hpart & Hcp).
    destruct (split_dcolon (strip (lower line))) as [|p0 [|p1 [|p2 ps]]];
      try by eexists.
    cbn zeta. destruct (_ <? 0); [by eexists|].
    assert (∃ g, g ∈ IPv6Parser.groups_of part ∧ lower_char c ∈ g)
      as (g & Hg & Hcg).
    { unfold IPv6Parser.groups_of. destruct part as [|a r] eqn:E;
        [by apply elem_of_nil in Hcp|]. by apply split_char_keeps. }
    eapply (groups_to_bytes_foreign _ g); [done| |done].
    apply elem_of_cons in Hpart as [->|Hpart].
    { apply elem_of_app. by left. }
    apply list_elem_of_singleton in Hpart as ->.
    apply elem_of_app. right. apply elem_of_app. by right.
  - cbn zeta. case_bool_decide; [by eexists|].
    destruct (split_char_keeps ":" _ _ Hcolon Hin') as (g & Hg & Hcg).
    by eapply (groups_to_bytes_foreign _ g).
Qed.

(** X21: a line that holds an ASCII character other than a hexadecimal
    digit, a colon, white space, a sign, an underscore or an [x] is rejected
    by the canonicalizer, and [_process_line] reports and skips it. *)
Theorem foreign_character_is_rejected line c :
  c ∈ line → foreign c = true →
  (∃ e, IPv6Parser.to_canonical_bytes line = Raise e)
  ∧ ∀ self writer n w,
      ∃ e, Counter._process_line self line writer n w
           = (Ok (), set_stderr (λ log, log ++ [MsgLineError line e]) w).
Proof.
  intros Hin Hf.
  destruct (foreign_rejected line c Hin Hf) as [e He].
  split; [by exists e|]. intros self writer n w. exists e.
  by apply process_line_raise.
Qed.

Lemma foreign_character_is_rejected_witness :
  (∃ e, IPv6Parser.to_canonical_bytes (str "2001:db8::g1") = Raise e)
  ∧ (∃ e, IPv6Parser.to_canonical_bytes (str "1.2.3.4") = Raise e).
Proof.
  split.
  - apply (foreign_character_is_rejected (str "2001:db8::g1") "g"%char);
      [|reflexivity].
    by apply (list_elem_of_lookup_2 _ 10%nat).
  - apply (foreign_character_is_rejected (str "1.2.3.4") "."%char);
      [|reflexivity].
    by apply (list_elem_of_lookup_2 _ 1%nat).
Defined.

(** * The claims on failures *)

(** ** A sign before the digits of a group *)

Lemma hex_not_x c : is_hex c → is_char c "x" = false ∧ is_char c "X" = false.
Proof.
  intros [v Hv]. split; apply is_char_false; intros ->; vm_compute in Hv;
    discriminate.
Qed.

Lemma group_value_signed v g :
  group_text v g → IPv6Parser.group_value ("+"%char :: g) = Ok v.
Proof.
  intros [Hne _ Hhex <-]. unfold IPv6Parser.group_value.
  rewrite bool_decide_eq_false_2 by done.
  rewrite bool_decide_eq_false_2 by (intros [=]; by destruct g).
  cbn [orb lstrip_char]. change (is_char "+" "0") with false. cbn iota.
  unfold int16. rewrite strip_int_space_id.
  2:{ constructor; [done|]. eapply Forall_impl; [done|]. intros d Hd.
      by apply int_space_is_space, hex_not_space. }
  cbn [int_sign]. change (is_char "+" "+") with true. cbn iota.
  destruct g as [|c s]; [done|].
  apply Forall_cons in Hhex as [Hc Hs].
  assert (int_prefix (c :: s) = c :: s) as ->.
  { unfold int_prefix. destruct s as [|d s']; [done|].
    apply Forall_cons in Hs as [Hd _].
    destruct (hex_not_x d Hd) as [-> ->]. by rewrite andb_false_r. }
  destruct Hc as [v0 Hv0]. rewrite Hv0, int_digits_hex by done.
  cbn [hex_val]. rewrite Hv0. cbn [default from_option id].
  by rewrite Z.mul_1_l.
Qed.

Lemma groups_to_bytes_app gs1 gs2 :
  IPv6Parser._groups_to_bytes (gs1 ++ gs2)
  = rbind (IPv6Parser._groups_to_bytes gs1) (λ key1,
    rbind (IPv6Parser._groups_to_bytes gs2) (λ key2, Ok (key1 ++ key2))).
Proof.
  induction gs1 as [|g gs1 IH].
  { simpl. by destruct (IPv6Parser._groups_to_bytes gs2). }
  rewrite <-app_comm_cons. cbn [IPv6Parser._groups_to_bytes].
  destruct (IPv6Parser.group_value g) as [v|]; [|done]. cbn [rbind].
  destruct (pack_H v) as [packed|]; [|done]. cbn [rbind].
  rewrite IH. destruct (IPv6Parser._groups_to_bytes gs1) as [key1|]; [|done].
  cbn [rbind]. destruct (IPv6Parser._groups_to_bytes gs2) as [key2|]; [|done].
  cbn [rbind]. by rewrite app_assoc.
Qed.

Lemma join_colon_no_space ts : Forall no_space ts → no_space (join_colon ts).
Proof.
  assert (∀ ts, Forall no_space ts → no_space (sep_tail ts)) as Ht.
  { induction 1 as [|g ts' Hg _ IH]; [constructor|].
    rewrite sep_tail_cons.
    constructor; [done|]. by apply Forall_app. }
  destruct 1 as [|g ts' Hg Hrest]; [constructor|].
  apply Forall_app; split; [done|by apply Ht].
Qed.

Lemma group_text_no_space v g : group_text v g → no_space g.
Proof.
  intros [_ _ Hhex _]. eapply Forall_impl; [done|]. apply hex_not_space.
Qed.

(** A sign before the digits of the last group is taken by [int]. *)
Lemma signed_group_accepted vs ts v g :
  length vs = 7%nat → Forall2 group_text vs ts → group_text v g →
  IPv6Parser.to_canonical_bytes (join_colon (ts ++ [("+"%char :: g)]))
  = Ok (key_of (vs ++ [v])).
Proof.
  intros Hlen Hts%group_texts_lower Hg%group_text_lower.
  unfold IPv6Parser.to_canonical_bytes. cbn zeta.
  rewrite lower_join, fmap_app. cbn [fmap list_fmap].
  change (lower ("+"%char :: g)) with ("+"%char :: lower g).
  set (ts' := lower <$> ts) in *. set (g' := lower g) in *.
  assert (Forall plain_group (ts' ++ ["+"%char :: g'])) as Hplain.
  { apply Forall_app; split; [by eapply group_texts_plain|].
    apply Forall_singleton. split; [done|].
    constructor; [done|]. by destruct (group_text_plain _ _ Hg). }
  rewrite strip_id.
  2:{ apply join_colon_no_space, Forall_app; split.
      - clear -Hts. induction Hts; constructor; eauto using group_text_no_space.
      - apply Forall_singleton. constructor; [done|].
        by eapply group_text_no_space. }
  pose proof (has_dcolon_join _ [] Hplain) as Hd.
  rewrite app_nil_r in Hd. rewrite Hd.
  pose proof (Forall2_length _ _ _ Hts) as Hlen'. rewrite Hlen in Hlen'.
  assert (split_char ":" (join_colon (ts' ++ ["+"%char :: g']))
          = ts' ++ ["+"%char :: g']) as ->.
  { destruct ts' as [|t0 rest]; [done|]. rewrite <-app_comm_cons in Hplain |- *.
    apply Forall_cons in Hplain as [[_ H0] Hrest].
    apply split_char_join; [done|].
    eapply Forall_impl; [done|]. by intros ? []. }
  rewrite length_app, <-Hlen'. cbn [length].
  rewrite bool_decide_eq_false_2 by (intros ?; done).
  rewrite groups_to_bytes_app, (groups_to_bytes_text _ _ Hts). cbn [rbind].
  cbn [IPv6Parser._groups_to_bytes]. rewrite (group_value_signed v g' Hg).
  cbn [rbind]. rewrite pack_H_range by by eapply group_text_range.
  cbn [rbind]. unfold key_of. by rewrite fmap_app, concat_app.
Qed.

Lemma signed_text_malformed vs ts v g :
  Forall2 group_text vs ts → ts ≠ [] → group_text v g →
  ¬ well_formed (join_colon (ts ++ [("+"%char :: g)])).
Proof.
  intros Hts Hne Hg Hwf%well_formed_looks. revert Hwf.
  assert (Forall plain_group (ts ++ ["+"%char :: g])) as Hplain.
  { apply Forall_app; split; [by eapply group_texts_plain|].
    apply Forall_singleton. split; [done|].
    constructor; [done|]. by destruct (group_text_plain _ _ Hg). }
  unfold looks_well_formed.
  pose proof (has_dcolon_join _ [] Hplain) as Hd.
  rewrite app_nil_r in Hd. rewrite Hd. change (has_dcolon []) with false. cbn iota.
  assert (split_char ":" (join_colon (ts ++ ["+"%char :: g]))
          = ts ++ ["+"%char :: g]) as ->.
  { destruct ts as [|t0 rest]; [done|]. rewrite <-app_comm_cons in Hplain |- *.
    apply Forall_cons in Hplain as [[_ H0] Hrest].
    apply split_char_join; [done|].
    eapply Forall_impl; [done|]. by intros ? []. }
  rewrite forallb_app. cbn [forallb]. unfold is_group at 2. cbn [forallb].
  change (bool_decide (is_Some (hex_digit "+"))) with false.
  by rewrite !andb_false_r.
Qed.

(** The leniency of [int] on the groups of a text: an underscore between
    two digits, white space around the digits and a minus sign before a zero
    are taken as well. *)
Example int_lenient_groups :
  IPv6Parser.to_canonical_bytes (str "1:2:3:4:5:6:7:1_0")
    = IPv6Parser.to_canonical_bytes (str "1:2:3:4:5:6:7:10")
  ∧ IPv6Parser.to_canonical_bytes (str "1:2:3:4:5:6: 7:8")
    = IPv6Parser.to_canonical_bytes (str "1:2:3:4:5:6:7:8")
  ∧ IPv6Parser.to_canonical_bytes (str "1:2:3:4:5:6:7:-0")
    = IPv6Parser.to_canonical_bytes (str "1:2:3:4:5:6:7:0").
Proof. vm_compute. done. Qed.

(** C8 (the code departs from it on the groups that [int] takes): the
    canonicalizer accepts every well-formed text; it raises on a wrong number
    of groups, on more than eight groups around a [::], on a second [::] and
    on every line that holds an ASCII character foreign to addresses; when it
    raises, [_process_line] writes nothing, reports the line with its error
    on the diagnostic channel and returns, and no call of [_process_line]
    ever raises.  But a sign is no hexadecimal digit, and a text whose last
    group carries a sign is no textual form of an address: the canonicalizer
    returns a key for it, the key of the text without the sign. *)
Theorem C8_parse_errors_are_recoverable :
  (∀ line, well_formed line → ∃ key, IPv6Parser.to_canonical_bytes line = Ok key)
  ∧ (∀ ts, Forall hex_group ts → length ts ≠ 8%nat →
       IPv6Parser.to_canonical_bytes (join_colon ts) = Raise ValueError)
  ∧ (∀ tl tr, Forall hex_group tl → Forall hex_group tr →
       (8 < length tl + length tr)%nat →
       IPv6Parser.to_canonical_bytes
         (join_colon tl ++ str "::" ++ join_colon tr) = Raise ValueError)
  ∧ (∀ tl tm tr, Forall hex_group tl → Forall hex_group tm → Forall hex_group tr →
       IPv6Parser.to_canonical_bytes
         (join_colon tl ++ str "::" ++ join_colon tm ++ str "::" ++ join_colon tr)
       = Raise ValueError)
  ∧ (∀ line c, c ∈ line → foreign c = true →
       ∃ e, IPv6Parser.to_canonical_bytes line = Raise e)
  ∧ (∀ line self writer n w e,
       IPv6Parser.to_canonical_bytes line = Raise e →
       Counter._process_line self line writer n w
       = (Ok (), set_stderr (λ log, log ++ [MsgLineError line e]) w))
  ∧ (∀ line self writer n w,
       ∃ w', Counter._process_line self line writer n w = (Ok (), w'))
  ∧ (hex_digit "+" = None
     ∧ ∀ vs ts v g,
         length vs = 7%nat → Forall2 group_text vs ts → group_text v g →
         ¬ well_formed (join_colon (ts ++ [("+"%char :: g)]))
         ∧ IPv6Parser.to_canonical_bytes (join_colon (ts ++ [("+"%char :: g)]))
           = Ok (key_of (vs ++ [v]))
         ∧ IPv6Parser.to_canonical_bytes (join_colon (ts ++ [g]))
           = Ok (key_of (vs ++ [v]))).
Proof.
  split_and!.
  - intros line [gs Ht]. exists (key_of gs). by apply canonical_of_text.
  - apply expanded_count_rejected.
  - apply compressed_count_rejected.
  - apply two_dcolon_rejected.
  - apply foreign_rejected.
  - intros. by apply process_line_raise.
  - intros. apply process_line_total.
  - reflexivity.
  - intros vs ts v g Hlen Hts Hg. split_and!.
    + eapply signed_text_malformed; [done| |done].
      intros ->. apply Forall2_nil_inv_r in Hts as ->. done.
    + by apply signed_group_accepted.
    + apply canonical_of_text. apply expanded_text.
      * rewrite length_app, Hlen. done.
      * apply Forall2_app; [done|]. by apply Forall2_cons_2; [|apply Forall2_nil_2].
Qed.

Lemma C8_witness :
  let self := {| memory_limit_mb := 1024 |} in
  let w := sample_world "" [] in
  (well_formed (str "fe80::")
   ∧ ∃ key, IPv6Parser.to_canonical_bytes (str "fe80::") = Ok key)
  ∧ IPv6Parser.to_canonical_bytes (str "1:2:3:4:5:6:7") = Raise ValueError
  ∧ (IPv6Parser.to_canonical_bytes (str "1::2::3") = Raise ValueError
     ∧ Counter._process_line self (str "1::2::3") [] 1 w
       = (Ok (), set_stderr (λ log, log ++ [MsgLineError (str "1::2::3") ValueError]) w))
  ∧ (∃ e, IPv6Parser.to_canonical_bytes (str "1:2:3:4:5:6:7:8g") = Raise e)
  ∧ (¬ well_formed (str "1:2:3:4:5:6:7:+8")
     ∧ IPv6Parser.to_canonical_bytes (str "1:2:3:4:5:6:7:+8")
       = Ok [0; 1; 0; 2; 0; 3; 0; 4; 0; 5; 0; 6; 0; 7; 0; 8]).
Proof.
  intros self w.
  destruct C8_parse_errors_are_recoverable
    as (Hok & Hcount & _ & Htwo & Hforeign & Hskip & _ & _ & Hsign).
  assert (well_formed (str "fe80::")) as Hwf.
  { exists [0xfe80; 0; 0; 0; 0; 0; 0; 0].
    apply (compressed_text _ [0xfe80] [] 7 [str "fe80"] []);
      [reflexivity|reflexivity|lia| |]; group_texts_tac. }
  assert (IPv6Parser.to_canonical_bytes (str "1::2::3") = Raise ValueError) as Hraise.
  { apply (Htwo [str "1"] [str "2"] [str "3"]); hex_groups_tac. }
  destruct (Hsign [1; 2; 3; 4; 5; 6; 7]
              [str "1"; str "2"; str "3"; str "4"; str "5"; str "6"; str "7"]
              8 (str "8")) as (Hmal & Hacc & _);
    [reflexivity|group_texts_tac|group_text_tac|].
  split; [split; [exact Hwf|exact (Hok _ Hwf)]|].
  split.
  { apply (Hcount [str "1"; str "2"; str "3"; str "4"; str "5"; str "6"; str "7"]);
      [hex_groups_tac|simpl; lia]. }
  split; [split; [exact Hraise|exact (Hskip _ self [] 1%nat w ValueError Hraise)]|].
  split.
  { apply (Hforeign (str "1:2:3:4:5:6:7:8g") "g"%char); [|reflexivity].
    by apply (list_elem_of_lookup_2 _ 15%nat). }
  split; [exact Hmal|exact Hacc].
Defined.

(** ** Failures of the external path *)

Lemma external_sort_phases n path w :
  PartitionProcessor._external_sort_blocks n path w
  = (let* f := open_rb path in
     let* temp_files := PartitionProcessor.split_blocks (S (length f)) n f in
     let* result_path := merge_phase temp_files in
     PartitionProcessor.unlink_all temp_files ;;;
     ret result_path) w.
Proof.
  unfold PartitionProcessor._external_sort_blocks, merge_phase, bind.
  destruct (open_rb path w) as [[f|e] w0]; [|done].
  destruct (PartitionProcessor.split_blocks _ n f w0) as [[temp_files|e] w1]; [|done].
  destruct (mkstemp false w1) as [[result_path|e] w2]; [|done].
  destruct (PartitionProcessor.open_blocks temp_files [] [] w2)
    as [[[heap file_handles]|e] w3]; [|done].
  by destruct (PartitionProcessor.merge_blocks _ result_path heap file_handles w3)
    as [[[]|e] w4].
Qed.

Lemma merge_phase_frame temp_files w r w' :
  merge_phase temp_files w = (r, w') →
  temps w ⊆ temps w'
  ∧ match r with Ok result_path => temps w !! result_path = None | Raise _ => True end.
Proof.
  intros Hrun.
  assert (preserves (files w) (temps w) (tempdir w) (stderr w)
            (merge_phase temp_files) (λ result_path, temps w !! result_path = None))
    as Hp.
  { unfold merge_phase.
    eapply preserves_bind; [apply preserves_mkstemp|]. intros result_path Hnew.
    eapply preserves_bind; [apply preserves_open_blocks|].
    intros [heap file_handles] _.
    eapply preserves_bind; [by apply preserves_merge_blocks|]. intros _ _.
    by apply preserves_ret. }
  by destruct (Hp w r w') as [[] ?].
Qed.

Lemma open_rb_inv path w f w0 :
  open_rb path w = (Ok f, w0) → temps w !! path = Some f ∧ temps w0 = temps w.
Proof.
  unfold open_rb. intros ([] & w1 & Htick & Hread)%bind_inv_ok.
  apply tick_fields in Htick as (_ & Ht & _). rewrite Ht in Hread.
  destruct (temps w !! path); [|done]. injection Hread as <- <-. done.
Qed.

Lemma split_blocks_stored n rs w temp_files w1 :
  aligned rs →
  PartitionProcessor.split_blocks (S (length (concat rs))) n (concat rs) w
  = (Ok temp_files, w1) →
  ∀ p, p ∈ temp_files → temps w !! p = None ∧ is_Some (temps w1 !! p).
Proof.
  intros Hrs Hsplit%steady_split_blocks p Hin.
  assert (length rs < S (length (concat rs)))%nat as Hf.
  { rewrite aligned_concat_length by done. unfold IPV6_BYTES_LEN. lia. }
  rewrite (split_blocks_calm _ n rs (quiet w)) in Hsplit by done.
  set (bl := blocks_of (S (length (concat rs))) n rs) in *.
  destruct (store_blocks_spec bl (temps w)) as (Hall & _ & Hnew & _).
  injection Hsplit as <- _ Ht _ _.
  split; [by apply Hnew|]. rewrite <-Ht. by eapply stored_present.
Qed.

Lemma steady_external_sort n path :
  steady (PartitionProcessor._external_sort_blocks n path).
Proof.
  unfold PartitionProcessor._external_sort_blocks.
  apply steady_bind; [apply steady_open_rb|]. intros f.
  apply steady_bind; [apply steady_split_blocks|]. intros temp_files.
  apply steady_bind; [apply steady_mkstemp|]. intros result_path.
  apply steady_bind; [apply steady_open_blocks|]. intros [heap file_handles].
  apply steady_bind; [apply steady_merge_blocks|]. intros _.
  apply steady_bind; [apply steady_unlink_all|]. intros _. apply steady_ret.
Qed.

Lemma external_sort_returns n path rs w sorted_path w2 :
  aligned rs → temps w !! path = Some (concat rs) → (0 < n)%nat →
  PartitionProcessor._external_sort_blocks n path w = (Ok sorted_path, w2) →
  temps w !! sorted_path = None
  ∧ temps w2 = <[sorted_path := concat (sort_records rs)]> (temps w).
Proof.
  intros Hrs Hp Hn Hrun%steady_external_sort.
  destruct (external_sort_calm n path rs (quiet w)) as (r & Hr & Hcalm); [done..|].
  rewrite Hcalm in Hrun. injection Hrun as <- _ Ht _ _. by split.
Qed.

Lemma reads_only_scan_sorted fuel f prev unique_count :
  reads_only (PartitionProcessor.scan_sorted fuel f prev unique_count).
Proof.
  revert f prev unique_count.
  induction fuel as [|fuel IH]; intros f prev unique_count; [apply reads_only_raise|].
  cbn [PartitionProcessor.scan_sorted].
  apply reads_only_bind; [apply reads_only_read|]. intros [chunk f'].
  destruct (PartitionProcessor.is_empty chunk); [apply reads_only_ret|].
  case_bool_decide; apply IH.
Qed.

Lemma reads_only_temps {A} (m : M A) w r w' :
  reads_only m → m w = (r, w') → temps w' = temps w.
Proof. intros Hm ->%Hm. done. Qed.

(** A scan of the merged file that fails leaves the file where it is. *)
Lemma count_sorted_file_raise sorted_path w e w' :
  PartitionProcessor.count_sorted_file sorted_path w = (Raise e, w') →
  temps w' = temps w.
Proof.
  unfold PartitionProcessor.count_sorted_file.
  intros [(f & w1 & Hopen & Hrest)|(e1 & Hopen & _)]%bind_inv;
    [|by eapply reads_only_temps; [apply reads_only_open_rb|]].
  apply (reads_only_temps _ _ _ _ (reads_only_open_rb _)) in Hopen.
  apply bind_inv in Hrest as [(count & w2 & Hscan & Hrest)|(e2 & Hscan & _)];
    [|by rewrite <-Hopen; eapply reads_only_temps; [apply reads_only_scan_sorted|]].
  apply (reads_only_temps _ _ _ _ (reads_only_scan_sorted _ _ _ _)) in Hscan.
  apply bind_inv in Hrest as [([] & w3 & Hunlink & [=])|(e3 & Hunlink & _)].
  rewrite <-Hopen, <-Hscan. revert Hunlink. unfold unlink.
  intros [([] & w3 & Htick & Hdel)|(e4 & Htick & _)]%bind_inv.
  - apply tick_fields in Htick as (_ & Ht & _). rewrite <-Ht.
    destruct (temps w3 !! sorted_path); [done|]. by injection Hdel as _ <-.
  - by apply tick_fields in Htick as (_ & Ht & _).
Qed.

Lemma split_blocks_nodup n rs w temp_files w1 :
  aligned rs →
  PartitionProcessor.split_blocks (S (length (concat rs))) n (concat rs) w
  = (Ok temp_files, w1) →
  NoDup temp_files.
Proof.
  intros Hrs Hsplit%steady_split_blocks.
  assert (length rs < S (length (concat rs)))%nat as Hf.
  { rewrite aligned_concat_length by done. unfold IPV6_BYTES_LEN. lia. }
  rewrite (split_blocks_calm _ n rs (quiet w)) in Hsplit by done.
  set (bl := blocks_of (S (length (concat rs))) n rs) in *.
  destruct (store_blocks_spec bl (temps w)) as (_ & Hnd & _).
  by injection Hsplit as <- _.
Qed.

Lemma unlink_inv path w r w' :
  unlink path w = (r, w') →
  match r with
  | Ok _ => temps w' = delete path (temps w)
  | Raise _ => temps w' = temps w
  end.
Proof.
  unfold unlink. intros [([] & w1 & Htick & Hdel)|(e & Htick & ->)]%bind_inv.
  - apply tick_fields in Htick as (_ & Ht & _). rewrite <-Ht.
    destruct (temps w1 !! path); by injection Hdel as <- <-.
  - by apply tick_fields in Htick as (_ & Ht & _).
Qed.

(** A deletion loop that fails leaves one of its files behind. *)
Lemma unlink_all_raise paths w e w' :
  NoDup paths → (∀ p, p ∈ paths → is_Some (temps w !! p)) →
  PartitionProcessor.unlink_all paths w = (Raise e, w') →
  ∃ p, p ∈ paths ∧ is_Some (temps w' !! p).
Proof.
  intros Hnd. revert w. induction Hnd as [|path rest Hnin Hnd IH]; intros w Hall.
  { by intros [=]. }
  cbn [PartitionProcessor.unlink_all].
  intros [([] & w1 & Hhead & Hrest)|(e1 & Hhead & _)]%bind_inv.
  - apply unlink_inv in Hhead.
    destruct (IH w1) as (p & Hin & Hp); [|done|].
    + intros p Hin. rewrite Hhead, lookup_delete_ne by (by intros ->).
      apply Hall. by right.
    + exists p. split; [by right|done].
  - apply unlink_inv in Hhead. exists path. split; [by left|].
    rewrite Hhead. apply Hall. by left.
Qed.

(** C9 as it is written fails.  The schedule lets the split through (the
    partition is opened and read to its end, the run file 1 is created and
    receives the two sorted records) and makes the ninth operation fail,
    which is the creation of the merged file: the call returns the error and
    the run file of the split is still there. *)
Lemma C9_run_file_survives_failure :
  let w := sample_partition [sample_key 3; sample_key 1]
             (replicate 8 false ++ [true]) in
  (PartitionProcessor.split_blocks
     (S (length (concat [sample_key 3; sample_key 1])))
     PartitionProcessor.records_per_block
     (concat [sample_key 3; sample_key 1]) w).1
  = Ok [1%nat]
  ∧ (PartitionProcessor._count_unique_external 0 w).1 = Raise OSError
  ∧ temps (PartitionProcessor._count_unique_external 0 w).2 !! 1%nat
    = Some (concat [sample_key 1; sample_key 3]).
Proof. vm_compute. done. Qed.

(** C9, amended: the run files are deleted on the one path on which the
    merge ends, and nothing is cleaned up when the call fails.  Whenever the
    counting call of the external-merge path returns a count, under whatever
    schedule of failures, the temporary files are as before the call, so
    that every run file of its split is deleted by then; when no operation
    fails the call does return, after a split that has created the run
    files.  When the call fails between the end of the split and the end of
    the merge (the creation of the merged file, the opening of the run files
    or the merge itself), the error leaves the call and every run file of
    the split is still there, with its content.  When it fails in the loop
    that deletes the run files, one of them at least is still there.  When
    it fails in the final scan, the run files are deleted by then, and the merged file
    stays behind: the temporary files are those from before the call and the
    merged file, which holds the sorted records. *)
Theorem C9_run_files_on_each_exit_path n path rs w :
  aligned rs → temps w !! path = Some (concat rs) → (0 < n)%nat →
  (∀ count w',
     PartitionProcessor._count_unique_external_blocks n path w = (Ok count, w') →
     temps w' = temps w)
  ∧ (calm w →
     ∃ temp_files w1,
       PartitionProcessor.split_blocks (S (length (concat rs))) n (concat rs) w
       = (Ok temp_files, w1)
       ∧ (∀ p, p ∈ temp_files → temps w !! p = None ∧ is_Some (temps w1 !! p))
       ∧ PartitionProcessor._count_unique_external_blocks n path w
         = (Ok (distinct rs), w))
  ∧ (∀ w0 temp_files w1 e w',
       open_rb path w = (Ok (concat rs), w0) →
       PartitionProcessor.split_blocks (S (length (concat rs))) n (concat rs) w0
       = (Ok temp_files, w1) →
       merge_phase temp_files w1 = (Raise e, w') →
       PartitionProcessor._count_unique_external_blocks n path w = (Raise e, w')
       ∧ ∀ p, p ∈ temp_files →
           temps w !! p = None
           ∧ is_Some (temps w' !! p) ∧ temps w' !! p = temps w1 !! p)
  ∧ (∀ w0 temp_files w1 result_path w2 e w',
       open_rb path w = (Ok (concat rs), w0) →
       PartitionProcessor.split_blocks (S (length (concat rs))) n (concat rs) w0
       = (Ok temp_files, w1) →
       merge_phase temp_files w1 = (Ok result_path, w2) →
       PartitionProcessor.unlink_all temp_files w2 = (Raise e, w') →
       PartitionProcessor._count_unique_external_blocks n path w = (Raise e, w')
       ∧ ∃ p, p ∈ temp_files ∧ is_Some (temps w' !! p))
  ∧ (∀ sorted_path w2 e w',
       PartitionProcessor._external_sort_blocks n path w = (Ok sorted_path, w2) →
       PartitionProcessor.count_sorted_file sorted_path w2 = (Raise e, w') →
       PartitionProcessor._count_unique_external_blocks n path w = (Raise e, w')
       ∧ temps w !! sorted_path = None
       ∧ temps w' = <[sorted_path := concat (sort_records rs)]> (temps w)
       ∧ ∃ w0 temp_files w1,
           open_rb path w = (Ok (concat rs), w0)
           ∧ PartitionProcessor.split_blocks (S (length (concat rs))) n (concat rs) w0
             = (Ok temp_files, w1)
           ∧ ∀ p, p ∈ temp_files → temps w' !! p = None).
Proof.
  intros Hrs Hp Hn. split_and!.
  - intros count w' Hrun.
    by destruct (count_unique_external_returns n path rs w count w' Hrs Hp Hn Hrun).
  - intros Hw.
    assert (length rs < S (length (concat rs)))%nat as Hf.
    { rewrite aligned_concat_length by done. unfold IPV6_BYTES_LEN. lia. }
    set (bl := blocks_of (S (length (concat rs))) n rs).
    destruct (store_blocks_spec bl (temps w)) as (Hall & Hnd & Hnew & Hold & Hdel).
    exists (store_blocks bl (temps w)).1,
           (with_temps (store_blocks bl (temps w)).2 w).
    split_and!.
    + by apply split_blocks_calm.
    + intros p Hin. split; [by apply Hnew|].
      rewrite temps_with_temps. by eapply stored_present.
    + by apply count_unique_external_calm.
  - intros w0 temp_files w1 e w' Hopen Hsplit Hmerge. split.
    + unfold PartitionProcessor._count_unique_external_blocks.
      apply bind_raise. rewrite external_sort_phases.
      rewrite (bind_ok _ _ _ _ _ Hopen).
      rewrite (bind_ok _ _ _ _ _ Hsplit).
      by apply bind_raise.
    + intros p Hin.
      apply open_rb_inv in Hopen as [_ Ht0].
      destruct (split_blocks_stored n rs w0 temp_files w1 Hrs Hsplit p Hin)
        as [Hnew [c Hc]].
      apply merge_phase_frame in Hmerge as [Hsub _].
      rewrite <-Ht0. split; [done|].
      rewrite Hc, (lookup_weaken _ _ _ _ Hc Hsub). eauto.
  - intros w0 temp_files w1 result_path w2 e w' Hopen Hsplit Hmerge Hdel. split.
    + unfold PartitionProcessor._count_unique_external_blocks.
      apply bind_raise. rewrite external_sort_phases.
      rewrite (bind_ok _ _ _ _ _ Hopen).
      rewrite (bind_ok _ _ _ _ _ Hsplit).
      rewrite (bind_ok _ _ _ _ _ Hmerge).
      by apply bind_raise.
    + apply merge_phase_frame in Hmerge as [Hsub _].
      eapply unlink_all_raise; [by eapply split_blocks_nodup| |done].
      intros p Hin.
      destruct (split_blocks_stored n rs w0 temp_files w1 Hrs Hsplit p Hin)
        as [_ [c Hc]].
      rewrite (lookup_weaken _ _ _ _ Hc Hsub). eauto.
  - intros sorted_path w2 e w' Hsort Hscan.
    destruct (external_sort_returns n path rs w sorted_path w2 Hrs Hp Hn Hsort)
      as [Hnew Ht2].
    pose proof (count_sorted_file_raise _ _ _ _ Hscan) as Ht'.
    split_and!.
    + unfold PartitionProcessor._count_unique_external_blocks.
      by rewrite (bind_ok _ _ _ _ _ Hsort).
    + done.
    + by rewrite Ht', Ht2.
    + rewrite external_sort_phases in Hsort.
      apply bind_inv_ok in Hsort as (f & w0 & Hopen & Hsort).
      destruct (open_rb_inv _ _ _ _ Hopen) as [Hf Ht0].
      assert (f = concat rs) as -> by congruence.
      apply bind_inv_ok in Hsort as (temp_files & w1 & Hsplit & Hsort).
      apply bind_inv_ok in Hsort as (result_path & w3 & Hmerge & Hsort).
      apply bind_inv_ok in Hsort as ([] & w4 & _ & [= -> _]).
      exists w0, temp_files, w1. split_and!; [done..|].
      intros p Hin.
      destruct (split_blocks_stored n rs w0 temp_files w1 Hrs Hsplit p Hin)
        as [Hnone [c Hc]].
      apply merge_phase_frame in Hmerge as [_ Hfresh].
      rewrite Ht', Ht2, lookup_insert_ne by congruence.
      by rewrite <-Ht0.
Qed.

Lemma C9_witness :
  let rs := [sample_key 3; sample_key 1; sample_key 3; sample_key 2] in
  let merging := sample_partition rs (replicate 20 false ++ [true]) in
  let deleting := sample_partition rs (replicate 26 false ++ [true]) in
  let scanning := sample_partition rs (replicate 30 false ++ [true]) in
  let quietly := sample_partition rs (replicate 40 false) in
  let call := PartitionProcessor._count_unique_external_blocks 2 0 in
  ((∃ temp_files w1,
      PartitionProcessor.split_blocks (S (length (concat rs))) 2 (concat rs)
        (sample_partition rs [])
      = (Ok temp_files, w1)
      ∧ (∀ p, p ∈ temp_files →
           temps (sample_partition rs []) !! p = None ∧ is_Some (temps w1 !! p))
      ∧ call (sample_partition rs []) = (Ok (distinct rs), sample_partition rs []))
   ∧ temps (call quietly).2 = temps quietly)
  ∧ ((call merging).1 = Raise OSError
     ∧ is_Some (temps (call merging).2 !! 1%nat)
     ∧ is_Some (temps (call merging).2 !! 2%nat))
  ∧ ((call deleting).1 = Raise OSError
     ∧ ∃ p, p ∈ [1%nat; 2%nat] ∧ is_Some (temps (call deleting).2 !! p))
  ∧ ((call scanning).1 = Raise OSError
     ∧ temps (call scanning).2
       = <[3%nat := concat (sort_records rs)]> (temps scanning)).
Proof.
  intros rs merging deleting scanning quietly call. subst call. cbv beta.
  assert (aligned rs) as Hrs by (repeat constructor).
  pose proof (λ w Hp, C9_run_files_on_each_exit_path 2 0%nat rs w Hrs Hp
                        ltac:(lia)) as H.
  split; [split|split; [|split]].
  - exact (proj1 (proj2 (H (sample_partition rs []) eq_refl)) eq_refl).
  - destruct (PartitionProcessor._count_unique_external_blocks 2 0 quietly) as [[count|e] w'] eqn:Hrun; [|by vm_compute in Hrun].
    exact (proj1 (H quietly eq_refl) count w' Hrun).
  - destruct (H merging eq_refl) as (_ & _ & Hmerge & _).
    destruct (Hmerge (open_rb 0 merging).2 [1%nat; 2%nat]
                (PartitionProcessor.split_blocks (S (length (concat rs))) 2
                   (concat rs) (open_rb 0 merging).2).2
                OSError (PartitionProcessor._count_unique_external_blocks 2 0 merging).2) as [Hcall Hfiles];
      [vm_compute; reflexivity..|].
    split; [by rewrite Hcall|].
    split; [apply (Hfiles 1%nat); by apply (list_elem_of_lookup_2 _ 0%nat)
           |apply (Hfiles 2%nat); by apply (list_elem_of_lookup_2 _ 1%nat)].
  - destruct (H deleting eq_refl) as (_ & _ & _ & Hdel & _).
    destruct (Hdel (open_rb 0 deleting).2 [1%nat; 2%nat]
                (PartitionProcessor.split_blocks (S (length (concat rs))) 2
                   (concat rs) (open_rb 0 deleting).2).2
                3%nat
                (merge_phase [1%nat; 2%nat]
                   (PartitionProcessor.split_blocks (S (length (concat rs))) 2
                      (concat rs) (open_rb 0 deleting).2).2).2
                OSError (PartitionProcessor._count_unique_external_blocks 2 0 deleting).2) as [Hcall Hfiles];
      [vm_compute; reflexivity..|].
    split; [by rewrite Hcall|exact Hfiles].
  - destruct (H scanning eq_refl) as (_ & _ & _ & _ & Hscan).
    destruct (Hscan 3%nat (PartitionProcessor._external_sort_blocks 2 0 scanning).2
                OSError (PartitionProcessor._count_unique_external_blocks 2 0 scanning).2) as (Hcall & _ & Htemps & _);
      [vm_compute; reflexivity..|].
    split; [by rewrite Hcall|exact Htemps].
Defined.

(** ** Failures of the counting tasks *)









